(** * Client lifecycle supervision: state store, reconnection scheduler,
      watchdog, chat cache and media queue

    A shallow embedding of the supervision layer of the messaging fleet
    (utils/clientStateManager.js, utils/reconnectionManager.js,
    utils/watchdogMonitor.js, utils/chatCache.js and the media queue) and
    the properties its specification states about it.

    Conventions of the embedding.
    - A JavaScript [Map] keyed by client number is a [gmap string _]; a
      [Set] of ids is a [gset string].  The media queue is a [Map] whose
      iteration order is observable (it is sorted with a stable sort), so it
      is an association list in insertion order.
    - Every reading of the clock ([Date.now()], [new Date()]) is an explicit
      argument in milliseconds; every draw of [Math.random()] is an explicit
      rational argument.  The delay is computed in the arithmetic of the
      language's Numbers (IEEE 754 binary64, module [Binary64]): each
      operation delivers the exact result rounded to the nearest Number.
    - Calls into the session library (initialize, reload, ...) are opaque:
      their outcome is an argument of the operation that performs them. *)

From Stdlib Require Import ZArith QArith Qround Qminmax Qpower Qabs Lqa Lia.
From stdpp Require Import gmap strings list fin_maps sorting.

Local Open Scope Z_scope.

(** ** Shared helpers *)

(** [Array.prototype.includes] on an array of strings. *)
Definition includes (l : list string) (x : string) : bool :=
  existsb (String.eqb x) l.

(** The last [k] elements of a list (what remains of an array that is pushed
    to and shifted from). *)
Definition lastn {A} (k : nat) (l : list A) : list A :=
  drop (length l - k)%nat l.

(** Free-form metadata objects attached to transitions: a flat object whose
    values are atoms or, for the watchdog's [failedChecks], a record of
    flags. *)
Inductive MetaValue : Type :=
| MBool (b : bool)
| MNum (z : Z)
| MStr (s : string)
| MFlags (flags : list (string * bool)).

Definition Metadata : Type := list (string * MetaValue).

(** ** State store (utils/clientStateManager.js) *)

Module ClientStateManager.

(** [this.CLIENT_STATES] *)
Definition INITIALIZING : string := "INITIALIZING".
Definition WAITING_QR : string := "WAITING_QR".
Definition AUTHENTICATING : string := "AUTHENTICATING".
Definition AUTHENTICATED : string := "AUTHENTICATED".
Definition READY : string := "READY".
Definition DISCONNECTED : string := "DISCONNECTED".
Definition AUTH_FAILURE : string := "AUTH_FAILURE".
Definition ERROR : string := "ERROR".
Definition RECONNECTING : string := "RECONNECTING".
Definition ZOMBIE : string := "ZOMBIE".

Definition CLIENT_STATES : list string :=
  [INITIALIZING; WAITING_QR; AUTHENTICATING; AUTHENTICATED; READY;
   DISCONNECTED; AUTH_FAILURE; ERROR; RECONNECTING; ZOMBIE].

(** The value stored in [this.states]. *)
Record StateEntry : Type := mkStateEntry {
  state : string;
  timestamp : Z;
  metadata : Metadata;
  previousState : option string
}.

(** The record pushed to the history and returned by [setState]. *)
Record StateChange : Type := mkStateChange {
  number : string;
  from : string;
  to : string;
  changedAt : Z;
  changeMetadata : Metadata
}.

Record t : Type := mk {
  states : gmap string StateEntry;
  stateHistory : gmap string (list StateChange)
}.

Definition empty : t := {| states := ∅; stateHistory := ∅ |}.

Definition getState (n : string) (s : t) : option StateEntry :=
  states s !! n.

(** [previousState?.state || 'UNKNOWN']: an absent entry and an empty
    state name both give ['UNKNOWN']. *)
Definition fromOf (prev : option StateEntry) : string :=
  match prev with
  | Some e => if String.eqb (state e) "" then "UNKNOWN" else state e
  | None => "UNKNOWN"
  end.

(** [history.push(c); if (history.length > 50) history.shift()] *)
Definition pushBounded (h : list StateChange) (c : StateChange)
  : list StateChange :=
  let h' := h ++ [c] in
  if (50 <? length h')%nat then tail h' else h'.

(** [setState(number, state, metadata)]; [t1] and [t2] are the two
    readings of [new Date()], in source order. *)
Definition setState (n st : string) (meta : Metadata) (t1 t2 : Z) (s : t)
  : StateChange * t :=
  let previous := states s !! n in
  let stateChange :=
    {| number := n; from := fromOf previous; to := st;
       changedAt := t1; changeMetadata := meta |} in
  let states' :=
    <[n := {| state := st; timestamp := t2; metadata := meta;
              previousState := state <$> previous |}]> (states s) in
  let history := default [] (stateHistory s !! n) in
  (stateChange,
   {| states := states';
      stateHistory := <[n := pushBounded history stateChange]> (stateHistory s) |}).

Definition getHistory (n : string) (s : t) : list StateChange :=
  default [] (stateHistory s !! n).

Definition isHealthy (n : string) (s : t) : bool :=
  match getState n s with
  | None => false
  | Some e => includes [AUTHENTICATED; READY] (state e)
  end.

Definition isRecoverable (n : string) (s : t) : bool :=
  match getState n s with
  | None => true
  | Some e => negb (includes [ZOMBIE; ERROR] (state e))
  end.

(** [getStateAge]: [null] is [None]. *)
Definition getStateAge (n : string) (now : Z) (s : t) : option Z :=
  match getState n s with
  | None => None
  | Some e => Some (now - timestamp e)
  end.

Definition clearState (n : string) (s : t) : t :=
  {| states := delete n (states s);
     stateHistory := delete n (stateHistory s) |}.

(** The mutating operations of the store, as a call log. *)
Inductive op : Type :=
| OpSetState (n st : string) (meta : Metadata) (t1 t2 : Z)
| OpClearState (n : string).

Definition step (o : op) (s : t) : t :=
  match o with
  | OpSetState n st meta t1 t2 => snd (setState n st meta t1 t2 s)
  | OpClearState n => clearState n s
  end.

Definition exec (ops : list op) (s : t) : t := foldl (fun s o => step o s) s ops.

(** The transition records produced for client [n] by a call log, in call
    order, since the client's history was last cleared; [acc] holds the
    ones produced before the log starts. *)
Fixpoint transitions (n : string) (ops : list op) (s : t)
    (acc : list StateChange) : list StateChange :=
  match ops with
  | [] => acc
  | o :: rest =>
      let acc' :=
        match o with
        | OpSetState m st meta t1 t2 =>
            if String.eqb m n
            then acc ++ [fst (setState m st meta t1 t2 s)] else acc
        | OpClearState m => if String.eqb m n then [] else acc
        end in
      transitions n rest (step o s) acc'
  end.

End ClientStateManager.

(** ** Application configuration (conf/config.js) *)

(** [x || d] on numbers: [0] and [NaN] are falsy.  A number that may be
    [NaN] (the result of [parseInt] on an environment variable) is an
    [option Z]. *)
Definition jsOr (x d : Z) : Z := if x =? 0 then d else x.

Definition jsOrNaN (x : option Z) (d : Z) : Z :=
  match x with
  | Some v => jsOr v d
  | None => d
  end.

Module Config.

(** [parseInt(process.env.X)] for the variables the supervision layer
    reads; [None] when the variable is unset or not a number. *)
Record Env : Type := mkEnv {
  RECONNECT_DELAY : option Z;
  MAX_RETRIES : option Z;
  MAX_STATE_AGE : option Z;
  MAX_QR_AGE : option Z;
  MAX_INIT_TIME : option Z;
  ZOMBIE_TIMEOUT : option Z
}.

(** No variable set. *)
Definition noEnv : Env :=
  {| RECONNECT_DELAY := None; MAX_RETRIES := None; MAX_STATE_AGE := None;
     MAX_QR_AGE := None; MAX_INIT_TIME := None; ZOMBIE_TIMEOUT := None |}.

Record t : Type := mk {
  reconnectDelay : Z;
  maxRetries : Z
}.

Definition config (e : Env) : t :=
  {| reconnectDelay := jsOrNaN (RECONNECT_DELAY e) 5000;
     maxRetries := jsOrNaN (MAX_RETRIES e) 3 |}.

End Config.

(** ** Numbers (IEEE 754 binary64 arithmetic) *)

(** The arithmetic of the language's Number type, for the operations the
    delay computation uses: every operation returns the exact result
    rounded to the nearest value with 53 significant bits, ties to even,
    with gradual underflow below [2^-1022] and overflow to an infinity
    from [2^1024].  Finite values are given exactly, as rationals; the two
    zeros are not told apart. *)
Module Binary64.

Inductive number : Type :=
| Finite (x : Q)
| Infinite (positive : bool)
| NaN.

Definition pow2 (e : Z) : Q := (2 ^ e)%Q.

(** [floor(log2 |x|)], for [x] other than 0. *)
Definition ilog2 (x : Q) : Z :=
  let k := Z.log2 (Z.abs (Qnum x)) - Z.log2 (Z.pos (Qden x)) in
  if Qle_bool (pow2 k) (Qabs x) then k else k - 1.

(** The exponent of the last place of the significand that holds [x]: 53
    bits from the leading one, and never below [-1074]. *)
Definition ulpExponent (x : Q) : Z := Z.max (ilog2 x - 52) (-1074).

(** The nearest integer, the even one of two that are equally near. *)
Definition roundHalfEven (q : Q) : Z :=
  let f := Qfloor q in
  match (q - inject_Z f ?= 1 # 2)%Q with
  | Lt => f
  | Gt => f + 1
  | Eq => if Z.even f then f else f + 1
  end.

(** The nearest value with a 53-bit significand, the exponent unbounded
    above. *)
Definition nearest (x : Q) : Q :=
  if Qeq_bool x 0 then 0%Q
  else
    let e := ulpExponent x in
    (inject_Z (roundHalfEven (x / pow2 e)) * pow2 e)%Q.

(** The Number an exact result is delivered as. *)
Definition round (x : Q) : number :=
  let y := Qred (nearest x) in
  if Qle_bool (pow2 1024) (Qabs y) then Infinite (Qle_bool 0 x) else Finite y.

(** The Number of an integer. *)
Definition ofZ (z : Z) : number := round (inject_Z z).

(** [a * b] *)
Definition mul (a b : number) : number :=
  match a, b with
  | NaN, _ | _, NaN => NaN
  | Finite x, Finite y => round (x * y)
  | Finite x, Infinite p | Infinite p, Finite x =>
      if Qeq_bool x 0 then NaN else Infinite (Bool.eqb p (Qle_bool 0 x))
  | Infinite p, Infinite q => Infinite (Bool.eqb p q)
  end.

(** [a + b] *)
Definition add (a b : number) : number :=
  match a, b with
  | NaN, _ | _, NaN => NaN
  | Finite x, Finite y => round (x + y)
  | Finite _, Infinite p | Infinite p, Finite _ => Infinite p
  | Infinite p, Infinite q => if Bool.eqb p q then Infinite p else NaN
  end.

(** [-a] *)
Definition opp (a : number) : number :=
  match a with
  | Finite x => Finite (- x)
  | Infinite p => Infinite (negb p)
  | NaN => NaN
  end.

(** [a - b] *)
Definition sub (a b : number) : number := add a (opp b).

(** [Math.min(a, b)] *)
Definition min (a b : number) : number :=
  match a, b with
  | NaN, _ | _, NaN => NaN
  | Finite x, Finite y => if Qle_bool x y then a else b
  | Infinite false, _ | _, Infinite false => Infinite false
  | Infinite true, _ => b
  | _, Infinite true => a
  end.

(** [Math.floor(a)] *)
Definition floor (a : number) : number :=
  match a with
  | Finite x => Finite (inject_Z (Qfloor x))
  | _ => a
  end.

(** [Math.pow(x, e)] for a finite base and an integer exponent, as the
    correctly rounded power.  The language leaves the accuracy of
    [Math.pow] to the implementation; the powers of 2 the manager asks for
    are values of the type and are returned exactly. *)
Definition pow (x : Q) (e : Z) : number :=
  if Qeq_bool x 0 then
    if e <? 0 then Infinite true else if e =? 0 then Finite 1 else Finite 0
  else round (x ^ e)%Q.

(** The integer a Number stands for where an integer is wanted; a Number
    that is not finite has none, and 0 is given for it. *)
Definition toZ (a : number) : Z :=
  match a with
  | Finite x => Qfloor x
  | _ => 0
  end.

(** [x] is a value of the type: rounding leaves it as it is. *)
Definition representable (x : Q) : Prop :=
  (nearest x == x)%Q ∧ (Qabs x < pow2 1024)%Q.

End Binary64.

(** ** Reconnection scheduler (utils/reconnectionManager.js) *)

Module ReconnectionManager.

(** [this.config] *)
Record Settings : Type := mkSettings {
  baseDelay : Z;
  maxDelay : Z;
  maxAttempts : Z;
  backoffMultiplier : Z;
  jitterFactor : Q
}.

(** The constructor's settings, from the application configuration. *)
Definition settings (c : Config.t) : Settings :=
  {| baseDelay := jsOr (Config.reconnectDelay c) 5000;
     maxDelay := 300000;
     maxAttempts := jsOr (Config.maxRetries c) 10;
     backoffMultiplier := 2;
     jitterFactor := 1 # 10 |}.

(** The settings the process runs with when no variable is set. *)
Definition defaultSettings : Settings := settings (Config.config Config.noEnv).

(** The manager's three maps, and the part of the event loop it drives:
    [armed] holds the timers created by [setTimeout] that have neither
    fired nor been cleared, by handle, with the client they were armed for
    and their delay. *)
Record t : Type := mk {
  reconnectAttempts : gmap string Z;
  reconnectTimers : gmap string nat;
  lastReconnectTime : gmap string Z;
  armed : gmap nat (string * Z);
  nextHandle : nat
}.

Definition empty : t :=
  {| reconnectAttempts := ∅; reconnectTimers := ∅; lastReconnectTime := ∅;
     armed := ∅; nextHandle := 0%nat |}.

Definition getAttempts (n : string) (s : t) : Z :=
  jsOrNaN (reconnectAttempts s !! n) 0.

Definition incrementAttempts (n : string) (s : t) : Z * t :=
  let current := getAttempts n s in
  (current + 1,
   {| reconnectAttempts := <[n := current + 1]> (reconnectAttempts s);
      reconnectTimers := reconnectTimers s;
      lastReconnectTime := lastReconnectTime s;
      armed := armed s;
      nextHandle := nextHandle s |}).

Definition clearTimer (n : string) (s : t) : t :=
  match reconnectTimers s !! n with
  | Some h =>
      {| reconnectAttempts := reconnectAttempts s;
         reconnectTimers := delete n (reconnectTimers s);
         lastReconnectTime := lastReconnectTime s;
         armed := delete h (armed s);
         nextHandle := nextHandle s |}
  | None => s
  end.

Definition resetAttempts (n : string) (s : t) : t :=
  let s1 :=
    {| reconnectAttempts := delete n (reconnectAttempts s);
       reconnectTimers := reconnectTimers s;
       lastReconnectTime := lastReconnectTime s;
       armed := armed s;
       nextHandle := nextHandle s |} in
  let s2 := clearTimer n s1 in
  {| reconnectAttempts := reconnectAttempts s2;
     reconnectTimers := reconnectTimers s2;
     lastReconnectTime := delete n (lastReconnectTime s2);
     armed := armed s2;
     nextHandle := nextHandle s2 |}.

(** The delay before jitter:
    [Math.min(baseDelay * Math.pow(backoffMultiplier, attempt), maxDelay)]. *)
Definition nominalDelay (cfg : Settings) (attempt : Z) : Binary64.number :=
  Binary64.min
    (Binary64.mul (Binary64.ofZ (baseDelay cfg))
       (Binary64.pow (inject_Z (backoffMultiplier cfg)) attempt))
    (Binary64.ofZ (maxDelay cfg)).

(** The jitter term [delay * jitterFactor * (Math.random() * 2 - 1)] for
    a draw [r] of [Math.random()], a Number in [0, 1); the products are
    taken from the left, as the language does. *)
Definition jitterOf (cfg : Settings) (delay : Binary64.number) (r : Q) :
    Binary64.number :=
  Binary64.mul
    (Binary64.mul delay (Binary64.round (jitterFactor cfg)))
    (Binary64.sub (Binary64.mul (Binary64.Finite r) (Binary64.Finite 2))
       (Binary64.Finite 1)).

(** [calculateDelay(attempt)], for the draw [r] of [Math.random()].  The
    Number returned is an integer whenever it is finite, which it is for
    every positive base delay; the integer is given, and 0 where the
    Number is not finite. *)
Definition calculateDelay (cfg : Settings) (attempt : Z) (r : Q) : Z :=
  let delay := nominalDelay cfg attempt in
  let jitter := jitterOf cfg delay r in
  Binary64.toZ (Binary64.floor (Binary64.add delay jitter)).

(** The delay the formula gives in exact arithmetic, with no rounding of
    the intermediate results and before the final [Math.floor]:
    [d + d * jitterFactor * (2 r - 1)] for
    [d = min(baseDelay * backoffMultiplier^attempt, maxDelay)]. *)
Definition exactDelay (cfg : Settings) (attempt : Z) (r : Q) : Q :=
  let d :=
    Qmin (inject_Z (baseDelay cfg) * inject_Z (backoffMultiplier cfg) ^ attempt)
         (inject_Z (maxDelay cfg)) in
  (d + d * jitterFactor cfg * (2 * r - 1))%Q.

(** [canReconnect(number)], at clock reading [now].  The guard
    [lastAttempt && ...] is falsy for an absent entry and for time 0. *)
Definition canReconnect (cfg : Settings) (n : string) (now : Z) (s : t) : bool :=
  if maxAttempts cfg <=? getAttempts n s then false
  else
    match lastReconnectTime s !! n with
    | Some lastAttempt =>
        if negb (lastAttempt =? 0) && (now - lastAttempt <? 2000)
        then false else true
    | None => true
    end.

(** [scheduleReconnection(number, callback)] at clock reading [now], with
    the draw [r] of [Math.random()]; [null] is [None].  The callback is
    opaque: it is run by [callbackSettles] below. *)
Definition scheduleReconnection (cfg : Settings) (n : string) (now : Z) (r : Q)
    (s : t) : option (Z * Z) * t :=
  if negb (canReconnect cfg n now s) then (None, s)
  else
    let '(attempt, s1) := incrementAttempts n s in
    let delay := calculateDelay cfg attempt r in
    let s2 := clearTimer n s1 in
    let h := nextHandle s2 in
    (Some (attempt, delay),
     {| reconnectAttempts := reconnectAttempts s2;
        reconnectTimers := <[n := h]> (reconnectTimers s2);
        lastReconnectTime := lastReconnectTime s2;
        armed := <[h := (n, delay)]> (armed s2);
        nextHandle := S h |}).

(** The timer with handle [h] fires at clock reading [now]: the first
    statement of the timer's function records the time of the attempt,
    then the callback starts.  Returns the client whose callback is now
    running, if the timer was still armed. *)
Definition timerFires (h : nat) (now : Z) (s : t) : option string * t :=
  match armed s !! h with
  | Some (n, _) =>
      (Some n,
       {| reconnectAttempts := reconnectAttempts s;
          reconnectTimers := reconnectTimers s;
          lastReconnectTime := <[n := now]> (lastReconnectTime s);
          armed := delete h (armed s);
          nextHandle := nextHandle s |})
  | None => (None, s)
  end.

(** How the awaited callback ends.  On rejection the handler reads the
    clock once in its own [canReconnect] and once more inside
    [scheduleReconnection], and draws one random number. *)
Inductive settled : Type :=
| Resolved
| Rejected (tcheck tschedule : Z) (r : Q).

Definition callbackSettles (cfg : Settings) (n : string) (o : settled) (s : t) : t :=
  match o with
  | Resolved => resetAttempts n s
  | Rejected tcheck tschedule r =>
      if canReconnect cfg n tcheck s
      then snd (scheduleReconnection cfg n tschedule r s)
      else s
  end.

Record Status : Type := mkStatus {
  attempts : Z;
  statusMaxAttempts : Z;
  hasScheduledReconnect : bool;
  statusLastReconnectTime : option Z;
  statusCanReconnect : bool
}.

Definition getStatus (cfg : Settings) (n : string) (now : Z) (s : t) : Status :=
  {| attempts := getAttempts n s;
     statusMaxAttempts := maxAttempts cfg;
     hasScheduledReconnect := bool_decide (is_Some (reconnectTimers s !! n));
     statusLastReconnectTime := lastReconnectTime s !! n;
     statusCanReconnect := canReconnect cfg n now s |}.

Definition cleanup (n : string) (s : t) : t :=
  let s1 := clearTimer n s in
  {| reconnectAttempts := delete n (reconnectAttempts s1);
     reconnectTimers := reconnectTimers s1;
     lastReconnectTime := delete n (lastReconnectTime s1);
     armed := armed s1;
     nextHandle := nextHandle s1 |}.

(** Everything that can happen to the manager, as a log of events. *)
Inductive op : Type :=
| OpSchedule (n : string) (now : Z) (r : Q)
| OpTimerFires (h : nat) (now : Z)
| OpCallbackSettles (n : string) (o : settled)
| OpClearTimer (n : string)
| OpResetAttempts (n : string)
| OpCleanup (n : string).

Definition step (cfg : Settings) (o : op) (s : t) : t :=
  match o with
  | OpSchedule n now r => snd (scheduleReconnection cfg n now r s)
  | OpTimerFires h now => snd (timerFires h now s)
  | OpCallbackSettles n o => callbackSettles cfg n o s
  | OpClearTimer n => clearTimer n s
  | OpResetAttempts n => resetAttempts n s
  | OpCleanup n => cleanup n s
  end.

Definition exec (cfg : Settings) (ops : list op) (s : t) : t :=
  foldl (fun s o => step cfg o s) s ops.

(** The events that clear client [n]'s attempt counter: [resetAttempts]
    (called directly, or by the timer's function when the callback
    resolves) and [cleanup]. *)
Definition resets (n : string) (o : op) : bool :=
  match o with
  | OpCallbackSettles m Resolved => String.eqb m n
  | OpResetAttempts m => String.eqb m n
  | OpCleanup m => String.eqb m n
  | _ => false
  end.

End ReconnectionManager.

(** ** Chat and group cache (utils/chatCache.js) *)

Module ChatCache.

(** A cached chat object.  An entry created by [updateChat] from a partial
    update has only the fields of that update, so every field but [id] may
    be [undefined] ([None]). *)
Record ChatData : Type := mkChat {
  id : string;
  name : option string;
  isGroup : option bool;
  unreadCount : option Z;
  timestamp : option Z;
  lastMessage : option string;
  profilePicUrl : option string
}.

Record Participant : Type := mkParticipant {
  participantId : string;
  isAdmin : bool;
  isSuperAdmin : bool;
  participantName : string
}.

(** A group entry: the chat fields and the group's own. *)
Record GroupData : Type := mkGroup {
  chat : ChatData;
  groupId : string;
  participants : list Participant;
  participantCount : Z;
  hasMetadata : bool  (* whether [metadata] is set rather than [null] *)
}.

(** A chat as listed by the session ([getChats()]). *)
Record RawChat : Type := mkRaw {
  rawId : string;
  rawUser : string;
  rawName : option string;
  rawIsGroup : bool;
  rawUnreadCount : Z;
  rawTimestamp : option Z
}.

(** The [updates] argument of [updateChat]: the fields present. *)
Record Updates : Type := mkUpdates {
  updName : option string;
  updIsGroup : option bool;
  updUnreadCount : option Z;
  updTimestamp : option Z;
  updLastMessage : option string;
  updProfilePicUrl : option string
}.

Record t : Type := mk {
  chatCache : gmap string (gmap string ChatData);
  unreadChats : gmap string (gset string);
  groupCache : gmap string (gmap string GroupData);
  initTimestamps : gmap string Z;
  isLoaded : gmap string bool;
  groupsLoaded : gmap string bool
}.

Definition empty : t :=
  {| chatCache := ∅; unreadChats := ∅; groupCache := ∅;
     initTimestamps := ∅; isLoaded := ∅; groupsLoaded := ∅ |}.

(** Truthiness of an optional flag. *)
Definition truthy (b : option bool) : bool := default false b.

(** One iteration of the loop of [initializeCache]. *)
Definition loadChat (acc : gmap string ChatData * gset string * gmap string GroupData)
    (c : RawChat) : gmap string ChatData * gset string * gmap string GroupData :=
  let '(chatMap, unreadSet, groupMap) := acc in
  let chatId := rawId c in
  if String.eqb chatId "status@broadcast" then acc
  else
    let chatData :=
      {| id := chatId; name := rawName c; isGroup := Some (rawIsGroup c);
         unreadCount := Some (rawUnreadCount c);
         timestamp := rawTimestamp c; lastMessage := None;
         profilePicUrl := None |} in
    (<[chatId := chatData]> chatMap,
     (if 0 <? rawUnreadCount c then {[chatId]} ∪ unreadSet else unreadSet),
     (if rawIsGroup c
      then <[chatId := {| chat := chatData; groupId := rawUser c;
                          participants := []; participantCount := 0;
                          hasMetadata := false |}]> groupMap
      else groupMap)).

Definition initializeCache (client : string) (chats : list RawChat) (now : Z)
    (s : t) : t :=
  if default false (isLoaded s !! client) then s
  else
    let '(chatMap, unreadSet, groupMap) := foldl loadChat (∅, ∅, ∅) chats in
    {| chatCache := <[client := chatMap]> (chatCache s);
       unreadChats := <[client := unreadSet]> (unreadChats s);
       groupCache := <[client := groupMap]> (groupCache s);
       initTimestamps := <[client := now]> (initTimestamps s);
       isLoaded := <[client := true]> (isLoaded s);
       groupsLoaded := <[client := true]> (groupsLoaded s) |}.

Definition withChats (s : t) (client : string) (m : gmap string ChatData) : t :=
  {| chatCache := <[client := m]> (chatCache s);
     unreadChats := unreadChats s; groupCache := groupCache s;
     initTimestamps := initTimestamps s; isLoaded := isLoaded s;
     groupsLoaded := groupsLoaded s |}.

Definition withUnread (s : t) (client : string) (u : gset string) : t :=
  {| chatCache := chatCache s;
     unreadChats := <[client := u]> (unreadChats s);
     groupCache := groupCache s;
     initTimestamps := initTimestamps s; isLoaded := isLoaded s;
     groupsLoaded := groupsLoaded s |}.

Definition withGroups (s : t) (client : string) (g : gmap string GroupData) : t :=
  {| chatCache := chatCache s; unreadChats := unreadChats s;
     groupCache := <[client := g]> (groupCache s);
     initTimestamps := initTimestamps s; isLoaded := isLoaded s;
     groupsLoaded := groupsLoaded s |}.

(** [{ ...existing, ...updates, id: chatId }] *)
Definition merge (chatId : string) (existing : option ChatData) (u : Updates)
    : ChatData :=
  let pick {A} (new : option A) (old : ChatData -> option A) : option A :=
    match new with
    | Some v => Some v
    | None => existing ≫= old
    end in
  {| id := chatId;
     name := pick (updName u) name;
     isGroup := pick (updIsGroup u) isGroup;
     unreadCount := pick (updUnreadCount u) unreadCount;
     timestamp := pick (updTimestamp u) timestamp;
     lastMessage := pick (updLastMessage u) lastMessage;
     profilePicUrl := pick (updProfilePicUrl u) profilePicUrl |}.

(** [Object.assign(groupData, updates)] *)
Definition assign (g : GroupData) (u : Updates) : GroupData :=
  {| chat := merge (id (chat g)) (Some (chat g)) u;
     groupId := groupId g; participants := participants g;
     participantCount := participantCount g; hasMetadata := hasMetadata g |}.

Definition updateChat (client chatId : string) (u : Updates) (s : t) : t :=
  match chatCache s !! client with
  | None => s
  | Some clientCache =>
      let updated := merge chatId (clientCache !! chatId) u in
      let s1 := withChats s client (<[chatId := updated]> clientCache) in
      if truthy (isGroup updated) then
        match groupCache s1 !! client with
        | Some groupMap =>
            match groupMap !! chatId with
            | Some groupData =>
                withGroups s1 client (<[chatId := assign groupData u]> groupMap)
            | None => s1
            end
        | None => s1
        end
      else s1
  end.

(** The mirrored write shared by [markAsUnread] and [markAsRead]: copy
    the chat's counter and timestamp to its group entry, if there is one. *)
Definition mirror (client chatId : string) (c : ChatData) (count : option Z)
    (s : t) : t :=
  if truthy (isGroup c) then
    match groupCache s !! client with
    | Some groupMap =>
        match groupMap !! chatId with
        | Some g =>
            let g' :=
              {| chat := {| id := id (chat g); name := name (chat g);
                            isGroup := isGroup (chat g);
                            unreadCount := count;
                            timestamp := timestamp c;
                            lastMessage := lastMessage (chat g);
                            profilePicUrl := profilePicUrl (chat g) |};
                 groupId := groupId g; participants := participants g;
                 participantCount := participantCount g;
                 hasMetadata := hasMetadata g |} in
            withGroups s client (<[chatId := g']> groupMap)
        | None => s
        end
    | None => s
    end
  else s.

(** [chat.unreadCount = v; chat.timestamp = now] *)
Definition touch (c : ChatData) (v now : Z) : ChatData :=
  {| id := id c; name := name c; isGroup := isGroup c;
     unreadCount := Some v; timestamp := Some now;
     lastMessage := lastMessage c; profilePicUrl := profilePicUrl c |}.

Definition markAsUnread (client chatId : string) (incrementBy now : Z) (s : t) : t :=
  match chatCache s !! client, unreadChats s !! client with
  | Some clientCache, Some unreadSet =>
      let s1 :=
        match clientCache !! chatId with
        | Some c =>
            let c' := touch c (jsOrNaN (unreadCount c) 0 + incrementBy) now in
            mirror client chatId c' (unreadCount c')
                   (withChats s client (<[chatId := c']> clientCache))
        | None => s
        end in
      withUnread s1 client ({[chatId]} ∪ unreadSet)
  | _, _ => s
  end.

Definition markAsRead (client chatId : string) (now : Z) (s : t) : t :=
  match chatCache s !! client, unreadChats s !! client with
  | Some clientCache, Some unreadSet =>
      let s1 :=
        match clientCache !! chatId with
        | Some c =>
            let c' := touch c 0 now in
            mirror client chatId c' (Some 0)
                   (withChats s client (<[chatId := c']> clientCache))
        | None => s
        end in
      withUnread s1 client (unreadSet ∖ {[chatId]})
  | _, _ => s
  end.

Definition clearCache (client : string) (s : t) : t :=
  {| chatCache := delete client (chatCache s);
     unreadChats := delete client (unreadChats s);
     groupCache := delete client (groupCache s);
     initTimestamps := delete client (initTimestamps s);
     isLoaded := delete client (isLoaded s);
     groupsLoaded := delete client (groupsLoaded s) |}.

(** A participant as the session lists it in a group's metadata. *)
Record RawParticipant : Type := mkRawParticipant {
  rawParticipantId : string;
  rawParticipantUser : string;
  rawIsAdmin : bool;
  rawIsSuperAdmin : bool
}.

(** The [metadata] argument of [updateGroupMetadata]: the subject and the
    participant list, when present. *)
Record GroupMetadata : Type := mkGroupMetadata {
  subject : option string;
  metaParticipants : option (list RawParticipant)
}.

Definition toParticipant (p : RawParticipant) : Participant :=
  {| participantId := rawParticipantId p;
     isAdmin := rawIsAdmin p;
     isSuperAdmin := rawIsSuperAdmin p;
     participantName :=
       if String.eqb (rawParticipantUser p) "" then "Usuario"
       else rawParticipantUser p |}.

Definition updateGroupMetadata (client groupId' : string) (md : GroupMetadata)
    (s : t) : t :=
  match groupCache s !! client with
  | None => s
  | Some groupMap =>
      match groupMap !! groupId' with
      | None => s
      | Some g =>
          let ps :=
            match metaParticipants md with
            | Some l => toParticipant <$> l
            | None => participants g
            end in
          let count :=
            match metaParticipants md with
            | Some l => Z.of_nat (length l)
            | None => participantCount g
            end in
          let name' :=
            match subject md with
            | Some sub => if String.eqb sub "" then name (chat g) else Some sub
            | None => name (chat g)
            end in
          let g' :=
            {| chat := {| id := id (chat g); name := name';
                          isGroup := isGroup (chat g);
                          unreadCount := unreadCount (chat g);
                          timestamp := timestamp (chat g);
                          lastMessage := lastMessage (chat g);
                          profilePicUrl := profilePicUrl (chat g) |};
               groupId := groupId g; participants := ps;
               participantCount := count; hasMetadata := true |} in
          withGroups s client (<[groupId' := g']> groupMap)
      end
  end.

Definition updateGroupProfilePic (client groupId' : string) (url : option string)
    (s : t) : t :=
  match groupCache s !! client with
  | None => s
  | Some groupMap =>
      match groupMap !! groupId' with
      | None => s
      | Some g =>
          let g' :=
            {| chat := {| id := id (chat g); name := name (chat g);
                          isGroup := isGroup (chat g);
                          unreadCount := unreadCount (chat g);
                          timestamp := timestamp (chat g);
                          lastMessage := lastMessage (chat g);
                          profilePicUrl := url |};
               groupId := groupId g; participants := participants g;
               participantCount := participantCount g;
               hasMetadata := hasMetadata g |} in
          withGroups s client (<[groupId' := g']> groupMap)
      end
  end.

(** [addGroup(clientNumber, groupData)]: [gid] and [user] are the group's
    serialized id and user part, [t1] and [t2] the two clock readings. *)
Definition addGroup (client gid user : string) (gname : option string)
    (t1 t2 : Z) (s : t) : t :=
  match groupCache s !! client, chatCache s !! client with
  | Some groupMap, Some chatMap =>
      let entry (now : Z) :=
        {| id := gid; name := gname; isGroup := Some true;
           unreadCount := Some 0; timestamp := Some now;
           lastMessage := None; profilePicUrl := None |} in
      let newGroup :=
        {| chat := entry t1; groupId := user; participants := [];
           participantCount := 0; hasMetadata := false |} in
      withChats (withGroups s client (<[gid := newGroup]> groupMap))
                client (<[gid := entry t2]> chatMap)
  | _, _ => s
  end.

Definition removeGroup (client gid : string) (s : t) : t :=
  let s1 :=
    match groupCache s !! client with
    | Some groupMap => withGroups s client (delete gid groupMap)
    | None => s
    end in
  match chatCache s1 !! client with
  | Some chatMap => withChats s1 client (delete gid chatMap)
  | None => s1
  end.

(** What the claims read back. *)
Definition lookupChat (client chatId : string) (s : t) : option ChatData :=
  chatCache s !! client ≫= fun m => m !! chatId.

Definition lookupGroup (client chatId : string) (s : t) : option GroupData :=
  groupCache s !! client ≫= fun m => m !! chatId.

(** Membership of [chatId] in the client's unread index. *)
Definition inUnreadIndex (client chatId : string) (s : t) : Prop :=
  ∃ u : gset string, unreadChats s !! client = Some u ∧ chatId ∈ u.

(** The chat map and the unread index of a client are created and deleted
    together. *)
Definition indexed (client : string) (s : t) : Prop :=
  is_Some (chatCache s !! client) ↔ is_Some (unreadChats s !! client).

(** Both maps of a client after an operation exist exactly when they did
    before, or both exist. *)
Definition sameKeys (client : string) (s s' : t) : Prop :=
  (is_Some (chatCache s' !! client) ↔ is_Some (chatCache s !! client))
  ∧ (is_Some (unreadChats s' !! client) ↔ is_Some (unreadChats s !! client)).

Inductive op : Type :=
| OpInitializeCache (client : string) (chats : list RawChat) (now : Z)
| OpUpdateChat (client chatId : string) (u : Updates)
| OpMarkAsUnread (client chatId : string) (incrementBy now : Z)
| OpMarkAsRead (client chatId : string) (now : Z)
| OpClearCache (client : string)
| OpUpdateGroupMetadata (client groupId' : string) (md : GroupMetadata)
| OpUpdateGroupProfilePic (client groupId' : string) (url : option string)
| OpAddGroup (client gid user : string) (gname : option string) (t1 t2 : Z)
| OpRemoveGroup (client gid : string).

Definition step (o : op) (s : t) : t :=
  match o with
  | OpInitializeCache c chats now => initializeCache c chats now s
  | OpUpdateChat c k u => updateChat c k u s
  | OpMarkAsUnread c k inc now => markAsUnread c k inc now s
  | OpMarkAsRead c k now => markAsRead c k now s
  | OpClearCache c => clearCache c s
  | OpUpdateGroupMetadata c g md => updateGroupMetadata c g md s
  | OpUpdateGroupProfilePic c g url => updateGroupProfilePic c g url s
  | OpAddGroup c gid user gname t1 t2 => addGroup c gid user gname t1 t2 s
  | OpRemoveGroup c gid => removeGroup c gid s
  end.

Definition exec (ops : list op) (s : t) : t := foldl (fun s o => step o s) s ops.

End ChatCache.

(** ** Media queue (MediaQueue) *)

Module MediaQueue.

(** What the queue uses of a message object. *)
Record Message : Type := mkMessage {
  msgType : string;
  msgSerializedId : string
}.

Record Job : Type := mkJob {
  messageId : string;
  message : Message;
  clientId : string;
  priority : Z;
  attempts : Z;
  enqueuedAt : Z;
  type : string
}.

(** The result of [downloadAndProcessMedia]. *)
Record MediaData : Type := mkMediaData {
  mediaType : string;
  mediaMimeType : string;
  downloadedAt : Z;
  mediaBase64 : option string;
  mediaTempUrl : option string;
  fileName : option string
}.

(** A value of the [completed] map: a result stamped by its worker, or an
    error record. *)
Inductive Completed : Type :=
| Done (data : MediaData) (processedAt : Z) (workerId : nat)
| Failed (errorMessage : string) (processedAt : Z).

Definition processedAtOf (c : Completed) : Z :=
  match c with
  | Done _ t _ => t
  | Failed _ t => t
  end.

(** [queue] is a [Map] from message id to job whose key is always the
    job's own [messageId]; it is kept as the list of its values in
    insertion order, which is the order [Array.from(queue.values())]
    yields. *)
Record t : Type := mk {
  queue : list Job;
  processing : gset string;
  completed : gmap string Completed
}.

Definition empty : t := {| queue := []; processing := ∅; completed := ∅ |}.

Definition retryAttempts : Z := 2.
Definition maxWorkers : nat := 3.
Definition jobTimeout : Z := 30000.

(** [Map] operations on the queue. *)
Definition queueHas (mid : string) (q : list Job) : bool :=
  existsb (fun j => String.eqb (messageId j) mid) q.

Definition queueGet (mid : string) (q : list Job) : option Job :=
  find (fun j => String.eqb (messageId j) mid) q.

Definition queueDelete (mid : string) (q : list Job) : list Job :=
  filter (fun j => messageId j ≠ mid) q.

(** [queue.set(job.messageId, job)]: an existing key keeps its place. *)
Fixpoint queueSet (job : Job) (q : list Job) : list Job :=
  match q with
  | [] => [job]
  | j :: rest =>
      if String.eqb (messageId j) (messageId job) then job :: rest
      else j :: queueSet job rest
  end.

(** The comparator of both sorts. *)
Definition compareJobs (a b : Job) : Z :=
  if negb (priority a =? priority b) then priority a - priority b
  else enqueuedAt a - enqueuedAt b.

(** [Array.prototype.sort] with [compareJobs]: a stable sort, here by
    insertion from the right. *)
Fixpoint insertJob (x : Job) (l : list Job) : list Job :=
  match l with
  | [] => [x]
  | y :: rest =>
      if compareJobs x y <=? 0 then x :: y :: rest
      else y :: insertJob x rest
  end.

Definition sortJobs (l : list Job) : list Job := foldr insertJob [] l.

Inductive EnqueueResult : Type :=
| RCompleted (data : Completed)
| RProcessing
| REnqueued.

(** [enqueue(messageId, message, clientId, priority)] at clock reading
    [now]. *)
Definition enqueue (mid : string) (msg : Message) (cid : string) (prio now : Z)
    (s : t) : EnqueueResult * t :=
  match completed s !! mid with
  | Some data => (RCompleted data, s)
  | None =>
      if queueHas mid (queue s) || bool_decide (mid ∈ processing s)
      then (RProcessing, s)
      else
        let job :=
          {| messageId := mid; message := msg; clientId := cid;
             priority := prio; attempts := 0; enqueuedAt := now;
             type := msgType msg |} in
        (REnqueued,
         {| queue := queueSet job (queue s);
            processing := processing s;
            completed := completed s |})
  end.

(** [jobs.findIndex(j => j.messageId === messageId)]; [-1] when absent. *)
Fixpoint findIndex (mid : string) (l : list Job) : Z :=
  match l with
  | [] => -1
  | j :: rest =>
      if String.eqb (messageId j) mid then 0
      else let i := findIndex mid rest in
           if i <? 0 then -1 else i + 1
  end.

Definition getQueuePosition (mid : string) (s : t) : Z :=
  findIndex mid (sortJobs (queue s)) + 1.

Inductive Status : Type :=
| SCompleted (data : Completed)
| SProcessing
| SQueued (position enqueuedAt : Z)
| SNotFound.

Definition getStatus (mid : string) (s : t) : Status :=
  match completed s !! mid with
  | Some data => SCompleted data
  | None =>
      if bool_decide (mid ∈ processing s) then SProcessing
      else
        match queueGet mid (queue s) with
        | Some job => SQueued (getQueuePosition mid s) (enqueuedAt job)
        | None => SNotFound
        end
  end.

(** [getNextJob()]; [null] is [None]. *)
Definition getNextJob (s : t) : option Job * t :=
  match sortJobs (queue s) with
  | [] => (None, s)
  | job :: _ =>
      (Some job,
       {| queue := queueDelete (messageId job) (queue s);
          processing := {[messageId job]} ∪ processing s;
          completed := completed s |})
  end.

(** How the race between the download and the job timeout ends. *)
Inductive outcome : Type :=
| Downloaded (data : MediaData)
| NoMedia
| Threw (errorMessage : string).

(** [processJob(job, workerId)], from the settling of the race on; [now]
    is the clock reading of [processedAt]. *)
Definition processJob (job : Job) (workerId : nat) (o : outcome) (now : Z)
    (s : t) : t :=
  let mid := messageId job in
  let s1 :=
    match o with
    | Downloaded data =>
        {| queue := queue s; processing := processing s;
           completed := <[mid := Done data now workerId]> (completed s) |}
    | NoMedia => s
    | Threw msg =>
        let job' :=
          {| messageId := messageId job; message := message job;
             clientId := clientId job; priority := priority job;
             attempts := attempts job + 1; enqueuedAt := enqueuedAt job;
             type := type job |} in
        if attempts job' <? retryAttempts
        then {| queue := queueSet job' (queue s); processing := processing s;
                completed := completed s |}
        else {| queue := queue s; processing := processing s;
                completed := <[mid := Failed msg now]> (completed s) |}
    end in
  {| queue := queue s1; processing := processing s1 ∖ {[mid]};
     completed := completed s1 |}.

(** [cleanup()] at clock reading [now]. *)
Definition cleanup (now : Z) (s : t) : t :=
  let oneHourAgo := now - 60 * 60 * 1000 in
  {| queue := queue s; processing := processing s;
     completed := filter (fun kv => ¬ (processedAtOf kv.2 < oneHourAgo)) (completed s) |}.

(** The lexicographic order (priority, then time of enqueueing). *)
Definition servedBefore (a b : Job) : Prop :=
  priority a < priority b ∨
  (priority a = priority b ∧ enqueuedAt a ≤ enqueuedAt b).

(** A message id is known to the queue when it is in one of the three
    collections. *)
Definition isCompleted (mid : string) (s : t) : Prop := is_Some (completed s !! mid).
Definition isProcessing (mid : string) (s : t) : Prop := mid ∈ processing s.
Definition isQueued (mid : string) (s : t) : Prop :=
  ∃ j, j ∈ queue s ∧ messageId j = mid.

End MediaQueue.

(** ** Watchdog (utils/watchdogMonitor.js) *)

Module Watchdog.

Import ClientStateManager.

(** [this.thresholds] *)
Record Thresholds : Type := mkThresholds {
  maxStateAge : Z;
  maxQrAge : Z;
  maxInitializationTime : Z;
  zombieTimeout : Z
}.

Definition thresholds (e : Config.Env) : Thresholds :=
  {| maxStateAge := jsOrNaN (Config.MAX_STATE_AGE e) 900000;
     maxQrAge := jsOrNaN (Config.MAX_QR_AGE e) 180000;
     maxInitializationTime := jsOrNaN (Config.MAX_INIT_TIME e) 300000;
     zombieTimeout := jsOrNaN (Config.ZOMBIE_TIMEOUT e) 600000 |}.

Definition defaultThresholds : Thresholds := thresholds Config.noEnv.

(** What the watchdog probes of a session object: whether it has a
    browser and what [isConnected()] answers, whether it has a page, and
    [info.pushname] when [info] is there (an absent or empty pushname is
    the empty string). *)
Record Client : Type := mkClient {
  pupBrowser : option bool;
  pupPage : bool;
  info : option string
}.

(** Calls into the session library, in the order they are made. *)
Inductive effect : Type :=
| EEvaluate (n : string)
| EInitialize (n : string)
| EReload (n : string)
| ECleanupClient (n : string).

(** The four verdicts of one health check. *)
Record Checks : Type := mkChecks {
  processAlive : bool;
  browserResponsive : bool;
  stateValid : bool;
  websocketActive : bool
}.

(** An entry of the watchdog's [healthChecks] map: the time of the check,
    its verdicts, their conjunction and the name of the state read at the
    start of the check ([undefined] is [None]). *)
Record HealthRecord : Type := mkHealthRecord {
  hcTimestamp : Z;
  hcChecks : Checks;
  hcIsHealthy : bool;
  hcState : option string
}.

(** The orchestrator's maps the watchdog reads and writes, the two
    managers it calls, the watchdog's own [healthChecks] map, and the log
    of session calls. *)
Record World : Type := mkWorld {
  clients : gmap string Client;
  clientReadyState : gmap string bool;
  stateManager : ClientStateManager.t;
  reconnectionManager : ReconnectionManager.t;
  healthChecks : gmap string HealthRecord;
  calls : list effect
}.

Definition withStateManager (w : World) (sm : ClientStateManager.t) : World :=
  {| clients := clients w; clientReadyState := clientReadyState w;
     stateManager := sm; reconnectionManager := reconnectionManager w;
     healthChecks := healthChecks w;
     calls := calls w |}.

Definition called (e : effect) (w : World) : World :=
  {| clients := clients w; clientReadyState := clientReadyState w;
     stateManager := stateManager w;
     reconnectionManager := reconnectionManager w;
     healthChecks := healthChecks w;
     calls := calls w ++ [e] |}.

(** [this.healthChecks.set(number, record)] *)
Definition withHealthCheck (w : World) (n : string) (h : HealthRecord) : World :=
  {| clients := clients w; clientReadyState := clientReadyState w;
     stateManager := stateManager w;
     reconnectionManager := reconnectionManager w;
     healthChecks := <[n := h]> (healthChecks w);
     calls := calls w |}.

(** [stateManager.setState] from the watchdog; the two clock readings of
    one call are taken as the same instant. *)
Definition setStateAt (n st : string) (meta : Metadata) (now : Z) (w : World) : World :=
  withStateManager w (snd (setState n st meta now now (stateManager w))).

Definition hasInfo (c : Client) : bool := bool_decide (is_Some (info c)).

(** [whatsappClient.isAuthenticated(number)] *)
Definition isAuthenticated (n : string) (w : World) : bool :=
  match clients w !! n with
  | Some c =>
      match info c with
      | Some pushname => negb (String.eqb pushname "")
      | None => false
      end
  | None => false
  end.

(** [whatsappClient.isReady(number)] *)
Definition isReady (n : string) (w : World) : bool :=
  let stateReady := default false (clientReadyState w !! n) in
  match clients w !! n with
  | None => false
  | Some c =>
      stateReady && pupPage c && default false (pupBrowser c) && hasInfo c
  end.

Definition flagsOf (c : Checks) : MetaValue :=
  MFlags [("processAlive", processAlive c);
          ("browserResponsive", browserResponsive c);
          ("stateValid", stateValid c);
          ("websocketActive", websocketActive c)]%string.

Definition checkProcessAlive (c : Client) (n : string) (now : Z) (w : World)
    : bool * World :=
  match pupBrowser c with
  | None => (false, w)
  | Some isConnected =>
      if negb isConnected then
        if hasInfo c && isAuthenticated n w then (true, w)
        else (false,
              setStateAt n ZOMBIE
                [("reason", MStr "Browser disconnected")]%string now w)
      else (true, w)
  end.

(** How the race between [pupPage.evaluate(() => true)] and the 5 s timer
    ends: with a value (the timer's is [false]), or by throwing. *)
Inductive probe : Type :=
| ProbeValue (v : bool)
| ProbeThrows.

Definition checkBrowserResponsive (c : Client) (n : string) (p : probe)
    (now : Z) (w : World) : bool * World :=
  if negb (pupPage c) then (false, w)
  else
    let w1 := called (EEvaluate n) w in
    match p with
    | ProbeThrows => (false, w1)
    | ProbeValue isResponsive =>
        if negb isResponsive
        then (false,
              setStateAt n ZOMBIE
                [("reason", MStr "Browser unresponsive")]%string now w1)
        else (true, w1)
    end.

(** [stateAge > threshold], where [stateAge] may be [null] (which compares
    as 0). *)
Definition olderThan (stateAge : option Z) (threshold : Z) : bool :=
  threshold <? default 0 stateAge.

(** [checkStateValid(number, state)]: [st] is the entry the caller read
    before the other checks ran, the age is read from the store now. *)
Definition checkStateValid (th : Thresholds) (n : string)
    (st : option StateEntry) (now : Z) (sm : ClientStateManager.t) : bool :=
  match st with
  | None => false
  | Some e =>
      let stateAge := getStateAge n now sm in
      if String.eqb (state e) WAITING_QR && olderThan stateAge (maxQrAge th)
      then false
      else if String.eqb (state e) INITIALIZING
              && olderThan stateAge (maxInitializationTime th)
      then false
      else if includes [AUTHENTICATING; RECONNECTING; DISCONNECTED] (state e)
              && olderThan stateAge (maxStateAge th)
      then false
      else true
  end.

Definition checkWebSocketActive (c : Client) (n : string) (w : World) : bool :=
  match getState n (stateManager w) with
  | Some e =>
      if includes [INITIALIZING; AUTHENTICATING; WAITING_QR] (state e)
      then true
      else hasInfo c || isReady n w
  | None => hasInfo c || isReady n w
  end.

(** [fullRestart(number)]: [now] and [r] are the clock reading and the
    random draw of [scheduleReconnection].  [cleanupClient] catches its
    own errors, so nothing in the body throws. *)
Definition fullRestart (cfg : ReconnectionManager.Settings) (n : string)
    (now : Z) (r : Q) (w : World) : bool * World :=
  let w1 :=
    match clients w !! n with
    | Some _ => called (ECleanupClient n) w
    | None => w
    end in
  (true,
   {| clients := delete n (clients w1);
      clientReadyState := clientReadyState w1;
      stateManager := stateManager w1;
      reconnectionManager :=
        snd (ReconnectionManager.scheduleReconnection cfg n now r
               (reconnectionManager w1));
      healthChecks := healthChecks w1;
      calls := calls w1 |}).

(** [refreshClient(number)]; [throws] tells whether [client.initialize()]
    rejects. *)
Definition refreshClient (cfg : ReconnectionManager.Settings) (n : string)
    (throws : bool) (now : Z) (r : Q) (w : World) : bool * World :=
  match clients w !! n with
  | None => (false, w)
  | Some _ =>
      let w1 := called (EInitialize n) w in
      if throws then fullRestart cfg n now r w1
      else (true,
            setStateAt n INITIALIZING
              [("reason", MStr "Watchdog refresh")]%string now w1)
  end.

(** [reconnectWebSocket(number)]; [throws] tells whether
    [pupPage.reload] rejects. *)
Definition reconnectWebSocket (cfg : ReconnectionManager.Settings) (n : string)
    (throws : bool) (now : Z) (r : Q) (w : World) : bool * World :=
  match clients w !! n with
  | None => (false, w)
  | Some c =>
      if negb (pupPage c) then (false, w)
      else
        let w1 := called (EReload n) w in
        if throws then fullRestart cfg n now r w1
        else (true,
              setStateAt n RECONNECTING
                [("reason", MStr "WebSocket reconnection")]%string now w1)
  end.

(** [attemptRecovery(number, failedChecks)]; [throws] is the outcome of
    the one session call the chosen action awaits, [tstate] the clock
    reading of the first branch's [setState], [now] and [r] those of the
    action.  [undefined] is [None]. *)
Definition attemptRecovery (cfg : ReconnectionManager.Settings) (n : string)
    (failedChecks : Checks) (throws : bool) (tstate now : Z) (r : Q)
    (w : World) : option bool * World :=
  if negb (processAlive failedChecks) || negb (browserResponsive failedChecks)
  then
    let w1 :=
      setStateAt n RECONNECTING
        [("reason", MStr "Process/Browser failure");
         ("failedChecks", flagsOf failedChecks)]%string tstate w in
    let '(b, w2) := fullRestart cfg n now r w1 in (Some b, w2)
  else if negb (stateValid failedChecks) then
    let '(b, w2) := refreshClient cfg n throws now r w in (Some b, w2)
  else if negb (websocketActive failedChecks) then
    let '(b, w2) := reconnectWebSocket cfg n throws now r w in (Some b, w2)
  else (None, w).

(** The clock readings, random draw and session outcomes one run of
    [checkClientHealth] consumes. *)
Record Run : Type := mkRun {
  tProcess : Z;
  probeOutcome : probe;
  tProbe : Z;
  tAge : Z;
  tHealth : Z;
  recoveryThrows : bool;
  tState : Z;
  tRecover : Z;
  draw : Q
}.

(** [checkClientHealth(number)]; [None] when the client is not found. *)
Definition checkClientHealth (cfg : ReconnectionManager.Settings)
    (th : Thresholds) (n : string) (run : Run) (w : World)
    : option Checks * World :=
  let st := getState n (stateManager w) in
  match clients w !! n with
  | None => (None, withStateManager w (clearState n (stateManager w)))
  | Some client =>
      let '(alive, w1) := checkProcessAlive client n (tProcess run) w in
      let '(responsive, w2) :=
        checkBrowserResponsive client n (probeOutcome run) (tProbe run) w1 in
      let checks :=
        {| processAlive := alive;
           browserResponsive := responsive;
           stateValid := checkStateValid th n st (tAge run) (stateManager w2);
           websocketActive := checkWebSocketActive client n w2 |} in
      let isHealthy :=
        processAlive checks && browserResponsive checks
        && stateValid checks && websocketActive checks in
      let w3 :=
        withHealthCheck w2 n
          {| hcTimestamp := tHealth run; hcChecks := checks;
             hcIsHealthy := isHealthy; hcState := state <$> st |} in
      if negb isHealthy
      then (Some checks,
            snd (attemptRecovery cfg n checks (recoveryThrows run)
                   (tState run) (tRecover run) (draw run) w3))
      else (Some checks, w3)
  end.

(** The condition the state-valid check looks for: the entry read by the
    caller names a state that must be short-lived and the age in the store
    is beyond that state's threshold. *)
Definition stuck (th : Thresholds) (n : string) (e : StateEntry) (now : Z)
    (sm : ClientStateManager.t) : Prop :=
  let age := default 0 (getStateAge n now sm) in
  (state e = WAITING_QR ∧ maxQrAge th < age)
  ∨ (state e = INITIALIZING ∧ maxInitializationTime th < age)
  ∨ ((state e = AUTHENTICATING ∨ state e = RECONNECTING
      ∨ state e = DISCONNECTED) ∧ maxStateAge th < age).

End Watchdog.

(** ** Concrete scenarios *)

(** The states and inputs the examples below run the operations on. *)
Module Scenarios.

Definition client : string := "593999".

(** Two calls to [scheduleReconnection], 500 ms apart, on a fresh
    manager. *)
Definition firstCall : option (Z * Z) * ReconnectionManager.t :=
  ReconnectionManager.scheduleReconnection
    ReconnectionManager.defaultSettings client 1000 (1 # 2)
    ReconnectionManager.empty.

Definition secondCall : option (Z * Z) * ReconnectionManager.t :=
  ReconnectionManager.scheduleReconnection
    ReconnectionManager.defaultSettings client 1500 (1 # 2) (snd firstCall).

(** Three scheduled attempts under the default settings. *)
Definition exhausted : ReconnectionManager.t :=
  ReconnectionManager.exec ReconnectionManager.defaultSettings
    [ReconnectionManager.OpSchedule client 1000 (1 # 2);
     ReconnectionManager.OpSchedule client 1500 (1 # 2);
     ReconnectionManager.OpSchedule client 2000 (1 # 2)]
    ReconnectionManager.empty.

(** Events that leave the counter of [client] alone: one of its timers
    fires and its callback fails, another client is scheduled and
    reset. *)
Definition quietEvents : list ReconnectionManager.op :=
  [ReconnectionManager.OpTimerFires 2 30000;
   ReconnectionManager.OpCallbackSettles client
     (ReconnectionManager.Rejected 40000 40000 (1 # 4));
   ReconnectionManager.OpSchedule "593111" 41000 (3 # 4);
   ReconnectionManager.OpResetAttempts "593111"].

(** A client that has waited 200 s for its QR code to be scanned, with a
    live and responsive browser. *)
Definition waitingClient : Watchdog.World :=
  {| Watchdog.clients :=
       {[ client := {| Watchdog.pupBrowser := Some true;
                       Watchdog.pupPage := true;
                       Watchdog.info := None |} ]};
     Watchdog.clientReadyState := {[ client := false ]};
     Watchdog.stateManager :=
       snd (ClientStateManager.setState client ClientStateManager.WAITING_QR
              [] 1000 1000 ClientStateManager.empty);
     Watchdog.reconnectionManager := ReconnectionManager.empty;
     Watchdog.healthChecks := ∅;
     Watchdog.calls := [] |}.

Definition qrRun (throws : bool) : Watchdog.Run :=
  {| Watchdog.tProcess := 201000;
     Watchdog.probeOutcome := Watchdog.ProbeValue true;
     Watchdog.tProbe := 201000;
     Watchdog.tAge := 201000;
     Watchdog.tHealth := 201000;
     Watchdog.recoveryThrows := throws;
     Watchdog.tState := 201000;
     Watchdog.tRecover := 201000;
     Watchdog.draw := 1 # 2 |}.

Definition onlyStateInvalid : Watchdog.Checks :=
  {| Watchdog.processAlive := true; Watchdog.browserResponsive := true;
     Watchdog.stateValid := false; Watchdog.websocketActive := true |}.

(** A cache loaded with two individual chats without unread messages and
    one group with five. *)
Definition threeChats : list ChatCache.RawChat :=
  [ {| ChatCache.rawId := "593111@c.us"; ChatCache.rawUser := "593111";
       ChatCache.rawName := Some "Ana"; ChatCache.rawIsGroup := false;
       ChatCache.rawUnreadCount := 0; ChatCache.rawTimestamp := Some 100 |};
    {| ChatCache.rawId := "593222@c.us"; ChatCache.rawUser := "593222";
       ChatCache.rawName := Some "Luis"; ChatCache.rawIsGroup := false;
       ChatCache.rawUnreadCount := 0; ChatCache.rawTimestamp := Some 200 |};
    {| ChatCache.rawId := "120363@g.us"; ChatCache.rawUser := "120363";
       ChatCache.rawName := Some "Equipo"; ChatCache.rawIsGroup := true;
       ChatCache.rawUnreadCount := 5; ChatCache.rawTimestamp := Some 300 |} ].

Definition loadedCache : ChatCache.t :=
  ChatCache.initializeCache client threeChats 5000 ChatCache.empty.

(** A media queue with three jobs: two of normal priority and, enqueued
    last, one of high priority. *)
Definition imageMessage (mid : string) : MediaQueue.Message :=
  {| MediaQueue.msgType := "image"; MediaQueue.msgSerializedId := mid |}.

Definition threeJobs : MediaQueue.t :=
  snd (MediaQueue.enqueue "m3" (imageMessage "m3") client 0 30
    (snd (MediaQueue.enqueue "m2" (imageMessage "m2") client 1 20
      (snd (MediaQueue.enqueue "m1" (imageMessage "m1") client 1 10
        MediaQueue.empty))))).

End Scenarios.

(** ** Invariants of the stores *)

(** The conditions the theorems below show of every state the stores
    reach. *)
Module Invariants.

(** The name a transition record gives to the state it leaves:
    [previousState?.state || 'UNKNOWN']. *)
Definition fromName (st : string) : string :=
  if String.eqb st "" then "UNKNOWN" else st.

(** Each record of a history leaves the state the record before it
    entered. *)
Fixpoint chained (h : list ClientStateManager.StateChange) : Prop :=
  match h with
  | c1 :: ((c2 :: _) as rest) =>
      ClientStateManager.from c2 = fromName (ClientStateManager.to c1)
      ∧ chained rest
  | _ => True
  end.

(** What holds of one client in a consistent store. *)
Definition consistentFor (n : string) (s : ClientStateManager.t) : Prop :=
  chained (ClientStateManager.getHistory n s)
  ∧ Forall (fun c => ClientStateManager.number c = n)
           (ClientStateManager.getHistory n s)
  ∧ match ClientStateManager.getState n s with
    | Some e =>
        ClientStateManager.to <$> last (ClientStateManager.getHistory n s)
        = Some (ClientStateManager.state e)
    | None => ClientStateManager.getHistory n s = []
    end.

(** The client an operation of the state store is about. *)
Definition opClient (o : ClientStateManager.op) : string :=
  match o with
  | ClientStateManager.OpSetState n _ _ _ _ => n
  | ClientStateManager.OpClearState n => n
  end.

(** Every armed timer is the one registered for its client, and handles
    are handed out in increasing order. *)
Definition timersConsistent (s : ReconnectionManager.t) : Prop :=
  (∀ h n d, ReconnectionManager.armed s !! h = Some (n, d) →
            ReconnectionManager.reconnectTimers s !! n = Some h)
  ∧ (∀ h, is_Some (ReconnectionManager.armed s !! h) →
          (h < ReconnectionManager.nextHandle s)%nat)
  ∧ (∀ n h, ReconnectionManager.reconnectTimers s !! n = Some h →
            (h < ReconnectionManager.nextHandle s)%nat).

(** No timer is armed for client [n]. *)
Definition noTimerFor (n : string) (s : ReconnectionManager.t) : Prop :=
  ∀ h d, ReconnectionManager.armed s !! h ≠ Some (n, d).

(** Every group entry of a client belongs to a chat the client's chat map
    holds. *)
Definition groupsAreChats (client : string) (s : ChatCache.t) : Prop :=
  ∀ k, is_Some (ChatCache.lookupGroup client k s) →
       is_Some (ChatCache.lookupChat client k s).

(** [s'] has no group entry of [x] that [s] lacks and every chat entry of
    [x] that [s] has. *)
Definition keeps (x : string) (s s' : ChatCache.t) : Prop :=
  ∀ k, (is_Some (ChatCache.lookupGroup x k s') → is_Some (ChatCache.lookupGroup x k s))
       ∧ (is_Some (ChatCache.lookupChat x k s) → is_Some (ChatCache.lookupChat x k s')).

(** The loaded flag of a client is set exactly when its chat map exists. *)
Definition loadedExactly (client : string) (s : ChatCache.t) : Prop :=
  default false (ChatCache.isLoaded s !! client) = true
  ↔ is_Some (ChatCache.chatCache s !! client).

End Invariants.

(** ** Vocabulary for the media queue *)

Module MediaQueueFacts.

(** Jobs that compare equal: same priority, same time of enqueueing. *)
Definition tied (a b : MediaQueue.Job) : Prop :=
  MediaQueue.priority a = MediaQueue.priority b
  ∧ MediaQueue.enqueuedAt a = MediaQueue.enqueuedAt b.

(** The job a failed attempt puts back: the same job, one attempt later. *)
Definition retried (job : MediaQueue.Job) : MediaQueue.Job :=
  {| MediaQueue.messageId := MediaQueue.messageId job;
     MediaQueue.message := MediaQueue.message job;
     MediaQueue.clientId := MediaQueue.clientId job;
     MediaQueue.priority := MediaQueue.priority job;
     MediaQueue.attempts := MediaQueue.attempts job + 1;
     MediaQueue.enqueuedAt := MediaQueue.enqueuedAt job;
     MediaQueue.type := MediaQueue.type job |}.

(** The job [enqueue] creates. *)
Definition freshJob (mid : string) (msg : MediaQueue.Message) (cid : string)
    (prio now : Z) : MediaQueue.Job :=
  {| MediaQueue.messageId := mid; MediaQueue.message := msg;
     MediaQueue.clientId := cid; MediaQueue.priority := prio;
     MediaQueue.attempts := 0; MediaQueue.enqueuedAt := now;
     MediaQueue.type := MediaQueue.msgType msg |}.

End MediaQueueFacts.

(** ** The worker pool of the media queue *)

(** The three workers started by [startWorkers]: each runs the loop of
    [createWorker], which takes the next job with [getNextJob] and, once it
    has one, awaits [processJob] before it polls again.  [working] maps a
    worker to the job it is processing. *)
Module MediaWorkers.

Record Pool : Type := mkPool {
  store : MediaQueue.t;
  working : gmap nat MediaQueue.Job
}.

(** The pool as the constructor leaves it. *)
Definition start : Pool := {| store := MediaQueue.empty; working := ∅ |}.

(** What happens to the pool: a caller enqueues, an idle worker polls the
    queue, the download a worker awaits settles, the periodic cleanup
    runs. *)
Inductive op : Type :=
| OpEnqueue (mid : string) (msg : MediaQueue.Message) (cid : string) (prio now : Z)
| OpPoll (workerId : nat)
| OpSettle (workerId : nat) (o : MediaQueue.outcome) (now : Z)
| OpCleanup (now : Z).

Definition step (o : op) (p : Pool) : Pool :=
  match o with
  | OpEnqueue mid msg cid prio now =>
      {| store := snd (MediaQueue.enqueue mid msg cid prio now (store p));
         working := working p |}
  | OpPoll w =>
      if bool_decide (w < MediaQueue.maxWorkers)%nat
         && bool_decide (working p !! w = None)
      then
        match MediaQueue.getNextJob (store p) with
        | (Some job, st) => {| store := st; working := <[w := job]> (working p) |}
        | (None, _) => p
        end
      else p
  | OpSettle w o now =>
      match working p !! w with
      | Some job =>
          {| store := MediaQueue.processJob job w o now (store p);
             working := delete w (working p) |}
      | None => p
      end
  | OpCleanup now =>
      {| store := MediaQueue.cleanup now (store p); working := working p |}
  end.

Definition exec (ops : list op) (p : Pool) : Pool := foldl (fun p o => step o p) p ops.

(** What every state of the pool satisfies. *)
Definition sound (p : Pool) : Prop :=
  let st := store p in
  NoDup (MediaQueue.messageId <$> MediaQueue.queue st)
  ∧ (∀ j, j ∈ MediaQueue.queue st →
          (MediaQueue.messageId j ∉ MediaQueue.processing st)
          ∧ MediaQueue.completed st !! MediaQueue.messageId j = None
          ∧ 0 ≤ MediaQueue.attempts j < MediaQueue.retryAttempts)
  ∧ (∀ mid, mid ∈ MediaQueue.processing st
            ↔ ∃ w job, working p !! w = Some job ∧ MediaQueue.messageId job = mid)
  ∧ (∀ w job, working p !! w = Some job →
              MediaQueue.completed st !! MediaQueue.messageId job = None
              ∧ 0 ≤ MediaQueue.attempts job < MediaQueue.retryAttempts
              ∧ (w < MediaQueue.maxWorkers)%nat)
  ∧ (∀ w1 w2 j1 j2, working p !! w1 = Some j1 → working p !! w2 = Some j2 →
                    MediaQueue.messageId j1 = MediaQueue.messageId j2 → w1 = w2).

End MediaWorkers.

(** ** Chat cache: the readers and the message hook *)

Module ChatCacheReads.

(** [isCacheReady(clientNumber)] *)
Definition isCacheReady (client : string) (s : ChatCache.t) : bool :=
  default false (ChatCache.isLoaded s !! client).

(** [areGroupsLoaded(clientNumber)] *)
Definition areGroupsLoaded (client : string) (s : ChatCache.t) : bool :=
  default false (ChatCache.groupsLoaded s !! client).

(** [hasChatInCache(clientNumber, chatId)] *)
Definition hasChatInCache (client chatId : string) (s : ChatCache.t) : bool :=
  match ChatCache.chatCache s !! client with
  | Some clientCache => bool_decide (is_Some (clientCache !! chatId))
  | None => false
  end.

(** The chat and the group entry [initializeCache] builds from a listed
    chat. *)
Definition chatOf (c : ChatCache.RawChat) : ChatCache.ChatData :=
  {| ChatCache.id := ChatCache.rawId c;
     ChatCache.name := ChatCache.rawName c;
     ChatCache.isGroup := Some (ChatCache.rawIsGroup c);
     ChatCache.unreadCount := Some (ChatCache.rawUnreadCount c);
     ChatCache.timestamp := ChatCache.rawTimestamp c;
     ChatCache.lastMessage := None;
     ChatCache.profilePicUrl := None |}.

Definition groupOf (c : ChatCache.RawChat) : ChatCache.GroupData :=
  {| ChatCache.chat := chatOf c; ChatCache.groupId := ChatCache.rawUser c;
     ChatCache.participants := []; ChatCache.participantCount := 0;
     ChatCache.hasMetadata := false |}.

(** The message fields [updateCacheOnMessage] reads. *)
Record Message : Type := mkMessage {
  from : string;
  fromMe : bool;
  timestamp : Z;
  body : string
}.

(** [String.prototype.endsWith] *)
Definition endsWith (s suffix : string) : bool :=
  let n := String.length s in
  let k := String.length suffix in
  if (k <=? n)%nat then String.eqb (String.substring (n - k) k s) suffix
  else false.

(** [updateCacheOnMessage(number, message)] of the orchestrator, at clock
    reading [now]. *)
Definition updateCacheOnMessage (number : string) (message : Message) (now : Z)
    (s : ChatCache.t) : ChatCache.t :=
  if String.eqb (from message) "status@broadcast" then s
  else
    let chatId := from message in
    let isGroup := endsWith chatId "@g.us" in
    let updates :=
      {| ChatCache.updName := None;
         ChatCache.updIsGroup := Some isGroup;
         ChatCache.updUnreadCount := None;
         ChatCache.updTimestamp := Some (timestamp message);
         ChatCache.updLastMessage := Some (body message);
         ChatCache.updProfilePicUrl := None |} in
    if negb (fromMe message)
    then ChatCache.markAsUnread number chatId 1 now
           (ChatCache.updateChat number chatId updates s)
    else ChatCache.markAsRead number chatId now
           (ChatCache.updateChat number chatId updates s).

End ChatCacheReads.

(** ** Session orchestrator (src/whatsapp.js): creating and recovering clients *)

Module Orchestrator.

(** [static MAX_RETRIES = config.maxRetries || 3] *)
Definition MAX_RETRIES (cfg : Config.t) : Z := jsOr (Config.maxRetries cfg) 3.

(** The orchestrator's maps of the watchdog's world, with the
    [retryAttempts] map that only [createClient] reads and writes. *)
Record t : Type := mk {
  world : Watchdog.World;
  retryAttempts : gmap string Z
}.

(** How the [try] block of [createClient] ends: [client.initialize()]
    resolves or rejects, leaving the session object as given, or the
    session object cannot be constructed.  [tsetup] is the clock reading
    of the [setState] in [setupClientEvents], which runs once the session
    object is constructed.  The handlers [setupClientEvents] registers run
    when the session emits its events, which can be while [initialize()]
    is pending; each is a call of its own, and none is part of this one. *)
Inductive attempt : Type :=
| Initializes (c : Watchdog.Client) (tsetup : Z)
| InitializeRejects (c : Watchdog.Client) (tsetup : Z)
| ConstructorThrows.

Definition failing (a : attempt) : bool :=
  match a with
  | Initializes _ _ => false
  | _ => true
  end.

(** The session object and the clock reading of an attempt that got as
    far as [setupClientEvents]. *)
Definition constructed (a : attempt) : option (Watchdog.Client * Z) :=
  match a with
  | Initializes c tsetup => Some (c, tsetup)
  | InitializeRejects c tsetup => Some (c, tsetup)
  | ConstructorThrows => None
  end.

(** What a call returns: the client, or the error it throws. *)
Inductive result : Type :=
| Created
| MaxRetriesReached
| Failed.

Definition withClients (w : Watchdog.World)
    (cs : gmap string Watchdog.Client) : Watchdog.World :=
  {| Watchdog.clients := cs;
     Watchdog.clientReadyState := Watchdog.clientReadyState w;
     Watchdog.stateManager := Watchdog.stateManager w;
     Watchdog.reconnectionManager := Watchdog.reconnectionManager w;
     Watchdog.healthChecks := Watchdog.healthChecks w;
     Watchdog.calls := Watchdog.calls w |}.

Definition withReconnectionManager (w : Watchdog.World)
    (rm : ReconnectionManager.t) : Watchdog.World :=
  {| Watchdog.clients := Watchdog.clients w;
     Watchdog.clientReadyState := Watchdog.clientReadyState w;
     Watchdog.stateManager := Watchdog.stateManager w;
     Watchdog.reconnectionManager := rm;
     Watchdog.healthChecks := Watchdog.healthChecks w;
     Watchdog.calls := Watchdog.calls w |}.

(** The first two statements of [setupClientEvents(client, number)]: the
    ready flag is set to [false] and the state to [INITIALIZING]. *)
Definition setupClientEvents (number : string) (now : Z)
    (w : Watchdog.World) : Watchdog.World :=
  Watchdog.setStateAt number ClientStateManager.INITIALIZING [] now
    {| Watchdog.clients := Watchdog.clients w;
       Watchdog.clientReadyState := <[number := false]> (Watchdog.clientReadyState w);
       Watchdog.stateManager := Watchdog.stateManager w;
       Watchdog.reconnectionManager := Watchdog.reconnectionManager w;
       Watchdog.healthChecks := Watchdog.healthChecks w;
       Watchdog.calls := Watchdog.calls w |}.

(** [this.clients.set(number, client); this.setupClientEvents(client,
    number); await client.initialize()] *)
Definition started (number : string) (c : Watchdog.Client) (now : Z)
    (w : Watchdog.World) : Watchdog.World :=
  Watchdog.called (Watchdog.EInitialize number)
    (setupClientEvents number now
       (withClients w (<[number := c]> (Watchdog.clients w)))).

(** [createClient(number, sessionDir)] *)
Definition createClient (cfg : Config.t) (number : string) (a : attempt)
    (s : t) : result * t :=
  let retryCount := jsOrNaN (retryAttempts s !! number) 0 in
  if MAX_RETRIES cfg <=? retryCount then
    (MaxRetriesReached,
     {| world := world s; retryAttempts := delete number (retryAttempts s) |})
  else
    match a with
    | Initializes c tsetup =>
        (Created,
         {| world := started number c tsetup (world s);
            retryAttempts := delete number (retryAttempts s) |})
    | InitializeRejects c tsetup =>
        (Failed,
         {| world := started number c tsetup (world s);
            retryAttempts := <[number := retryCount + 1]> (retryAttempts s) |})
    | ConstructorThrows =>
        (Failed,
         {| world := world s;
            retryAttempts := <[number := retryCount + 1]> (retryAttempts s) |})
    end.

(** [recoverClient(number)], at clock reading [now]. *)
Definition recoverClient (cfg : Config.t) (number : string) (a : attempt)
    (now : Z) (s : t) : result * t :=
  let w1 := Watchdog.setStateAt number ClientStateManager.RECONNECTING [] now (world s) in
  let w2 :=
    match Watchdog.clients w1 !! number with
    | Some _ => Watchdog.called (Watchdog.ECleanupClient number) w1
    | None => w1
    end in
  let w3 :=
    {| Watchdog.clients := delete number (Watchdog.clients w2);
       Watchdog.clientReadyState := delete number (Watchdog.clientReadyState w2);
       Watchdog.stateManager := Watchdog.stateManager w2;
       Watchdog.reconnectionManager := Watchdog.reconnectionManager w2;
       Watchdog.healthChecks := Watchdog.healthChecks w2;
       Watchdog.calls := Watchdog.calls w2 |} in
  match createClient cfg number a {| world := w3; retryAttempts := retryAttempts s |} with
  | (Created, s') =>
      (Created,
       {| world :=
            withReconnectionManager (world s')
              (ReconnectionManager.resetAttempts number
                 (Watchdog.reconnectionManager (world s')));
          retryAttempts := retryAttempts s' |})
  | (r, s') => (r, s')
  end.

(** [forceReconnect(number)] *)
Definition forceReconnect (cfg : Config.t) (number : string) (a : attempt)
    (now : Z) (s : t) : result * t :=
  recoverClient cfg number a now
    {| world :=
         withReconnectionManager (world s)
           (ReconnectionManager.resetAttempts number
              (Watchdog.reconnectionManager (world s)));
       retryAttempts := retryAttempts s |}.

(** Calls of the three entry points, one after the other. *)
Inductive op : Type :=
| OpCreateClient (number : string) (a : attempt)
| OpRecoverClient (number : string) (a : attempt) (now : Z)
| OpForceReconnect (number : string) (a : attempt) (now : Z).

Definition step (cfg : Config.t) (o : op) (s : t) : t :=
  match o with
  | OpCreateClient n a => snd (createClient cfg n a s)
  | OpRecoverClient n a now => snd (recoverClient cfg n a now s)
  | OpForceReconnect n a now => snd (forceReconnect cfg n a now s)
  end.

Definition exec (cfg : Config.t) (ops : list op) (s : t) : t :=
  foldl (fun s o => step cfg o s) s ops.

(** The orchestrator the constructor builds, around a given world. *)
Definition initial (w : Watchdog.World) : t :=
  {| world := w; retryAttempts := ∅ |}.

(** Every stored retry count is between 1 and the limit. *)
Definition bounded (cfg : Config.t) (s : t) : Prop :=
  ∀ n v, retryAttempts s !! n = Some v → 1 ≤ v ≤ MAX_RETRIES cfg.

End Orchestrator.

(** ** More concrete runs *)

(** The states and inputs the later examples run the operations on. *)
Module Runs.

Definition client : string := Scenarios.client.

Definition otherClient : string := "593111".

(** One reconnection of [client] scheduled under the default settings and
    still pending. *)
Definition oneScheduled : list ReconnectionManager.op :=
  [ReconnectionManager.OpSchedule client 1000 (1 # 2)].

Definition pending : ReconnectionManager.t :=
  ReconnectionManager.exec ReconnectionManager.defaultSettings oneScheduled
    ReconnectionManager.empty.

(** A session that is up, and a client that has been ready for 200 s. *)
Definition readySession : Watchdog.Client :=
  {| Watchdog.pupBrowser := Some true; Watchdog.pupPage := true;
     Watchdog.info := Some "Ana" |}.

Definition readyEntry : ClientStateManager.StateEntry :=
  {| ClientStateManager.state := ClientStateManager.READY;
     ClientStateManager.timestamp := 1000;
     ClientStateManager.metadata := [];
     ClientStateManager.previousState := None |}.

Definition readyClient : Watchdog.World :=
  {| Watchdog.clients := {[ client := readySession ]};
     Watchdog.clientReadyState := {[ client := true ]};
     Watchdog.stateManager :=
       snd (ClientStateManager.setState client ClientStateManager.READY
              [] 1000 1000 ClientStateManager.empty);
     Watchdog.reconnectionManager := ReconnectionManager.empty;
     Watchdog.healthChecks := ∅;
     Watchdog.calls := [] |}.

(** A health check during which the page does not answer the probe. *)
Definition unresponsiveRun : Watchdog.Run :=
  {| Watchdog.tProcess := 201000;
     Watchdog.probeOutcome := Watchdog.ProbeThrows;
     Watchdog.tProbe := 201000;
     Watchdog.tAge := 201000;
     Watchdog.tHealth := 201000;
     Watchdog.recoveryThrows := false;
     Watchdog.tState := 201000;
     Watchdog.tRecover := 201000;
     Watchdog.draw := 1 # 2 |}.

Definition onlyLinkDown : Watchdog.Checks :=
  {| Watchdog.processAlive := true; Watchdog.browserResponsive := true;
     Watchdog.stateValid := true; Watchdog.websocketActive := false |}.

(** The session object the waiting client of the scenarios holds. *)
Definition waitingSession : Watchdog.Client :=
  {| Watchdog.pupBrowser := Some true; Watchdog.pupPage := true;
     Watchdog.info := None |}.

(** One job enqueued and handed to worker 0. *)
Definition firstJob : MediaQueue.Job :=
  MediaQueueFacts.freshJob "m1" (Scenarios.imageMessage "m1") client 1 10.

Definition polled : list MediaWorkers.op :=
  [MediaWorkers.OpEnqueue "m1" (Scenarios.imageMessage "m1") client 1 10;
   MediaWorkers.OpPoll 0].

(** An incoming message from a chat of the loaded cache. *)
Definition inbound : ChatCacheReads.Message :=
  {| ChatCacheReads.from := "593111@c.us"; ChatCacheReads.fromMe := false;
     ChatCacheReads.timestamp := 1700000000; ChatCacheReads.body := "hola" |}.

(** The configuration with no variable set, three failing attempts, and an
    orchestrator after three failed recoveries of [client]. *)
Definition defaultConfig : Config.t := Config.config Config.noEnv.

Definition threeFailures : list Orchestrator.attempt :=
  [Orchestrator.InitializeRejects waitingSession 1500;
   Orchestrator.ConstructorThrows;
   Orchestrator.InitializeRejects waitingSession 3500].


End Runs.

(** * Properties *)

(** ** State store *)

Section StateStore.

Import ClientStateManager.

Lemma includes_spec (l : list string) (x : string) :
  includes l x = true ↔ x ∈ l.
Proof.
  unfold includes. rewrite existsb_exists. split.
  - intros (y & Hin & Heq). apply String.eqb_eq in Heq. subst y.
    by apply list_elem_of_In.
  - intros Hin. exists x. split; [by apply list_elem_of_In|apply String.eqb_refl].
Qed.

Lemma getState_setState n st meta t1 t2 s :
  getState n (snd (setState n st meta t1 t2 s))
  = Some {| state := st; timestamp := t2; metadata := meta;
            previousState := state <$> getState n s |}.
Proof. unfold getState, setState; simpl. by rewrite lookup_insert_eq. Qed.

Lemma getHistory_setState n st meta t1 t2 s :
  getHistory n (snd (setState n st meta t1 t2 s))
  = pushBounded (getHistory n s) (fst (setState n st meta t1 t2 s)).
Proof. unfold getHistory, setState; simpl. by rewrite lookup_insert_eq. Qed.

Lemma getHistory_setState_ne n m st meta t1 t2 s :
  m ≠ n →
  getHistory n (snd (setState m st meta t1 t2 s)) = getHistory n s.
Proof.
  intros Hne. unfold getHistory, setState; simpl.
  by rewrite lookup_insert_ne.
Qed.

Lemma getHistory_clearState n s : getHistory n (clearState n s) = [].
Proof. unfold getHistory, clearState; simpl. by rewrite lookup_delete_eq. Qed.

Lemma getHistory_clearState_ne n m s :
  m ≠ n → getHistory n (clearState m s) = getHistory n s.
Proof.
  intros Hne. unfold getHistory, clearState; simpl.
  by rewrite lookup_delete_ne.
Qed.

Lemma lastn_length {A} k (l : list A) : length (lastn k l) = (length l `min` k)%nat.
Proof. unfold lastn. rewrite length_drop. lia. Qed.

(** Pushing onto the last 50 and shifting when over is taking the last 50
    of the longer log. *)
Lemma lastn_push (acc : list StateChange) (c : StateChange) :
  lastn 50 (acc ++ [c]) = pushBounded (lastn 50 acc) c.
Proof.
  unfold pushBounded, lastn. rewrite !length_app, length_drop. simpl.
  destruct (decide (length acc < 50)%nat) as [Hlt|Hge].
  - replace (length acc - 50)%nat with 0%nat by lia.
    replace (length acc + 1 - 50)%nat with 0%nat by lia.
    rewrite !drop_0.
    destruct (Nat.ltb_spec 50 (length acc - 0 + 1)); [lia|done].
  - destruct (Nat.ltb_spec 50 (length acc - (length acc - 50) + 1)); [|lia].
    rewrite drop_app_le by lia.
    replace (length acc + 1 - 50)%nat with (S (length acc - 50)) by lia.
    destruct (drop (length acc - 50) acc) as [|x rest] eqn:Hd.
    + apply (f_equal length) in Hd. rewrite length_drop in Hd. simpl in Hd. lia.
    + simpl. f_equal.
      replace (S (length acc - 50)) with ((length acc - 50) + 1)%nat by lia.
      by rewrite <- drop_drop, Hd.
Qed.

(** The stored history is the last 50 records of the log, from any store
    whose history already is. *)
Lemma history_is_lastn n ops : ∀ s acc,
  getHistory n s = lastn 50 acc →
  getHistory n (exec ops s) = lastn 50 (transitions n ops s acc).
Proof.
  induction ops as [|o ops IH]; intros s acc Hinv; [done|].
  change (exec (o :: ops) s) with (exec ops (step o s)).
  cbn [transitions]. apply IH.
  destruct o as [m st meta t1 t2|m]; cbn [step].
  - destruct (String.eqb_spec m n) as [->|Hne].
    + by rewrite getHistory_setState, Hinv, lastn_push.
    + by rewrite getHistory_setState_ne.
  - destruct (String.eqb_spec m n) as [->|Hne].
    + by rewrite getHistory_clearState.
    + by rewrite getHistory_clearState_ne.
Qed.

Lemma pushBounded_cases (h : list StateChange) (c : StateChange) :
  (length h ≤ 50)%nat →
  pushBounded h c
  = if (length h <? 50)%nat then h ++ [c] else drop 1 h ++ [c].
Proof.
  intros Hle. unfold pushBounded. rewrite length_app. simpl.
  destruct (Nat.ltb_spec 50 (length h + 1)), (Nat.ltb_spec (length h) 50);
    try lia; [|done].
  destruct h; simpl in *; [lia|]. by rewrite drop_0.
Qed.

Lemma pushBounded_last (h : list StateChange) (c : StateChange) :
  (length h ≤ 50)%nat → last (pushBounded h c) = Some c.
Proof.
  intros Hle. rewrite pushBounded_cases by done.
  destruct (length h <? 50)%nat; by rewrite last_snoc.
Qed.

(** C2: from the empty store, after any log of [setState] and
    [clearState] calls, [getHistory] is the last 50 transition records of
    the client in call order (most recent last) and has at most 50
    entries; one more [setState] appends its record at the end, and when
    the history already holds 50 the record dropped is the first, oldest
    one. *)
Theorem history_ring_buffer (ops : list op) (n st : string) (meta : Metadata)
    (t1 t2 : Z) :
  let s := exec ops empty in
  let c := fst (setState n st meta t1 t2 s) in
  let s' := snd (setState n st meta t1 t2 s) in
  getHistory n s = lastn 50 (transitions n ops empty [])
  ∧ (length (getHistory n s) ≤ 50)%nat
  ∧ getHistory n s'
    = (if (length (getHistory n s) <? 50)%nat
       then getHistory n s ++ [c]
       else drop 1 (getHistory n s) ++ [c])
  ∧ last (getHistory n s') = Some c
  ∧ (length (getHistory n s') ≤ 50)%nat.
Proof.
  intros s c s'.
  assert (Hs : getHistory n s = lastn 50 (transitions n ops empty [])).
  { apply history_is_lastn. unfold getHistory, empty; simpl.
    by rewrite lookup_empty. }
  assert (Hlen : (length (getHistory n s) ≤ 50)%nat).
  { rewrite Hs, lastn_length. lia. }
  assert (Hs' : getHistory n s' = pushBounded (getHistory n s) c).
  { apply getHistory_setState. }
  repeat split; try done.
  - by rewrite Hs', pushBounded_cases.
  - by rewrite Hs', pushBounded_last.
  - rewrite Hs', pushBounded_cases by done.
    destruct (Nat.ltb_spec (length (getHistory n s)) 50);
      rewrite length_app; [simpl; lia|].
    rewrite length_drop. simpl. lia.
Qed.

(** C9: [isHealthy] is true exactly when the client has a state entry
    whose state is AUTHENTICATED or READY; after [setState] to any state
    it answers whether that state is one of the two, which over the ten
    states of the enumeration is true for AUTHENTICATED and READY only;
    without an entry it is false. *)
Theorem isHealthy_iff_authenticated_or_ready (n : string) (s : t) :
  (isHealthy n s = true
   ↔ ∃ e, getState n s = Some e ∧ (state e = AUTHENTICATED ∨ state e = READY))
  ∧ (∀ st meta t1 t2,
       isHealthy n (snd (setState n st meta t1 t2 s)) = true
       ↔ st = AUTHENTICATED ∨ st = READY)
  ∧ (∀ meta t1 t2,
       map (fun st => isHealthy n (snd (setState n st meta t1 t2 s)))
           CLIENT_STATES
       = [false; false; false; true; true; false; false; false; false; false])
  ∧ isHealthy n (clearState n s) = false
  ∧ isHealthy n empty = false.
Proof.
  assert (Hin : ∀ x, includes [AUTHENTICATED; READY] x = true
                     ↔ x = AUTHENTICATED ∨ x = READY).
  { intros x. unfold includes. cbn [existsb].
    rewrite orb_false_r, orb_true_iff, !String.eqb_eq. tauto. }
  split; [|split; [|split; [|split]]].
  - unfold isHealthy. destruct (getState n s) as [e|].
    + rewrite Hin. split; [intros Hst; by exists e|].
      by intros (e' & [= <-] & Hst).
    + split; [done|]. by intros (e' & [=] & _).
  - intros st meta t1 t2. unfold isHealthy. rewrite getState_setState.
    apply Hin.
  - intros meta t1 t2. unfold isHealthy, CLIENT_STATES. cbn [map].
    by rewrite !getState_setState.
  - unfold isHealthy, getState, clearState; simpl. by rewrite lookup_delete_eq.
  - done.
Qed.

End StateStore.

(** ** Rounding to the nearest Number *)

Section Rounding.
Import Binary64.

Lemma pow2_pos e : (0 < pow2 e)%Q.
Proof. apply Qpower_0_lt. reflexivity. Qed.

Lemma pow2_add a b : (pow2 (a + b) == pow2 a * pow2 b)%Q.
Proof. apply Qpower_plus. discriminate. Qed.

Lemma pow2_Z e : 0 ≤ e → (pow2 e == inject_Z (2 ^ e))%Q.
Proof. intros He. unfold pow2. by rewrite (Zpower_Qpower 2 e He). Qed.

Lemma pow2_le a b : a ≤ b → (pow2 a <= pow2 b)%Q.
Proof. intros H. by apply Qpower_le_compat_l. Qed.

Lemma pow2_lt a b : a < b → (pow2 a < pow2 b)%Q.
Proof. intros H. by apply Qpower_lt_compat_l. Qed.

Lemma pow2_lt_inv a b : (pow2 a < pow2 b)%Q → a < b.
Proof. intros H. by apply (Qpower_lt_compat_l_inv 2). Qed.

Lemma pow2_succ e : (pow2 (e + 1) == 2 * pow2 e)%Q.
Proof. rewrite pow2_add. change (pow2 1) with 2%Q. ring. Qed.

Lemma pow2_pred e : (pow2 (e - 1) == pow2 e / 2)%Q.
Proof.
  assert (H : (pow2 e == 2 * pow2 (e - 1))%Q).
  { rewrite <- pow2_succ. by replace (e - 1 + 1) with e by lia. }
  rewrite H. field.
Qed.

(** [x / 2^e * 2^e] is [x]. *)
Lemma scale_back (x : Q) e : (x / pow2 e * pow2 e == x)%Q.
Proof. field. pose proof (pow2_pos e). lra. Qed.

(** [ilog2] is the binary order of magnitude. *)
Lemma ilog2_spec (x : Q) :
  ¬ (x == 0)%Q → (pow2 (ilog2 x) <= Qabs x)%Q ∧ (Qabs x < pow2 (ilog2 x + 1))%Q.
Proof.
  intros Hx. destruct x as [n d]. unfold ilog2. cbn [Qnum Qden].
  set (A := Z.abs n). set (ln := Z.log2 A). set (ld := Z.log2 (Z.pos d)).
  assert (HA : 0 < A).
  { unfold A. destruct n; [|lia..]. destruct Hx. reflexivity. }
  destruct (Z.log2_spec A HA) as [Hl1 Hl2]. fold ln in Hl1, Hl2.
  destruct (Z.log2_spec (Z.pos d) eq_refl) as [Hd1 Hd2]. fold ld in Hd1, Hd2.
  assert (Hln : 0 ≤ ln) by apply Z.log2_nonneg.
  assert (Hld : 0 ≤ ld) by apply Z.log2_nonneg.
  assert (Habs : (Qabs (n # d) == inject_Z A / inject_Z (Z.pos d))%Q).
  { unfold A. rewrite <- Zabs_Qabs. by rewrite (Qmake_Qdiv (Z.abs n) d). }
  assert (HD : (0 < inject_Z (Z.pos d))%Q).
  { change 0%Q with (inject_Z 0). by rewrite <- Zlt_Qlt. }
  assert (Hd1' : (pow2 ld <= inject_Z (Z.pos d))%Q)
    by (rewrite pow2_Z by done; by rewrite <- Zle_Qle).
  assert (Hd2' : (inject_Z (Z.pos d) < pow2 (ld + 1))%Q)
    by (rewrite pow2_Z by lia; by rewrite <- Zlt_Qlt).
  set (D := inject_Z (Z.pos d)) in *.
  assert (Hl1' : (pow2 ln <= inject_Z A)%Q) by (rewrite pow2_Z by done; by rewrite <- Zle_Qle).
  assert (Hl2' : (inject_Z A < pow2 (ln + 1))%Q) by (rewrite pow2_Z by lia; by rewrite <- Zlt_Qlt).
  set (k := ln - ld).
  assert (Hup : (Qabs (n # d) < pow2 (k + 1))%Q).
  { rewrite Habs. apply Qlt_shift_div_r; [done|].
    assert (E : (pow2 (ln + 1) == pow2 (k + 1) * pow2 ld)%Q).
    { rewrite <- pow2_add. by replace (k + 1 + ld) with (ln + 1) by lia. }
    pose proof (pow2_pos (k + 1)). pose proof (pow2_pos ld).
    assert ((pow2 (k + 1) * pow2 ld <= pow2 (k + 1) * D)%Q) by nra.
    lra. }
  assert (Hlo : (pow2 (k - 1) < Qabs (n # d))%Q).
  { rewrite Habs. apply Qlt_shift_div_l; [done|].
    assert (E : (pow2 ln == pow2 (k - 1) * pow2 (ld + 1))%Q).
    { rewrite <- pow2_add. by replace (k - 1 + (ld + 1)) with ln by lia. }
    pose proof (pow2_pos (k - 1)). pose proof (pow2_pos (ld + 1)).
    assert ((pow2 (k - 1) * D < pow2 (k - 1) * pow2 (ld + 1))%Q) by nra.
    lra. }
  destruct (Qle_bool (pow2 k) (Qabs (n # d))) eqn:Hk.
  - apply Qle_bool_iff in Hk. by split.
  - replace (k - 1 + 1) with k by lia. split; [lra|].
    apply Qnot_le_lt. intros Hle. apply Qle_bool_iff in Hle. congruence.
Qed.

Lemma ilog2_unique (x : Q) k :
  (pow2 k <= Qabs x)%Q → (Qabs x < pow2 (k + 1))%Q → ilog2 x = k.
Proof.
  intros H1 H2.
  assert (Hx : ¬ (x == 0)%Q).
  { intros E. rewrite E in H1. pose proof (pow2_pos k).
    change (Qabs 0) with 0%Q in H1. lra. }
  destruct (ilog2_spec x Hx) as [G1 G2].
  assert (ilog2 x < k + 1).
  { apply pow2_lt_inv. lra. }
  assert (k < ilog2 x + 1).
  { apply pow2_lt_inv. lra. }
  lia.
Qed.

Lemma ilog2_comp (x y : Q) : ¬ (x == 0)%Q → (x == y)%Q → ilog2 x = ilog2 y.
Proof.
  intros Hx E. symmetry. destruct (ilog2_spec x Hx) as [G1 G2].
  apply ilog2_unique; by rewrite <- E.
Qed.

Lemma ilog2_opp (x : Q) : ¬ (x == 0)%Q → ilog2 (- x) = ilog2 x.
Proof.
  intros Hx. destruct (ilog2_spec x Hx) as [G1 G2].
  apply ilog2_unique; by rewrite Qabs_opp.
Qed.

Lemma ilog2_mono (x y : Q) :
  ¬ (x == 0)%Q → ¬ (y == 0)%Q → (Qabs x <= Qabs y)%Q → ilog2 x ≤ ilog2 y.
Proof.
  intros Hx Hy Hle.
  destruct (ilog2_spec x Hx) as [G1 G2].
  destruct (ilog2_spec y Hy) as [K1 K2].
  assert (ilog2 x < ilog2 y + 1); [|lia].
  apply pow2_lt_inv. lra.
Qed.

End Rounding.

Section HalfEven.
Import Binary64.

Lemma Qfloor_unique (x : Q) (z : Z) :
  (inject_Z z <= x)%Q → (x < inject_Z (z + 1))%Q → Qfloor x = z.
Proof.
  intros H1 H2. pose proof (Qfloor_le x) as F1. pose proof (Qlt_floor x) as F2.
  assert (Qfloor x < z + 1).
  { rewrite Zlt_Qlt. lra. }
  assert (z < Qfloor x + 1).
  { rewrite Zlt_Qlt. lra. }
  lia.
Qed.

(** The rounded integer is the floor or the one above it, and at most a
    half away. *)
Lemma roundHalfEven_spec (q : Q) :
  (inject_Z (roundHalfEven q) - (1 # 2) <= q)%Q
  ∧ (q <= inject_Z (roundHalfEven q) + (1 # 2))%Q.
Proof.
  unfold roundHalfEven.
  pose proof (Qfloor_le q) as F1. pose proof (Qlt_floor q) as F2.
  rewrite inject_Z_plus in F2. change (inject_Z 1) with 1%Q in F2.
  destruct (Qcompare_spec (q - inject_Z (Qfloor q)) (1 # 2)) as [E|L|G].
  - destruct (Z.even (Qfloor q)).
    + split; lra.
    + rewrite inject_Z_plus. change (inject_Z 1) with 1%Q. split; lra.
  - split; lra.
  - rewrite inject_Z_plus. change (inject_Z 1) with 1%Q. split; lra.
Qed.

(** A number less than a half away from an integer rounds to it. *)
Lemma roundHalfEven_near (q : Q) (z : Z) :
  (Qabs (q - inject_Z z) < 1 # 2)%Q → roundHalfEven q = z.
Proof.
  intros H. apply Qabs_Qlt_condition in H as [H1 H2].
  destruct (roundHalfEven_spec q) as [S1 S2].
  assert (roundHalfEven q < z + 1).
  { rewrite Zlt_Qlt, inject_Z_plus. change (inject_Z 1) with 1%Q. lra. }
  assert (z < roundHalfEven q + 1).
  { rewrite Zlt_Qlt, inject_Z_plus. change (inject_Z 1) with 1%Q. lra. }
  lia.
Qed.

Lemma roundHalfEven_Z (z : Z) : roundHalfEven (inject_Z z) = z.
Proof.
  apply roundHalfEven_near.
  assert (E : (inject_Z z - inject_Z z == 0)%Q) by ring.
  rewrite E. reflexivity.
Qed.

Lemma roundHalfEven_comp (q q' : Q) : (q == q')%Q → roundHalfEven q = roundHalfEven q'.
Proof.
  intros E. unfold roundHalfEven. rewrite (Qfloor_comp q q' E).
  assert (E' : (q - inject_Z (Qfloor q') == q' - inject_Z (Qfloor q'))%Q)
    by (by rewrite E).
  by rewrite (Qcompare_comp _ _ E' (1 # 2) (1 # 2) (Qeq_refl _)).
Qed.

Lemma roundHalfEven_mono (q q' : Q) :
  (q <= q')%Q → roundHalfEven q ≤ roundHalfEven q'.
Proof.
  intros Hle.
  pose proof (Qfloor_resp_le q q' Hle) as Hf.
  pose proof (Qfloor_le q) as F1. pose proof (Qlt_floor q) as F2.
  pose proof (Qfloor_le q') as F1'. pose proof (Qlt_floor q') as F2'.
  rewrite inject_Z_plus in F2, F2'. change (inject_Z 1) with 1%Q in F2, F2'.
  destruct (Z.eq_dec (Qfloor q) (Qfloor q')) as [Heq|Hne].
  - unfold roundHalfEven. rewrite <- Heq.
    destruct (Qcompare_spec (q - inject_Z (Qfloor q)) (1 # 2)) as [E|L|G];
      destruct (Qcompare_spec (q' - inject_Z (Qfloor q)) (1 # 2)) as [E'|L'|G'];
      try destruct (Z.even (Qfloor q)); try lia; lra.
  - assert (Hlt : Qfloor q + 1 ≤ Qfloor q') by lia.
    assert (H1 : roundHalfEven q ≤ Qfloor q + 1).
    { unfold roundHalfEven. destruct (_ ?= _)%Q; [destruct (Z.even _)|..]; lia. }
    assert (H2 : Qfloor q' ≤ roundHalfEven q').
    { unfold roundHalfEven. destruct (_ ?= _)%Q; [destruct (Z.even _)|..]; lia. }
    lia.
Qed.

Lemma roundHalfEven_opp (q : Q) : roundHalfEven (- q) = - roundHalfEven q.
Proof.
  pose proof (Qfloor_le q) as F1. pose proof (Qlt_floor q) as F2.
  rewrite inject_Z_plus in F2. change (inject_Z 1) with 1%Q in F2.
  set (f := Qfloor q) in *.
  destruct (Qeq_dec q (inject_Z f)) as [Hint|Hfrac].
  - rewrite (roundHalfEven_comp q (inject_Z f) Hint), roundHalfEven_Z.
    assert (E : (- q == inject_Z (- f))%Q) by (rewrite inject_Z_opp; by rewrite Hint).
    by rewrite (roundHalfEven_comp _ _ E), roundHalfEven_Z.
  - assert (Hf' : Qfloor (- q) = - f - 1).
    { apply Qfloor_unique.
      - unfold Z.sub. rewrite inject_Z_plus, inject_Z_opp.
        change (inject_Z (- (1))) with (- (1))%Q. lra.
      - replace (- f - 1 + 1) with (- f) by lia. rewrite inject_Z_opp.
        assert (inject_Z f < q)%Q; [|lra].
        apply Qle_lt_or_eq in F1 as [?|E]; [done|]. destruct Hfrac. by symmetry. }
    unfold roundHalfEven at 1. rewrite Hf'.
    assert (Ei : (inject_Z (- f - 1) == - inject_Z f - 1)%Q).
    { unfold Z.sub. rewrite inject_Z_plus, inject_Z_opp. reflexivity. }
    assert (Hev : Z.even (- f - 1) = negb (Z.even f)).
    { replace (- f - 1) with (- (f + 1)) by lia.
      rewrite Z.even_opp. replace (f + 1) with (Z.succ f) by lia.
      rewrite Z.even_succ. by rewrite <- Z.negb_even. }
    unfold roundHalfEven. fold f.
    destruct (Qcompare_spec (- q - inject_Z (- f - 1)) (1 # 2)) as [E|L|G];
      destruct (Qcompare_spec (q - inject_Z f) (1 # 2)) as [E'|L'|G'];
      rewrite ?Ei in *; try lra.
    + rewrite Hev. destruct (Z.even f); cbn; lia.
    + lia.
    + lia.
Qed.

Lemma roundHalfEven_nonneg (q : Q) : (0 <= q)%Q → 0 ≤ roundHalfEven q.
Proof.
  intros H. change 0 with (roundHalfEven (inject_Z 0)) at 1.
  - rewrite roundHalfEven_Z. change 0 with (roundHalfEven (inject_Z 0)).
    by apply roundHalfEven_mono.
Qed.

End HalfEven.

Section Nearest.
Import Binary64.

Lemma nearest_zero (x : Q) : (x == 0)%Q → nearest x = 0%Q.
Proof. intros E. unfold nearest. apply Qeq_bool_iff in E. by rewrite E. Qed.

Lemma nearest_nonzero (x : Q) :
  ¬ (x == 0)%Q →
  nearest x
  = (inject_Z (roundHalfEven (x / pow2 (ulpExponent x))) * pow2 (ulpExponent x))%Q.
Proof.
  intros Hx. unfold nearest. destruct (Qeq_bool x 0) eqn:E; [|done].
  apply Qeq_bool_iff in E. by destruct Hx.
Qed.

Lemma ulpExponent_comp (x y : Q) :
  ¬ (x == 0)%Q → (x == y)%Q → ulpExponent x = ulpExponent y.
Proof. intros Hx E. unfold ulpExponent. by rewrite (ilog2_comp x y Hx E). Qed.

Lemma ulpExponent_opp (x : Q) : ¬ (x == 0)%Q → ulpExponent (- x) = ulpExponent x.
Proof. intros Hx. unfold ulpExponent. by rewrite ilog2_opp. Qed.

Lemma nearest_comp (x y : Q) : (x == y)%Q → (nearest x == nearest y)%Q.
Proof.
  intros E. destruct (Qeq_dec x 0) as [Hx|Hx].
  - rewrite (nearest_zero x Hx), (nearest_zero y); [reflexivity|by rewrite <- E].
  - assert (Hy : ¬ (y == 0)%Q) by (by rewrite <- E).
    rewrite (nearest_nonzero x Hx), (nearest_nonzero y Hy).
    rewrite <- (ulpExponent_comp x y Hx E).
    assert (E' : (x / pow2 (ulpExponent x) == y / pow2 (ulpExponent x))%Q)
      by (unfold Qdiv; by apply Qmult_comp).
    by rewrite (roundHalfEven_comp _ _ E').
Qed.

(** Rounding commutes with the change of sign. *)
Lemma nearest_opp (x : Q) : (nearest (- x) == - nearest x)%Q.
Proof.
  destruct (Qeq_dec x 0) as [Hx|Hx].
  - rewrite (nearest_zero x Hx), (nearest_zero (- x)); [reflexivity|by rewrite Hx].
  - assert (Hx' : ¬ (- x == 0)%Q).
    { intros E. apply Hx. rewrite <- (Qopp_involutive x). by rewrite E. }
    rewrite (nearest_nonzero x Hx), (nearest_nonzero (- x) Hx').
    rewrite (ulpExponent_opp x Hx).
    assert (E : (- x / pow2 (ulpExponent x) == - (x / pow2 (ulpExponent x)))%Q).
    { field. pose proof (pow2_pos (ulpExponent x)). lra. }
    rewrite (roundHalfEven_comp _ _ E), roundHalfEven_opp, inject_Z_opp. ring.
Qed.

(** The rounding error is at most half a unit in the last place. *)
Lemma nearest_error (x : Q) :
  ¬ (x == 0)%Q →
  (Qabs (nearest x - x) <= pow2 (ulpExponent x - 1))%Q.
Proof.
  intros Hx. rewrite (nearest_nonzero x Hx).
  set (e := ulpExponent x). pose proof (pow2_pos e) as Hp.
  destruct (roundHalfEven_spec (x / pow2 e)) as [S1 S2].
  set (m := inject_Z (roundHalfEven (x / pow2 e))) in *.
  rewrite pow2_pred.
  set (q := (x / pow2 e)%Q) in *.
  assert (Eg : (m * pow2 e - x == (m - q) * pow2 e)%Q).
  { unfold q. field. lra. }
  assert (E1 : (pow2 e / 2 == (1 # 2) * pow2 e)%Q) by field.
  rewrite Eg, E1.
  apply Qabs_Qle_condition. split; nra.
Qed.

(** The scaled significand is below [2^53] in absolute value. *)
Lemma scaled_bound (x : Q) :
  ¬ (x == 0)%Q → (Qabs (x / pow2 (ulpExponent x)) < pow2 53)%Q.
Proof.
  intros Hx. destruct (ilog2_spec x Hx) as [_ H2].
  set (e := ulpExponent x). pose proof (pow2_pos e) as Hp.
  assert (He : ilog2 x - 52 ≤ e) by (unfold e, ulpExponent; lia).
  assert (E : (Qabs (x / pow2 e) == Qabs x / pow2 e)%Q).
  { unfold Qdiv. rewrite Qabs_Qmult, Qabs_Qinv.
    by rewrite (Qabs_pos (pow2 e)) by lra. }
  rewrite E. apply Qlt_shift_div_r; [done|].
  rewrite <- pow2_add.
  pose proof (pow2_le (ilog2 x + 1) (53 + e) ltac:(lia)). lra.
Qed.

(** In the normal range the scaled significand is at least [2^52]. *)
Lemma scaled_normal (x : Q) :
  ¬ (x == 0)%Q → ulpExponent x = ilog2 x - 52 →
  (pow2 52 <= Qabs (x / pow2 (ulpExponent x)))%Q.
Proof.
  intros Hx He. destruct (ilog2_spec x Hx) as [H1 _].
  set (e := ulpExponent x) in *. pose proof (pow2_pos e) as Hp.
  assert (E : (Qabs (x / pow2 e) == Qabs x / pow2 e)%Q).
  { unfold Qdiv. rewrite Qabs_Qmult, Qabs_Qinv.
    by rewrite (Qabs_pos (pow2 e)) by lra. }
  rewrite E. apply Qle_shift_div_l; [done|].
  rewrite <- pow2_add. by replace (52 + e) with (ilog2 x) by lia.
Qed.

Lemma nearest_nonneg (x : Q) : (0 <= x)%Q → (0 <= nearest x)%Q.
Proof.
  intros H. destruct (Qeq_dec x 0) as [Hx|Hx].
  - by rewrite (nearest_zero x Hx).
  - rewrite (nearest_nonzero x Hx).
    pose proof (pow2_pos (ulpExponent x)) as Hp.
    apply Qmult_le_0_compat; [|lra].
    change 0%Q with (inject_Z 0). rewrite <- Zle_Qle.
    apply roundHalfEven_nonneg. apply Qle_shift_div_l; [done|]. lra.
Qed.

Lemma nearest_mono_pos (x y : Q) :
  (0 < x)%Q → (x <= y)%Q → (nearest x <= nearest y)%Q.
Proof.
  intros Hx Hxy.
  assert (Hx0 : ¬ (x == 0)%Q) by lra.
  assert (Hy0 : ¬ (y == 0)%Q) by lra.
  rewrite (nearest_nonzero x Hx0), (nearest_nonzero y Hy0).
  assert (Hlog : ilog2 x ≤ ilog2 y).
  { apply ilog2_mono; try done. rewrite !Qabs_pos by lra. done. }
  set (ex := ulpExponent x). set (ey := ulpExponent y).
  assert (Hexy : ex ≤ ey) by (unfold ex, ey, ulpExponent; lia).
  pose proof (pow2_pos ex) as Hpx. pose proof (pow2_pos ey) as Hpy.
  destruct (Z.eq_dec ex ey) as [Heq|Hne].
  - rewrite <- Heq. apply Qmult_le_compat_r; [|lra].
    rewrite <- Zle_Qle. apply roundHalfEven_mono.
    apply Qle_shift_div_l; [done|]. rewrite scale_back. done.
  - assert (Hlt : ex < ey) by lia.
    assert (Hey : ey = ilog2 y - 52) by (unfold ex, ey, ulpExponent in *; lia).
    assert (Hlx : ilog2 x + 1 ≤ ilog2 y) by (unfold ex, ey, ulpExponent in *; lia).
    destruct (ilog2_spec x Hx0) as [_ Hx2]. destruct (ilog2_spec y Hy0) as [Hy1 _].
    rewrite Qabs_pos in Hx2, Hy1 by lra.
    set (N := 2 ^ (ey + 52 - ex)).
    assert (HN : (inject_Z N == pow2 (ey + 52 - ex))%Q).
    { unfold N. by rewrite pow2_Z by lia. }
    assert (HB : (inject_Z N * pow2 ex == pow2 (ilog2 y))%Q).
    { rewrite HN, <- pow2_add. by replace (ey + 52 - ex + ex) with (ilog2 y) by lia. }
    assert (H1 : (inject_Z (roundHalfEven (x / pow2 ex)) <= inject_Z N)%Q).
    { rewrite <- Zle_Qle. rewrite <- (roundHalfEven_Z N).
      apply roundHalfEven_mono. apply Qle_shift_div_r; [done|].
      rewrite HB. pose proof (pow2_le _ _ Hlx). lra. }
    assert (H2 : (inject_Z (2 ^ 52) <= inject_Z (roundHalfEven (y / pow2 ey)))%Q).
    { rewrite <- Zle_Qle. rewrite <- (roundHalfEven_Z (2 ^ 52)) at 1.
      apply roundHalfEven_mono. apply Qle_shift_div_l; [done|].
      rewrite <- (pow2_Z 52) by lia. rewrite <- pow2_add.
      by replace (52 + ey) with (ilog2 y) by lia. }
    assert (HB' : (inject_Z (2 ^ 52) * pow2 ey == pow2 (ilog2 y))%Q).
    { rewrite <- (pow2_Z 52) by lia. rewrite <- pow2_add.
      by replace (52 + ey) with (ilog2 y) by lia. }
    apply Qle_trans with (pow2 (ilog2 y)).
    + rewrite <- HB. apply Qmult_le_compat_r; [done|lra].
    + rewrite <- HB'. apply Qmult_le_compat_r; [done|lra].
Qed.

(** Rounding keeps the order. *)
Lemma nearest_mono (x y : Q) : (x <= y)%Q → (nearest x <= nearest y)%Q.
Proof.
  intros Hxy.
  destruct (Qlt_le_dec 0 x) as [Hx|Hx].
  - by apply nearest_mono_pos.
  - destruct (Qlt_le_dec y 0) as [Hy|Hy].
    + assert (H : (nearest (- y) <= nearest (- x))%Q)
        by (apply nearest_mono_pos; lra).
      rewrite !nearest_opp in H. lra.
    + pose proof (nearest_nonneg y Hy).
      assert (H' : (0 <= nearest (- x))%Q) by (apply nearest_nonneg; lra).
      rewrite nearest_opp in H'. lra.
Qed.

(** A multiple of the unit in the last place of its own binade is a value
    of the type. *)
Lemma nearest_on_grid (x : Q) (m : Z) :
  (x == inject_Z m * pow2 (ulpExponent x))%Q → (nearest x == x)%Q.
Proof.
  intros E. destruct (Qeq_dec x 0) as [Hx|Hx].
  - by rewrite (nearest_zero x Hx), Hx.
  - rewrite (nearest_nonzero x Hx).
    set (e := ulpExponent x) in *. pose proof (pow2_pos e) as Hp.
    assert (Eq : (x / pow2 e == inject_Z m)%Q).
    { rewrite E. field. lra. }
    rewrite (roundHalfEven_comp _ _ Eq), roundHalfEven_Z. by rewrite E.
Qed.

(** [m * 2^g] with at most 53 significant bits and [g] not below [-1074]
    is a value of the type. *)
Lemma nearest_dyadic (m g : Z) :
  Z.abs m < 2 ^ 53 → -1074 ≤ g →
  (nearest (inject_Z m * pow2 g) == inject_Z m * pow2 g)%Q.
Proof.
  intros Hm Hg. set (x := (inject_Z m * pow2 g)%Q).
  destruct (Z.eq_dec m 0) as [->|Hm0].
  { rewrite (nearest_zero x); unfold x; ring. }
  pose proof (pow2_pos g) as Hpg.
  assert (Habs : (Qabs x == inject_Z (Z.abs m) * pow2 g)%Q).
  { unfold x. rewrite Qabs_Qmult, (Qabs_pos (pow2 g)) by lra.
    apply Qmult_comp; [|reflexivity].
    unfold inject_Z. by rewrite <- Zabs_Qabs. }
  assert (Hx : ¬ (x == 0)%Q).
  { intros E. rewrite E in Habs. change (Qabs 0) with 0%Q in Habs.
    assert (H1 : (1 <= inject_Z (Z.abs m))%Q).
    { change 1%Q with (inject_Z 1). rewrite <- Zle_Qle. lia. }
    nra. }
  assert (Hlog : ilog2 x ≤ 52 + g).
  { destruct (ilog2_spec x Hx) as [H1 _].
    assert (ilog2 x < 53 + g); [|lia]. apply pow2_lt_inv.
    rewrite (pow2_add 53 g).
    assert (H2 : (inject_Z (Z.abs m) < pow2 53)%Q).
    { rewrite pow2_Z by lia. by rewrite <- Zlt_Qlt. }
    assert (H3 : (inject_Z (Z.abs m) * pow2 g < pow2 53 * pow2 g)%Q)
      by (apply Qmult_lt_compat_r; done).
    lra. }
  set (e := ulpExponent x).
  assert (He : e ≤ g) by (unfold e, ulpExponent; lia).
  apply (nearest_on_grid x (m * 2 ^ (g - e))).
  fold e. rewrite inject_Z_mult, <- (pow2_Z (g - e)) by lia.
  unfold x. rewrite <- Qmult_assoc, <- pow2_add.
  by replace (g - e + e) with g by lia.
Qed.

(** An integer of at most 53 bits is a value of the type. *)
Lemma nearest_Z (z : Z) :
  Z.abs z ≤ 2 ^ 53 → (nearest (inject_Z z) == inject_Z z)%Q.
Proof.
  intros Hz. destruct (Z.eq_dec (Z.abs z) (2 ^ 53)) as [Heq|Hne].
  - assert (E : (inject_Z z == inject_Z (z / 2) * pow2 1)%Q).
    { change (pow2 1) with (inject_Z 2). rewrite <- inject_Z_mult.
      apply inject_Z_injective.
      assert (z = 2 ^ 53 ∨ z = - 2 ^ 53) as [-> | ->] by lia; reflexivity. }
    rewrite (nearest_comp _ _ E), nearest_dyadic; [by rewrite <- E|..].
    + assert (z = 2 ^ 53 ∨ z = - 2 ^ 53) as [-> | ->] by lia; reflexivity.
    + lia.
  - assert (E : (inject_Z z == inject_Z z * pow2 0)%Q).
    { change (pow2 0) with 1%Q. ring. }
    rewrite (nearest_comp _ _ E), nearest_dyadic by lia. by rewrite <- E.
Qed.

(** In the normal range the rounding error is at most [2^-53] of the
    exact value. *)
Lemma nearest_relative (x : Q) :
  (pow2 (-1022) <= Qabs x)%Q →
  (Qabs (nearest x - x) <= pow2 (-53) * Qabs x)%Q.
Proof.
  intros Hn.
  assert (Hx : ¬ (x == 0)%Q).
  { intros E. rewrite E in Hn. change (Qabs 0) with 0%Q in Hn.
    pose proof (pow2_pos (-1022)). lra. }
  pose proof (nearest_error x Hx) as Herr.
  destruct (ilog2_spec x Hx) as [H1 H2].
  assert (Hlog : -1022 ≤ ilog2 x).
  { assert (-1022 < ilog2 x + 1); [|lia]. apply pow2_lt_inv. lra. }
  assert (He : ulpExponent x = ilog2 x - 52) by (unfold ulpExponent; lia).
  rewrite He in Herr.
  assert (E : (pow2 (ilog2 x - 52 - 1) == pow2 (-53) * pow2 (ilog2 x))%Q).
  { rewrite <- pow2_add. by replace (-53 + ilog2 x) with (ilog2 x - 52 - 1) by lia. }
  rewrite E in Herr. pose proof (pow2_pos (-53)).
  assert (pow2 (-53) * pow2 (ilog2 x) <= pow2 (-53) * Qabs x)%Q by nra.
  lra.
Qed.

End Nearest.

Section Results.
Import Binary64.

(** Below [2^(k+1)] the rounding error is at most [2^(k-53)]. *)
Lemma nearest_abs_error (x : Q) (k : Z) :
  (Qabs x < pow2 (k + 1))%Q → -1022 ≤ k →
  (Qabs (nearest x - x) <= pow2 (k - 53))%Q.
Proof.
  intros Hx Hk. destruct (Qeq_dec x 0) as [E|Hx0].
  - rewrite (nearest_zero x E).
    assert (E' : (0 - x == 0)%Q) by (rewrite E; ring).
    rewrite E'. change (Qabs 0) with 0%Q. pose proof (pow2_pos (k - 53)). lra.
  - pose proof (nearest_error x Hx0) as Herr.
    destruct (ilog2_spec x Hx0) as [H1 _].
    assert (ilog2 x < k + 1) by (apply pow2_lt_inv; lra).
    assert (ulpExponent x - 1 ≤ k - 53) by (unfold ulpExponent; lia).
    pose proof (pow2_le _ _ H0). lra.
Qed.

(** A value between two integers of the type stays between them. *)
Lemma nearest_le_Z (x : Q) (k : Z) :
  Z.abs k ≤ 2 ^ 53 → (x <= inject_Z k)%Q → (nearest x <= inject_Z k)%Q.
Proof.
  intros Hk Hx. rewrite <- (nearest_Z k Hk). by apply nearest_mono.
Qed.

Lemma nearest_ge_Z (x : Q) (k : Z) :
  Z.abs k ≤ 2 ^ 53 → (inject_Z k <= x)%Q → (inject_Z k <= nearest x)%Q.
Proof.
  intros Hk Hx. rewrite <- (nearest_Z k Hk). by apply nearest_mono.
Qed.

Lemma nearest_abs_le_Z (x : Q) (k : Z) :
  0 ≤ k ≤ 2 ^ 53 → (Qabs x <= inject_Z k)%Q → (Qabs (nearest x) <= inject_Z k)%Q.
Proof.
  intros Hk Hx. apply Qabs_Qle_condition in Hx. destruct Hx as [H1 H2].
  apply Qabs_Qle_condition. split.
  - rewrite <- inject_Z_opp. apply nearest_ge_Z; [lia|].
    by rewrite inject_Z_opp.
  - apply nearest_le_Z; [lia|done].
Qed.

(** An integer absorbs an excess of less than [2^-54] of itself. *)
Lemma nearest_absorbs (k : Z) (δ : Q) :
  1 ≤ k < 2 ^ 52 → (0 <= δ)%Q → (δ * pow2 54 <= inject_Z k)%Q →
  (nearest (inject_Z k + δ) == inject_Z k)%Q.
Proof.
  intros Hk Hd0 Hd. set (x := (inject_Z k + δ)%Q).
  set (j := Z.log2 k).
  destruct (Z.log2_spec k ltac:(lia)) as [Hj1 Hj2]. fold j in Hj1, Hj2.
  assert (Hj0 : 0 ≤ j) by apply Z.log2_nonneg.
  assert (Hj52 : j < 52).
  { apply (Z.pow_lt_mono_r_iff 2); lia. }
  replace (Z.succ j) with (j + 1) in Hj2 by lia.
  assert (Q1 : (pow2 j <= inject_Z k)%Q).
  { rewrite pow2_Z by done. by rewrite <- Zle_Qle. }
  assert (Q2 : (inject_Z k + 1 <= pow2 (j + 1))%Q).
  { rewrite pow2_Z by lia. change 1%Q with (inject_Z 1).
    rewrite <- inject_Z_plus, <- Zle_Qle. lia. }
  assert (Q3 : (inject_Z k < pow2 (j + 1))%Q) by lra.
  pose proof (pow2_pos 54) as Hp54. pose proof (pow2_pos j) as Hpj.
  assert (Hδ : (δ * pow2 54 < pow2 (j + 1))%Q) by lra.
  assert (Hδ1 : (δ < pow2 (j - 53))%Q).
  { assert (E : (pow2 (j + 1) == pow2 (j - 53) * pow2 54)%Q).
    { rewrite <- pow2_add. by replace (j - 53 + 54) with (j + 1) by lia. }
    rewrite E in Hδ. nra. }
  assert (Hsmall : (pow2 (j - 53) <= 1)%Q).
  { change 1%Q with (pow2 0). apply pow2_le. lia. }
  assert (Hx0 : (0 < x)%Q) by (unfold x; lra).
  assert (Hlog : ilog2 x = j).
  { apply ilog2_unique; rewrite Qabs_pos by lra; unfold x; lra. }
  assert (Hx' : ¬ (x == 0)%Q) by lra.
  rewrite (nearest_nonzero x Hx').
  assert (He : ulpExponent x = j - 52) by (unfold ulpExponent; lia).
  rewrite He. pose proof (pow2_pos (j - 52)) as Hpe.
  set (K := k * 2 ^ (52 - j)).
  assert (HK : (inject_Z K * pow2 (j - 52) == inject_Z k)%Q).
  { unfold K. rewrite inject_Z_mult, <- (pow2_Z (52 - j)) by lia.
    rewrite <- Qmult_assoc, <- pow2_add.
    replace (52 - j + (j - 52)) with 0 by lia. change (pow2 0) with 1%Q. ring. }
  assert (HR : roundHalfEven (x / pow2 (j - 52)) = K).
  { apply roundHalfEven_near.
    assert (E : (x / pow2 (j - 52) - inject_Z K == δ / pow2 (j - 52))%Q).
    { unfold x. rewrite <- HK at 1. field. lra. }
    rewrite E. rewrite Qabs_pos.
    - apply Qlt_shift_div_r; [done|].
      assert (E2 : ((1 # 2) * pow2 (j - 52) == pow2 (j - 53))%Q).
      { replace (j - 53) with (j - 52 - 1) by lia. rewrite pow2_pred. field. }
      by rewrite E2.
    - apply Qle_shift_div_l; [done|]. lra. }
  by rewrite HR.
Qed.

Lemma Qred_inject_Z (z : Z) : Qred (inject_Z z) = inject_Z z.
Proof.
  unfold Qred, inject_Z.
  generalize (Z.ggcd_gcd z 1) (Z.ggcd_correct_divisors z 1).
  destruct (Z.ggcd z 1) as (g, (q, r)). cbn [fst snd].
  intros Hg [H1 H2]. rewrite Z.gcd_1_r in Hg. subst g.
  f_equal; [lia|]. replace r with 1 by lia. reflexivity.
Qed.

Lemma round_comp (x y : Q) : (x == y)%Q → round x = round y.
Proof.
  intros E. unfold round.
  rewrite (Qred_complete _ _ (nearest_comp x y E)).
  assert (Es : Qle_bool 0 x = Qle_bool 0 y).
  { destruct (Qle_bool 0 x) eqn:E1, (Qle_bool 0 y) eqn:E2; try done.
    - apply Qle_bool_iff in E1. rewrite E in E1. apply Qle_bool_iff in E1.
      congruence.
    - apply Qle_bool_iff in E2. rewrite <- E in E2. apply Qle_bool_iff in E2.
      congruence. }
  by rewrite Es.
Qed.

Lemma below_overflow (q : Q) :
  (Qabs q <= inject_Z (2 ^ 53))%Q → (Qabs q < pow2 1024)%Q.
Proof.
  intros H. rewrite <- (pow2_Z 53) in H by lia.
  pose proof (pow2_lt 53 1024 ltac:(lia)). lra.
Qed.

(** A result below the overflow threshold is delivered as it is. *)
Lemma round_finite (x : Q) :
  (Qabs (nearest x) < pow2 1024)%Q → round x = Finite (Qred (nearest x)).
Proof.
  intros H. unfold round.
  destruct (Qle_bool (pow2 1024) (Qabs (Qred (nearest x)))) eqn:E; [|done].
  apply Qle_bool_iff in E. rewrite Qred_correct in E. lra.
Qed.

Lemma round_bounded (x : Q) (k : Z) :
  0 ≤ k ≤ 2 ^ 53 → (Qabs x <= inject_Z k)%Q →
  round x = Finite (Qred (nearest x)).
Proof.
  intros Hk Hx. apply round_finite, below_overflow.
  apply Qle_trans with (inject_Z k).
  - by apply nearest_abs_le_Z.
  - rewrite <- Zle_Qle. lia.
Qed.

(** An integer of at most 53 bits is delivered exactly. *)
Lemma round_Z (z : Z) : Z.abs z ≤ 2 ^ 53 → round (inject_Z z) = Finite (inject_Z z).
Proof.
  intros Hz. rewrite (round_bounded _ (Z.abs z)).
  - by rewrite (Qred_complete _ _ (nearest_Z z Hz)), Qred_inject_Z.
  - lia.
  - unfold inject_Z. rewrite <- Zabs_Qabs. apply Qle_refl.
Qed.

End Results.

Section Operations.
Import Binary64.

Lemma mul_red (x y : Q) (k : Z) :
  0 ≤ k ≤ 2 ^ 53 → (Qabs (x * y) <= inject_Z k)%Q →
  mul (Finite (Qred x)) (Finite (Qred y)) = Finite (Qred (nearest (x * y))).
Proof.
  intros Hk Hb. cbn [mul].
  assert (E : (Qred x * Qred y == x * y)%Q) by (by rewrite !Qred_correct).
  rewrite (round_comp _ _ E). by apply (round_bounded _ k).
Qed.

Lemma add_red (x y : Q) (k : Z) :
  0 ≤ k ≤ 2 ^ 53 → (Qabs (x + y) <= inject_Z k)%Q →
  add (Finite (Qred x)) (Finite (Qred y)) = Finite (Qred (nearest (x + y))).
Proof.
  intros Hk Hb. cbn [add].
  assert (E : (Qred x + Qred y == x + y)%Q) by (by rewrite !Qred_correct).
  rewrite (round_comp _ _ E). by apply (round_bounded _ k).
Qed.

(** A positive result is delivered as the rounded value or as the
    positive infinity. *)
Lemma round_pos_cases (x : Q) :
  (0 < x)%Q → round x = Infinite true ∨ round x = Finite (Qred (nearest x)).
Proof.
  intros Hx. unfold round.
  assert (E : Qle_bool 0 x = true) by (apply Qle_bool_iff; lra).
  rewrite E. cbv zeta.
  destruct (Qle_bool (pow2 1024) _); [by left|by right].
Qed.

(** A power of two within the exponent range is a value of the type. *)
Lemma nearest_pow2 (e : Z) : -1074 ≤ e → (nearest (pow2 e) == pow2 e)%Q.
Proof.
  intros He.
  assert (E : (pow2 e == inject_Z 1 * pow2 e)%Q) by (change (inject_Z 1) with 1%Q; ring).
  rewrite (nearest_comp _ _ E), nearest_dyadic by (done || lia). by rewrite <- E.
Qed.

(** Doubling a value of the type is exact. *)
Lemma nearest_double (x : Q) : (nearest x == x)%Q → (nearest (x * 2) == x * 2)%Q.
Proof.
  intros Hr. destruct (Qeq_dec x 0) as [E|Hx].
  - assert (E' : (x * 2 == 0)%Q) by (rewrite E; ring).
    by rewrite (nearest_zero _ E'), E'.
  - rewrite (nearest_nonzero x Hx) in Hr.
    set (e := ulpExponent x) in *. set (M := roundHalfEven (x / pow2 e)) in *.
    destruct (ilog2_spec x Hx) as [H1 H2].
    assert (Hlog : ilog2 (x * 2) = ilog2 x + 1).
    { apply ilog2_unique.
      - rewrite Qabs_Qmult. change (Qabs 2) with 2%Q. rewrite pow2_succ. lra.
      - rewrite Qabs_Qmult. change (Qabs 2) with 2%Q. rewrite pow2_succ. lra. }
    pose proof (pow2_pos e) as Hpe.
    destruct (Z_le_gt_dec (-1074) (ilog2 x - 52)) as [Hn|Hs].
    + assert (He : ulpExponent (x * 2) = e + 1).
      { unfold e, ulpExponent. rewrite Hlog. lia. }
      apply (nearest_on_grid _ M). rewrite He, pow2_succ. rewrite <- Hr at 1. ring.
    + assert (He : ulpExponent (x * 2) = e).
      { unfold e, ulpExponent. rewrite Hlog. lia. }
      apply (nearest_on_grid _ (M * 2)). rewrite He, inject_Z_mult.
      rewrite <- Hr at 1. change (inject_Z 2) with 2%Q. ring.
Qed.

End Operations.

Section JitterArithmetic.
Import Binary64.

(** The Number [0.1] is [1/10] and [2^-54] of it. *)
Lemma nearest_tenth :
  (nearest (1 # 10) == (1 # 10) * (1 + pow2 (-54)))%Q.
Proof. reflexivity. Qed.

Lemma Qabs_mult_le (a b A B : Q) :
  (Qabs a <= A)%Q → (Qabs b <= B)%Q → (Qabs (a * b) <= A * B)%Q.
Proof.
  intros Ha Hb. rewrite Qabs_Qmult.
  pose proof (Qabs_nonneg a). pose proof (Qabs_nonneg b).
  set (x := Qabs a) in *. set (y := Qabs b) in *. nra.
Qed.

Lemma Qabs_bound (x e : Q) : (- e <= x)%Q → (x <= e)%Q → (Qabs x <= e)%Q.
Proof. intros. by apply Qabs_Qle_condition. Qed.

Lemma Qabs_unbound (x e : Q) : (Qabs x <= e)%Q → (- e <= x)%Q ∧ (x <= e)%Q.
Proof. intros. by apply Qabs_Qle_condition. Qed.

(** The jitter amplitude [delay * 0.1], for a delay up to the cap: within
    [2^-38] of a tenth of the delay. *)
Lemma amplitude_bounds (d : Z) :
  1 ≤ d ≤ 300000 →
  (0 <= nearest (inject_Z d * nearest (1 # 10)))%Q
  ∧ (Qabs (nearest (inject_Z d * nearest (1 # 10)) - inject_Z d * (1 # 10))
     <= pow2 (-38))%Q.
Proof.
  intros Hd.
  assert (D1 : (1 <= inject_Z d)%Q) by (change 1%Q with (inject_Z 1); rewrite <- Zle_Qle; lia).
  assert (D2 : (inject_Z d <= 300000)%Q)
    by (change 300000%Q with (inject_Z 300000); rewrite <- Zle_Qle; lia).
  set (D := inject_Z d) in *.
  set (x := (D * nearest (1 # 10))%Q).
  assert (Ex : (x == D * (1 # 10) + D * (1 # 10) * pow2 (-54))%Q).
  { unfold x. rewrite nearest_tenth. ring. }
  assert (P54 : (pow2 (-54) == 1 # 18014398509481984)%Q) by reflexivity.
  assert (P39 : (pow2 (-39) == 1 # 549755813888)%Q) by reflexivity.
  assert (P38 : (pow2 (-38) == 1 # 274877906944)%Q) by reflexivity.
  assert (P15 : (pow2 15 == 32768)%Q) by reflexivity.
  assert (Hx0 : (0 <= x)%Q) by (rewrite Ex, P54; nra).
  assert (Hx1 : (x <= 30001)%Q) by (rewrite Ex, P54; nra).
  split; [by apply nearest_nonneg|].
  assert (Herr : (Qabs (nearest x - x) <= pow2 (14 - 53))%Q).
  { apply nearest_abs_error; [|lia]. rewrite Qabs_pos by done.
    change (14 + 1) with 15. rewrite P15. lra. }
  change (14 - 53) with (-39) in Herr. rewrite P39 in Herr.
  apply Qabs_unbound in Herr. destruct Herr as [E1 E2].
  assert (Hlo : (0 <= x - D * (1 # 10))%Q) by (rewrite Ex, P54; nra).
  assert (Hhi : (x - D * (1 # 10) <= 1 # 549755813888)%Q) by (rewrite Ex, P54; nra).
  set (N := nearest x) in *.
  rewrite P38. apply Qabs_bound; lra.
Qed.

(** When the delay is a multiple of 10 the amplitude is exactly its
    tenth. *)
Lemma amplitude_exact (k : Z) :
  1 ≤ k ≤ 30000 →
  (nearest (inject_Z (10 * k) * nearest (1 # 10)) == inject_Z k)%Q.
Proof.
  intros Hk.
  assert (E : (inject_Z (10 * k) * nearest (1 # 10)
               == inject_Z k + inject_Z k * pow2 (-54))%Q).
  { rewrite nearest_tenth, inject_Z_mult. change (inject_Z 10) with 10%Q. field. }
  rewrite (nearest_comp _ _ E).
  assert (K1 : (1 <= inject_Z k)%Q) by (change 1%Q with (inject_Z 1); rewrite <- Zle_Qle; lia).
  pose proof (pow2_pos (-54)) as Hp.
  apply nearest_absorbs.
  - lia.
  - nra.
  - rewrite <- Qmult_assoc, <- pow2_add. change (pow2 (-54 + 54)) with 1%Q. lra.
Qed.

(** The factor [Math.random() * 2 - 1], for a draw in [0, 1): between -1
    and 1, and within [2^-52] of [2 r - 1]. *)
Lemma factor_bounds (r : Q) :
  (0 <= r)%Q → (r < 1)%Q →
  (-1 <= nearest (nearest (r * 2) - 1))%Q
  ∧ (nearest (nearest (r * 2) - 1) <= 1)%Q
  ∧ (Qabs (nearest (nearest (r * 2) - 1) - (2 * r - 1)) <= pow2 (-52))%Q.
Proof.
  intros Hr0 Hr1.
  assert (T0 : (0 <= nearest (r * 2))%Q) by (apply nearest_nonneg; lra).
  assert (T2 : (nearest (r * 2) <= 2)%Q).
  { apply (nearest_le_Z _ 2); [lia|]. change (inject_Z 2) with 2%Q. lra. }
  assert (P53 : (pow2 (-53) == 1 # 9007199254740992)%Q) by reflexivity.
  assert (P52 : (pow2 (-52) == 1 # 4503599627370496)%Q) by reflexivity.
  assert (Et : (Qabs (nearest (r * 2) - r * 2) <= pow2 (0 - 53))%Q).
  { apply nearest_abs_error; [|lia]. rewrite Qabs_pos by lra.
    change (pow2 (0 + 1)) with 2%Q. lra. }
  set (t := nearest (r * 2)) in *.
  assert (U0 : (-1 <= nearest (t - 1))%Q).
  { apply (nearest_ge_Z _ (-1)); [lia|]. change (inject_Z (-1)) with (-1)%Q. lra. }
  assert (U1 : (nearest (t - 1) <= 1)%Q).
  { apply (nearest_le_Z _ 1); [lia|]. change (inject_Z 1) with 1%Q. lra. }
  assert (Eu : (Qabs (nearest (t - 1) - (t - 1)) <= pow2 (0 - 53))%Q).
  { apply nearest_abs_error; [|lia]. change (pow2 (0 + 1)) with 2%Q.
    apply Qle_lt_trans with 1%Q; [|lra]. apply Qabs_bound; lra. }
  split; [done|]. split; [done|].
  change (0 - 53) with (-53) in Et, Eu. rewrite P53 in Et, Eu. rewrite P52.
  apply Qabs_unbound in Et, Eu. destruct Et, Eu.
  apply Qabs_bound; lra.
Qed.

Lemma factor_mono (r r' : Q) :
  (r <= r')%Q →
  (nearest (nearest (r * 2) - 1) <= nearest (nearest (r' * 2) - 1))%Q.
Proof.
  intros H. apply nearest_mono.
  assert (nearest (r * 2) <= nearest (r' * 2))%Q by (apply nearest_mono; lra).
  lra.
Qed.

(** The jitter is within [2^-36] of the exact one. *)
Lemma jitter_error (d : Z) (J u w : Q) :
  1 ≤ d ≤ 300000 →
  (Qabs (J - inject_Z d * (1 # 10)) <= pow2 (-38))%Q →
  (Qabs u <= 1)%Q → (Qabs (u - w) <= pow2 (-52))%Q →
  (Qabs (nearest (J * u) - inject_Z d * (1 # 10) * w) <= pow2 (-36))%Q.
Proof.
  intros Hd HJ Hu Hw.
  assert (D1 : (1 <= inject_Z d)%Q) by (change 1%Q with (inject_Z 1); rewrite <- Zle_Qle; lia).
  assert (D2 : (inject_Z d <= 300000)%Q)
    by (change 300000%Q with (inject_Z 300000); rewrite <- Zle_Qle; lia).
  set (D := inject_Z d) in *.
  assert (P52 : (pow2 (-52) == 1 # 4503599627370496)%Q) by reflexivity.
  assert (P39 : (pow2 (-39) == 1 # 549755813888)%Q) by reflexivity.
  assert (P38 : (pow2 (-38) == 1 # 274877906944)%Q) by reflexivity.
  assert (P36 : (pow2 (-36) == 1 # 68719476736)%Q) by reflexivity.
  assert (P15 : (pow2 15 == 32768)%Q) by reflexivity.
  rewrite P38 in HJ. rewrite P52 in Hw.
  assert (HJa : (Qabs J <= 30001)%Q).
  { apply Qabs_unbound in HJ. destruct HJ. apply Qabs_bound; lra. }
  pose proof (Qabs_mult_le J u 30001 1 HJa Hu) as HJu.
  assert (E3 : (Qabs (nearest (J * u) - J * u) <= pow2 (14 - 53))%Q).
  { apply nearest_abs_error; [|lia]. change (14 + 1) with 15. rewrite P15. lra. }
  change (14 - 53) with (-39) in E3. rewrite P39 in E3.
  set (j := nearest (J * u)) in *.
  assert (E1 : (Qabs ((J - D * (1 # 10)) * u) <= (1 # 274877906944) * 1)%Q)
    by (by apply Qabs_mult_le).
  assert (E2 : (Qabs (D * (1 # 10) * (u - w)) <= 30000 * (1 # 4503599627370496))%Q).
  { apply Qabs_mult_le; [|done]. apply Qabs_bound; lra. }
  assert (Id : (J * u - D * (1 # 10) * w
                == (J - D * (1 # 10)) * u + D * (1 # 10) * (u - w))%Q) by ring.
  apply Qabs_unbound in E1, E2, E3.
  destruct E1 as [E1 E1'], E2 as [E2 E2'], E3 as [E3 E3'].
  set (p1 := ((J - D * (1 # 10)) * u)%Q) in *.
  set (p2 := (D * (1 # 10) * (u - w))%Q) in *.
  set (ju := (J * u)%Q) in *. set (dw := (D * (1 # 10) * w)%Q) in *.
  rewrite P36. apply Qabs_bound; lra.
Qed.

(** The sum before [Math.floor] is within [2^-34] of the exact one. *)
Lemma sum_error (d : Z) (J u w : Q) :
  1 ≤ d ≤ 300000 →
  (Qabs (J - inject_Z d * (1 # 10)) <= pow2 (-38))%Q →
  (Qabs u <= 1)%Q → (Qabs (u - w) <= pow2 (-52))%Q →
  (Qabs (nearest (inject_Z d + nearest (J * u))
         - (inject_Z d + inject_Z d * (1 # 10) * w)) <= pow2 (-34))%Q.
Proof.
  intros Hd HJ Hu Hw.
  assert (D1 : (1 <= inject_Z d)%Q) by (change 1%Q with (inject_Z 1); rewrite <- Zle_Qle; lia).
  assert (D2 : (inject_Z d <= 300000)%Q)
    by (change 300000%Q with (inject_Z 300000); rewrite <- Zle_Qle; lia).
  set (D := inject_Z d) in *.
  assert (P52 : (pow2 (-52) == 1 # 4503599627370496)%Q) by reflexivity.
  assert (P39 : (pow2 (-39) == 1 # 549755813888)%Q) by reflexivity.
  assert (P38 : (pow2 (-38) == 1 # 274877906944)%Q) by reflexivity.
  assert (P35 : (pow2 (-35) == 1 # 34359738368)%Q) by reflexivity.
  assert (P34 : (pow2 (-34) == 1 # 17179869184)%Q) by reflexivity.
  assert (P15 : (pow2 15 == 32768)%Q) by reflexivity.
  assert (P19 : (pow2 19 == 524288)%Q) by reflexivity.
  rewrite P38 in HJ. rewrite P52 in Hw.
  assert (HJa : (Qabs J <= 30001)%Q).
  { apply Qabs_unbound in HJ. destruct HJ. apply Qabs_bound; lra. }
  pose proof (Qabs_mult_le J u 30001 1 HJa Hu) as HJu.
  assert (E3 : (Qabs (nearest (J * u) - J * u) <= pow2 (14 - 53))%Q).
  { apply nearest_abs_error; [|lia]. change (14 + 1) with 15. rewrite P15. lra. }
  change (14 - 53) with (-39) in E3. rewrite P39 in E3.
  set (j := nearest (J * u)) in *.
  assert (Hj : (Qabs j <= 30002)%Q).
  { apply Qabs_unbound in E3, HJu. destruct E3, HJu. apply Qabs_bound; lra. }
  assert (E4 : (Qabs (nearest (D + j) - (D + j)) <= pow2 (18 - 53))%Q).
  { apply nearest_abs_error; [|lia]. change (18 + 1) with 19. rewrite P19.
    apply Qle_lt_trans with 330002%Q; [|reflexivity].
    apply Qabs_unbound in Hj. destruct Hj. apply Qabs_bound; lra. }
  change (18 - 53) with (-35) in E4. rewrite P35 in E4.
  assert (E1 : (Qabs ((J - D * (1 # 10)) * u) <= (1 # 274877906944) * 1)%Q)
    by (by apply Qabs_mult_le).
  assert (E2 : (Qabs (D * (1 # 10) * (u - w)) <= 30000 * (1 # 4503599627370496))%Q).
  { apply Qabs_mult_le; [|done]. apply Qabs_bound; lra. }
  assert (Id : (J * u - D * (1 # 10) * w
                == (J - D * (1 # 10)) * u + D * (1 # 10) * (u - w))%Q) by ring.
  apply Qabs_unbound in E1, E2, E3, E4.
  destruct E1 as [E1 E1'], E2 as [E2 E2'], E3 as [E3 E3'], E4 as [E4 E4'].
  set (p1 := ((J - D * (1 # 10)) * u)%Q) in *.
  set (p2 := (D * (1 # 10) * (u - w))%Q) in *.
  set (ju := (J * u)%Q) in *. set (dw := (D * (1 # 10) * w)%Q) in *.
  rewrite P34. apply Qabs_bound; lra.
Qed.

(** [Math.floor] of a value within [η] of an exact one. *)
Lemma floor_pinned (E s η : Q) :
  (Qabs (s - E) <= η)%Q → Qfloor (E - η) ≤ Qfloor s ≤ Qfloor (E + η).
Proof.
  intros H. apply Qabs_unbound in H. destruct H.
  split; apply Qfloor_resp_le; lra.
Qed.

End JitterArithmetic.

(** ** Reconnection scheduler: the delay *)

Section Backoff.
Import Binary64 ReconnectionManager.

Lemma Qmin_inject_Z (x y : Z) :
  (Qmin (inject_Z x) (inject_Z y) == inject_Z (Z.min x y))%Q.
Proof.
  destruct (Z.min_spec x y) as [[Hlt ->]|[Hle ->]].
  - apply Q.min_l. rewrite <- Zle_Qle. lia.
  - apply Q.min_r. rewrite <- Zle_Qle. lia.
Qed.

Lemma Qeq_bool_pos (x : Q) : (0 < x)%Q → Qeq_bool x 0 = false.
Proof.
  intros H. destruct (Qeq_bool x 0) eqn:E; [|done].
  apply Qeq_bool_iff in E. lra.
Qed.

Lemma Qle_bool_pos (x : Q) : (0 < x)%Q → Qle_bool 0 x = true.
Proof. intros H. apply Qle_bool_iff. lra. Qed.

Lemma Qle_bool_gt (x y : Q) : (y < x)%Q → Qle_bool x y = false.
Proof.
  intros H. destruct (Qle_bool x y) eqn:E; [|done].
  apply Qle_bool_iff in E. lra.
Qed.

(** The product [baseDelay * 2^attempt] as a Number: exact up to the cap,
    and above the cap once the exact product is. *)
Lemma product_cases (base a : Z) :
  0 < base → 0 ≤ a →
  (base * 2 ^ a ≤ 300000 →
   mul (ofZ base) (pow (inject_Z 2) a) = Finite (inject_Z (base * 2 ^ a)))
  ∧ (300000 < base * 2 ^ a →
     mul (ofZ base) (pow (inject_Z 2) a) = Infinite true
     ∨ ∃ x, mul (ofZ base) (pow (inject_Z 2) a) = Finite x ∧ (300000 < x)%Q).
Proof.
  intros Hb Ha.
  assert (Hpa : 1 ≤ 2 ^ a) by (apply (Z.pow_le_mono_r 2 0 a); lia).
  assert (Epow : pow (inject_Z 2) a = round (pow2 a)) by reflexivity.
  rewrite Epow. split.
  - intros Hle.
    assert (base ≤ 300000) by nia. assert (2 ^ a ≤ 300000) by nia.
    unfold ofZ. rewrite (round_Z base) by lia.
    rewrite (round_comp _ _ (pow2_Z a Ha)), (round_Z (2 ^ a)) by lia.
    cbn [mul]. rewrite <- inject_Z_mult. apply round_Z. lia.
  - intros Hgt.
    pose proof (pow2_pos a) as Hp2.
    assert (HB : (0 < inject_Z base)%Q)
      by (change 0%Q with (inject_Z 0); rewrite <- Zlt_Qlt; lia).
    set (m0 := Z.min base (2 ^ 53)).
    assert (HA : (inject_Z m0 <= nearest (inject_Z base))%Q).
    { apply nearest_ge_Z; [unfold m0; lia|]. rewrite <- Zle_Qle. unfold m0. lia. }
    assert (Hm0 : (300001 <= inject_Z m0 * pow2 a)%Q).
    { rewrite (pow2_Z a Ha), <- inject_Z_mult.
      change 300001%Q with (inject_Z 300001). rewrite <- Zle_Qle.
      unfold m0. destruct (Z.min_spec base (2 ^ 53)) as [[_ ->]|[_ ->]]; nia. }
    assert (Hm1 : (1 <= inject_Z m0)%Q).
    { change 1%Q with (inject_Z 1). rewrite <- Zle_Qle. unfold m0. lia. }
    assert (HP : (nearest (pow2 a) == pow2 a)%Q) by (apply nearest_pow2; lia).
    assert (HA' : (0 < Qred (nearest (inject_Z base)))%Q) by (rewrite Qred_correct; lra).
    assert (HP' : (0 < Qred (nearest (pow2 a)))%Q) by (rewrite Qred_correct; lra).
    unfold ofZ.
    destruct (round_pos_cases _ HB) as [-> | ->],
             (round_pos_cases _ Hp2) as [-> | ->].
    + by left.
    + left. cbn [mul]. by rewrite (Qeq_bool_pos _ HP'), (Qle_bool_pos _ HP').
    + left. cbn [mul]. by rewrite (Qeq_bool_pos _ HA'), (Qle_bool_pos _ HA').
    + cbn [mul].
      set (A := Qred (nearest (inject_Z base))) in *.
      set (P := Qred (nearest (pow2 a))) in *.
      assert (EA : (A == nearest (inject_Z base))%Q) by apply Qred_correct.
      assert (EP : (P == pow2 a)%Q) by (unfold P; by rewrite Qred_correct).
      assert (Hprod : (inject_Z 300001 <= A * P)%Q).
      { change (inject_Z 300001) with 300001%Q. rewrite EP.
        set (N := nearest (inject_Z base)) in *. nra. }
      assert (Hpos : (0 < A * P)%Q) by nra.
      destruct (round_pos_cases _ Hpos) as [-> | ->]; [by left|].
      right. eexists. split; [done|]. rewrite Qred_correct.
      pose proof (nearest_ge_Z (A * P) 300001 ltac:(lia) Hprod) as Hge.
      change (inject_Z 300001) with 300001%Q in Hge. lra.
Qed.

(** The delay before jitter is the integer
    [min(baseDelay * 2^attempt, 300000)], exactly. *)
Lemma nominalDelay_value cfg (a : Z) :
  backoffMultiplier cfg = 2 → maxDelay cfg = 300000 →
  0 < baseDelay cfg → 0 ≤ a →
  nominalDelay cfg a = Finite (inject_Z (Z.min (baseDelay cfg * 2 ^ a) 300000)).
Proof.
  intros Hm HM Hb Ha. unfold nominalDelay. rewrite Hm, HM.
  assert (EM : ofZ 300000 = Finite (inject_Z 300000)) by (apply round_Z; lia).
  rewrite EM.
  destruct (product_cases (baseDelay cfg) a Hb Ha) as [Hlow Hhigh].
  destruct (Z_le_gt_dec (baseDelay cfg * 2 ^ a) 300000) as [Hle|Hgt].
  - rewrite (Hlow Hle), Z.min_l by done. cbn [min].
    assert (E : Qle_bool (inject_Z (baseDelay cfg * 2 ^ a)) (inject_Z 300000) = true).
    { apply Qle_bool_iff. by rewrite <- Zle_Qle. }
    by rewrite E.
  - rewrite Z.min_r by lia.
    destruct (Hhigh ltac:(lia)) as [-> | (x & -> & Hx)]; [done|].
    cbn [min]. by rewrite (Qle_bool_gt x (inject_Z 300000)).
Qed.

(** [calculateDelay] as one expression: each operation delivers the
    rounded exact result, and none overflows. *)
Lemma calculateDelay_unfold cfg (a : Z) (r : Q) :
  backoffMultiplier cfg = 2 → maxDelay cfg = 300000 →
  jitterFactor cfg = (1 # 10)%Q →
  0 < baseDelay cfg → 0 ≤ a → (0 <= r)%Q → (r < 1)%Q →
  let d := Z.min (baseDelay cfg * 2 ^ a) 300000 in
  jitterOf cfg (nominalDelay cfg a) r
  = Finite (Qred (nearest (nearest (inject_Z d * nearest (1 # 10))
                           * nearest (nearest (r * 2) - 1))))
  ∧ calculateDelay cfg a r
    = Qfloor (nearest (inject_Z d
                       + nearest (nearest (inject_Z d * nearest (1 # 10))
                                  * nearest (nearest (r * 2) - 1)))).
Proof.
  intros Hm HM Hj Hb Ha Hr0 Hr1 d.
  assert (Hpa : 1 ≤ 2 ^ a) by (apply (Z.pow_le_mono_r 2 0 a); lia).
  assert (Hd : 1 ≤ d ≤ 300000) by (unfold d; nia).
  unfold calculateDelay. rewrite (nominalDelay_value cfg a Hm HM Hb Ha). fold d.
  unfold jitterOf. rewrite Hj.
  destruct (amplitude_bounds d Hd) as [J0 J1].
  destruct (factor_bounds r Hr0 Hr1) as (U0 & U1 & U2).
  assert (P38 : (pow2 (-38) == 1 # 274877906944)%Q) by reflexivity.
  rewrite P38 in J1. apply Qabs_unbound in J1. destruct J1 as [J1 J2].
  assert (D1 : (1 <= inject_Z d)%Q) by (change 1%Q with (inject_Z 1); rewrite <- Zle_Qle; lia).
  assert (D2 : (inject_Z d <= 300000)%Q)
    by (change 300000%Q with (inject_Z 300000); rewrite <- Zle_Qle; lia).
  assert (T0 : (0 <= nearest (r * 2))%Q) by (apply nearest_nonneg; lra).
  assert (T2 : (nearest (r * 2) <= 2)%Q).
  { apply (nearest_le_Z _ 2); [lia|]. change (inject_Z 2) with 2%Q. lra. }
  assert (C0 : (0 <= nearest (1 # 10))%Q) by (by apply nearest_nonneg).
  assert (C1 : (nearest (1 # 10) <= 1)%Q) by (by apply (nearest_le_Z _ 1)).
  (* 0.1 *)
  assert (E1 : round (1 # 10) = Finite (Qred (nearest (1 # 10))))
    by (by apply (round_bounded _ 1)).
  (* delay * 0.1 *)
  assert (E2 : mul (Finite (inject_Z d)) (Finite (Qred (nearest (1 # 10))))
               = Finite (Qred (nearest (inject_Z d * nearest (1 # 10))))).
  { rewrite <- (Qred_inject_Z d) at 1. apply (mul_red _ _ 300000); [lia|].
    change (inject_Z 300000) with 300000%Q. apply Qabs_bound; nra. }
  (* Math.random() * 2 *)
  assert (E3 : mul (Finite r) (Finite 2) = Finite (Qred (nearest (r * 2)))).
  { cbn [mul]. apply (round_bounded _ 2); [lia|].
    change (inject_Z 2) with 2%Q. apply Qabs_bound; lra. }
  (* ... - 1 *)
  assert (E4 : sub (Finite (Qred (nearest (r * 2)))) (Finite 1)
               = Finite (Qred (nearest (nearest (r * 2) - 1)))).
  { unfold sub. cbn [opp]. change (Finite (- (1))) with (Finite (Qred (- (1)))).
    apply (add_red _ _ 1); [lia|].
    change (inject_Z 1) with 1%Q. apply Qabs_bound; lra. }
  set (J := nearest (inject_Z d * nearest (1 # 10))) in *.
  set (u := nearest (nearest (r * 2) - 1)) in *.
  assert (HJu : (Qabs (J * u) <= 30001)%Q).
  { assert (Qabs (J * u) <= 30001 * 1)%Q; [|lra].
    apply Qabs_mult_le; apply Qabs_bound; lra. }
  (* the jitter *)
  assert (E5 : mul (Finite (Qred J)) (Finite (Qred u)) = Finite (Qred (nearest (J * u)))).
  { by apply (mul_red _ _ 30001). }
  assert (Hj' : (Qabs (nearest (J * u)) <= 30001)%Q).
  { by apply (nearest_abs_le_Z _ 30001). }
  (* delay + jitter *)
  assert (E6 : add (Finite (inject_Z d)) (Finite (Qred (nearest (J * u))))
               = Finite (Qred (nearest (inject_Z d + nearest (J * u))))).
  { rewrite <- (Qred_inject_Z d) at 1. apply (add_red _ _ 330001); [lia|].
    change (inject_Z 330001) with 330001%Q.
    apply Qabs_unbound in Hj'. destruct Hj'. apply Qabs_bound; lra. }
  rewrite E1, E2, E3, E4, E5, E6. split; [done|].
  cbn [floor toZ]. rewrite Qfloor_Z. apply Qfloor_comp, Qred_correct.
Qed.

End Backoff.

Section BackoffBand.
Import Binary64 ReconnectionManager.

Lemma inject_Z_range (d lo hi : Z) :
  lo ≤ d ≤ hi → (inject_Z lo <= inject_Z d)%Q ∧ (inject_Z d <= inject_Z hi)%Q.
Proof. intros [H1 H2]. split; by rewrite <- Zle_Qle. Qed.

(** The floored sum stays in the band from nine to eleven tenths of the
    delay, whatever the factor between -1 and 1. *)
Lemma floor_band (d : Z) (u : Q) :
  1 ≤ d ≤ 300000 → (-1 <= u)%Q → (u <= 1)%Q →
  9 * d / 10
  ≤ Qfloor (nearest (inject_Z d
                     + nearest (nearest (inject_Z d * nearest (1 # 10)) * u)))
  ≤ 11 * d / 10.
Proof.
  intros Hd Hu0 Hu1.
  destruct (inject_Z_range d 1 300000 Hd) as [D1 D2].
  change (inject_Z 1) with 1%Q in D1. change (inject_Z 300000) with 300000%Q in D2.
  destruct (Z.eq_dec (d mod 10) 0) as [Hz|Hnz].
  - (* the delay is a multiple of 10: every step is exact at the ends *)
    assert (Hk : d = 10 * (d / 10)).
    { pose proof (Z.div_mod d 10 ltac:(lia)). lia. }
    set (k := d / 10) in *.
    assert (Hk1 : 1 ≤ k ≤ 30000) by lia.
    assert (E9 : 9 * d / 10 = 9 * k).
    { replace (9 * d) with (9 * k * 10) by lia. apply Z.div_mul. lia. }
    assert (E11 : 11 * d / 10 = 11 * k).
    { replace (11 * d) with (11 * k * 10) by lia. apply Z.div_mul. lia. }
    rewrite E9, E11. rewrite Hk at 1 2 3 4.
    pose proof (amplitude_exact k Hk1) as HJ.
    set (J := nearest (inject_Z (10 * k) * nearest (1 # 10))) in *.
    destruct (inject_Z_range k 1 30000 Hk1) as [K1 K2].
    change (inject_Z 1) with 1%Q in K1. change (inject_Z 30000) with 30000%Q in K2.
    assert (Hj1 : (inject_Z (- k) <= nearest (J * u))%Q).
    { apply nearest_ge_Z; [lia|]. rewrite inject_Z_opp, HJ. nra. }
    assert (Hj2 : (nearest (J * u) <= inject_Z k)%Q).
    { apply nearest_le_Z; [lia|]. rewrite HJ. nra. }
    rewrite inject_Z_opp in Hj1.
    set (j := nearest (J * u)) in *.
    assert (Hs1 : (inject_Z (9 * k) <= nearest (inject_Z (10 * k) + j))%Q).
    { apply nearest_ge_Z; [lia|]. rewrite !inject_Z_mult.
      change (inject_Z 9) with 9%Q. change (inject_Z 10) with 10%Q. lra. }
    assert (Hs2 : (nearest (inject_Z (10 * k) + j) <= inject_Z (11 * k))%Q).
    { apply nearest_le_Z; [lia|]. rewrite !inject_Z_mult.
      change (inject_Z 11) with 11%Q. change (inject_Z 10) with 10%Q. lra. }
    split.
    + rewrite <- (Qfloor_Z (9 * k)). by apply Qfloor_resp_le.
    + rewrite <- (Qfloor_Z (11 * k)). by apply Qfloor_resp_le.
  - (* otherwise the ends of the band are at least a tenth from an
       integer, and the rounding errors are far below that *)
    destruct (amplitude_bounds d Hd) as [_ HJ].
    set (J := nearest (inject_Z d * nearest (1 # 10))) in *.
    assert (Hu : (Qabs u <= 1)%Q) by (apply Qabs_bound; lra).
    assert (Hw : (Qabs (u - u) <= pow2 (-52))%Q).
    { assert (E : (u - u == 0)%Q) by ring. rewrite E. done. }
    pose proof (sum_error d J u u Hd HJ Hu Hw) as Hs.
    assert (P34 : (pow2 (-34) == 1 # 17179869184)%Q) by reflexivity.
    rewrite P34 in Hs. apply Qabs_unbound in Hs. destruct Hs as [S1 S2].
    set (s := nearest (inject_Z d + nearest (J * u))) in *.
    set (D := inject_Z d) in *.
    pose proof (Z.div_mod d 10 ltac:(lia)) as Md.
    pose proof (Z.mod_pos_bound d 10 ltac:(lia)) as Bd.
    pose proof (Z.div_mod (9 * d) 10 ltac:(lia)) as M9.
    pose proof (Z.mod_pos_bound (9 * d) 10 ltac:(lia)) as B9.
    pose proof (Z.div_mod (11 * d) 10 ltac:(lia)) as M11.
    pose proof (Z.mod_pos_bound (11 * d) 10 ltac:(lia)) as B11.
    set (q9 := 9 * d / 10) in *. set (m9 := (9 * d) mod 10) in *.
    set (q11 := 11 * d / 10) in *. set (m11 := (11 * d) mod 10) in *.
    assert (Hm9 : 1 ≤ m9 ≤ 9) by lia.
    assert (Hm11 : 1 ≤ m11 ≤ 9) by lia.
    assert (Q9 : (9 * D == 10 * inject_Z q9 + inject_Z m9)%Q).
    { unfold D. change 9%Q with (inject_Z 9). change 10%Q with (inject_Z 10).
      rewrite <- !inject_Z_mult, <- inject_Z_plus. by rewrite M9. }
    assert (Q11 : (11 * D == 10 * inject_Z q11 + inject_Z m11)%Q).
    { unfold D. change 11%Q with (inject_Z 11). change 10%Q with (inject_Z 10).
      rewrite <- !inject_Z_mult, <- inject_Z_plus. by rewrite M11. }
    destruct (inject_Z_range m9 1 9 Hm9) as [A1 A2].
    destruct (inject_Z_range m11 1 9 Hm11) as [B1 B2].
    change (inject_Z 1) with 1%Q in A1, B1. change (inject_Z 9) with 9%Q in A2, B2.
    assert (Hprod1 : (- (D * (1 # 10)) <= D * (1 # 10) * u)%Q) by nra.
    assert (Hprod2 : (D * (1 # 10) * u <= D * (1 # 10))%Q) by nra.
    set (pu := (D * (1 # 10) * u)%Q) in *.
    split.
    + rewrite <- (Qfloor_Z q9). apply Qfloor_resp_le. lra.
    + assert (Hlt : (s < inject_Z (q11 + 1))%Q).
      { rewrite inject_Z_plus. change (inject_Z 1) with 1%Q. lra. }
      pose proof (Qfloor_le s) as Hfl.
      assert (Hz : (inject_Z (Qfloor s) < inject_Z (q11 + 1))%Q) by lra.
      rewrite <- Zlt_Qlt in Hz. lia.
Qed.

(** The factor at the two draws that give the lowest delay and the delay
    without jitter. *)
Lemma factor_low : (nearest (nearest (0 * 2) - 1) == -1)%Q.
Proof. reflexivity. Qed.

Lemma factor_mid : (nearest (nearest ((1 # 2) * 2) - 1) == 0)%Q.
Proof. reflexivity. Qed.

Lemma floor_low (d : Z) (u : Q) :
  1 ≤ d ≤ 300000 → (u == -1)%Q →
  Qfloor (nearest (inject_Z d
                   + nearest (nearest (inject_Z d * nearest (1 # 10)) * u)))
  = 9 * d / 10.
Proof.
  intros Hd Hu.
  assert (Hu0 : (-1 <= u)%Q) by lra. assert (Hu1 : (u <= 1)%Q) by lra.
  destruct (floor_band d u Hd Hu0 Hu1) as [Hlo _].
  destruct (inject_Z_range d 1 300000 Hd) as [D1 D2].
  change (inject_Z 1) with 1%Q in D1. change (inject_Z 300000) with 300000%Q in D2.
  destruct (amplitude_bounds d Hd) as [_ HJ].
  set (J := nearest (inject_Z d * nearest (1 # 10))) in *.
  assert (Hua : (Qabs u <= 1)%Q) by (apply Qabs_bound; lra).
  assert (Hw : (Qabs (u - -1) <= pow2 (-52))%Q).
  { assert (E : (u - -1 == 0)%Q) by lra. rewrite E. done. }
  pose proof (sum_error d J u (-1) Hd HJ Hua Hw) as Hs.
  assert (P34 : (pow2 (-34) == 1 # 17179869184)%Q) by reflexivity.
  rewrite P34 in Hs. apply Qabs_unbound in Hs. destruct Hs as [_ S2].
  set (s := nearest (inject_Z d + nearest (J * u))) in *.
  set (D := inject_Z d) in *.
  pose proof (Z.div_mod (9 * d) 10 ltac:(lia)) as M9.
  pose proof (Z.mod_pos_bound (9 * d) 10 ltac:(lia)) as B9.
  set (q9 := 9 * d / 10) in *. set (m9 := (9 * d) mod 10) in *.
  assert (Q9 : (9 * D == 10 * inject_Z q9 + inject_Z m9)%Q).
  { unfold D. change 9%Q with (inject_Z 9). change 10%Q with (inject_Z 10).
    rewrite <- !inject_Z_mult, <- inject_Z_plus. by rewrite M9. }
  destruct (inject_Z_range m9 0 9 ltac:(lia)) as [A1 A2].
  change (inject_Z 0) with 0%Q in A1. change (inject_Z 9) with 9%Q in A2.
  assert (Hlt : (s < inject_Z (q9 + 1))%Q).
  { rewrite inject_Z_plus. change (inject_Z 1) with 1%Q. lra. }
  pose proof (Qfloor_le s) as Hfl.
  assert (Hz : (inject_Z (Qfloor s) < inject_Z (q9 + 1))%Q) by lra.
  rewrite <- Zlt_Qlt in Hz. lia.
Qed.

Lemma floor_mid (d : Z) (u : Q) :
  1 ≤ d ≤ 300000 → (u == 0)%Q →
  Qfloor (nearest (inject_Z d
                   + nearest (nearest (inject_Z d * nearest (1 # 10)) * u)))
  = d.
Proof.
  intros Hd Hu.
  set (J := nearest (inject_Z d * nearest (1 # 10))).
  assert (E0 : (J * u == 0)%Q) by (rewrite Hu; ring).
  rewrite (nearest_zero _ E0).
  assert (E1 : (inject_Z d + 0 == inject_Z d)%Q) by ring.
  rewrite (Qfloor_comp _ _ (nearest_comp _ _ E1)).
  rewrite (Qfloor_comp _ _ (nearest_Z d ltac:(lia))). apply Qfloor_Z.
Qed.

Lemma floor_mono (d : Z) (u u' : Q) :
  1 ≤ d ≤ 300000 → (u <= u')%Q →
  Qfloor (nearest (inject_Z d
                   + nearest (nearest (inject_Z d * nearest (1 # 10)) * u)))
  ≤ Qfloor (nearest (inject_Z d
                     + nearest (nearest (inject_Z d * nearest (1 # 10)) * u'))).
Proof.
  intros Hd Hu. destruct (amplitude_bounds d Hd) as [J0 _].
  set (J := nearest (inject_Z d * nearest (1 # 10))) in *.
  apply Qfloor_resp_le, nearest_mono.
  assert (nearest (J * u) <= nearest (J * u'))%Q by (apply nearest_mono; nra).
  lra.
Qed.

Lemma effective_delay cfg (a : Z) :
  0 < baseDelay cfg → 0 ≤ a → 1 ≤ Z.min (baseDelay cfg * 2 ^ a) 300000 ≤ 300000.
Proof.
  intros Hb Ha.
  assert (Hpa : 1 ≤ 2 ^ a) by (apply (Z.pow_le_mono_r 2 0 a); lia).
  nia.
Qed.

Section Constructed.

Variable cfg : Settings.
Hypothesis Hm : backoffMultiplier cfg = 2.
Hypothesis HM : maxDelay cfg = 300000.
Hypothesis Hj : jitterFactor cfg = (1 # 10)%Q.
Hypothesis Hb : 0 < baseDelay cfg.

Lemma exactDelay_value (a : Z) (r : Q) :
  0 ≤ a →
  (exactDelay cfg a r
   == inject_Z (Z.min (baseDelay cfg * 2 ^ a) 300000)
      + inject_Z (Z.min (baseDelay cfg * 2 ^ a) 300000) * (1 # 10) * (2 * r - 1))%Q.
Proof.
  intros Ha. unfold exactDelay. rewrite Hm, HM, Hj. cbv zeta.
  assert (Ep : (inject_Z (baseDelay cfg) * inject_Z 2 ^ a
                == inject_Z (baseDelay cfg * 2 ^ a))%Q).
  { rewrite inject_Z_mult. change (inject_Z 2 ^ a)%Q with (pow2 a).
    by rewrite (pow2_Z a Ha). }
  assert (Ed : (Qmin (inject_Z (baseDelay cfg) * inject_Z 2 ^ a) (inject_Z 300000)
                == inject_Z (Z.min (baseDelay cfg * 2 ^ a) 300000))%Q).
  { destruct (Z.min_spec (baseDelay cfg * 2 ^ a) 300000) as [[Hlt ->]|[Hle ->]].
    - rewrite Q.min_l; [done|]. rewrite Ep, <- Zle_Qle. lia.
    - rewrite Q.min_r; [done|]. rewrite Ep, <- Zle_Qle. lia. }
  by rewrite Ed.
Qed.

(** The delay is the floor of a value within a billionth of the exact
    one. *)
Lemma calculateDelay_near_exact (a : Z) (r : Q) :
  0 ≤ a → (0 <= r)%Q → (r < 1)%Q →
  Qfloor (exactDelay cfg a r - (1 # 1000000000))
  ≤ calculateDelay cfg a r
  ≤ Qfloor (exactDelay cfg a r + (1 # 1000000000)).
Proof.
  intros Ha Hr0 Hr1.
  destruct (calculateDelay_unfold cfg a r Hm HM Hj Hb Ha Hr0 Hr1) as [_ ->].
  pose proof (effective_delay cfg a Hb Ha) as Hd.
  pose proof (exactDelay_value a r Ha) as Ex.
  set (d := Z.min (baseDelay cfg * 2 ^ a) 300000) in *.
  destruct (amplitude_bounds d Hd) as [_ HJ].
  destruct (factor_bounds r Hr0 Hr1) as (U0 & U1 & U2).
  assert (Hu : (Qabs (nearest (nearest (r * 2) - 1)) <= 1)%Q) by (apply Qabs_bound; lra).
  pose proof (sum_error d _ _ _ Hd HJ Hu U2) as Hs.
  assert (P34 : (pow2 (-34) == 1 # 17179869184)%Q) by reflexivity.
  rewrite P34, <- Ex in Hs.
  apply floor_pinned. apply Qabs_unbound in Hs. destruct Hs.
  apply Qabs_bound; lra.
Qed.

(** The jitter is a finite Number within a billionth of the exact
    [d * jitterFactor * (2 r - 1)]. *)
Lemma jitter_near_exact (a : Z) (r : Q) :
  0 ≤ a → (0 <= r)%Q → (r < 1)%Q →
  ∃ j, jitterOf cfg (nominalDelay cfg a) r = Finite j
       ∧ (Qabs (j - inject_Z (Z.min (baseDelay cfg * 2 ^ a) 300000)
                    * jitterFactor cfg * (2 * r - 1))
          <= 1 # 1000000000)%Q.
Proof.
  intros Ha Hr0 Hr1.
  destruct (calculateDelay_unfold cfg a r Hm HM Hj Hb Ha Hr0 Hr1) as [-> _].
  eexists. split; [done|]. rewrite Hj, Qred_correct.
  pose proof (effective_delay cfg a Hb Ha) as Hd.
  set (d := Z.min (baseDelay cfg * 2 ^ a) 300000) in *.
  destruct (amplitude_bounds d Hd) as [_ HJ].
  destruct (factor_bounds r Hr0 Hr1) as (U0 & U1 & U2).
  assert (Hu : (Qabs (nearest (nearest (r * 2) - 1)) <= 1)%Q) by (apply Qabs_bound; lra).
  pose proof (jitter_error d _ _ _ Hd HJ Hu U2) as Hs.
  assert (P36 : (pow2 (-36) == 1 # 68719476736)%Q) by reflexivity.
  rewrite P36 in Hs. apply Qabs_unbound in Hs. destruct Hs.
  apply Qabs_bound; lra.
Qed.

(** The delay lies between nine and eleven tenths of the delay before
    jitter, rounded down. *)
Lemma calculateDelay_band (a : Z) (r : Q) :
  0 ≤ a → (0 <= r)%Q → (r < 1)%Q →
  9 * Z.min (baseDelay cfg * 2 ^ a) 300000 / 10
  ≤ calculateDelay cfg a r
  ≤ 11 * Z.min (baseDelay cfg * 2 ^ a) 300000 / 10.
Proof.
  intros Ha Hr0 Hr1.
  destruct (calculateDelay_unfold cfg a r Hm HM Hj Hb Ha Hr0 Hr1) as [_ ->].
  destruct (factor_bounds r Hr0 Hr1) as (U0 & U1 & _).
  apply floor_band; [by apply effective_delay|done|done].
Qed.

Lemma calculateDelay_lowest (a : Z) :
  0 ≤ a →
  calculateDelay cfg a 0 = 9 * Z.min (baseDelay cfg * 2 ^ a) 300000 / 10.
Proof.
  intros Ha.
  destruct (calculateDelay_unfold cfg a 0 Hm HM Hj Hb Ha) as [_ ->]; [done..|].
  apply floor_low; [by apply effective_delay|apply factor_low].
Qed.

Lemma calculateDelay_middle (a : Z) :
  0 ≤ a →
  calculateDelay cfg a (1 # 2) = Z.min (baseDelay cfg * 2 ^ a) 300000.
Proof.
  intros Ha.
  destruct (calculateDelay_unfold cfg a (1 # 2) Hm HM Hj Hb Ha) as [_ ->]; [done..|].
  apply floor_mid; [by apply effective_delay|apply factor_mid].
Qed.

(** A larger draw never gives a shorter delay. *)
Lemma calculateDelay_draw_mono (a : Z) (r r' : Q) :
  0 ≤ a → (0 <= r)%Q → (r <= r')%Q → (r' < 1)%Q →
  calculateDelay cfg a r ≤ calculateDelay cfg a r'.
Proof.
  intros Ha Hr0 Hrr Hr1.
  destruct (calculateDelay_unfold cfg a r Hm HM Hj Hb Ha Hr0) as [_ ->]; [lra|].
  destruct (calculateDelay_unfold cfg a r' Hm HM Hj Hb Ha) as [_ ->]; [lra|done|].
  apply floor_mono; [by apply effective_delay|by apply factor_mono].
Qed.

(** Two draws that are Numbers and add up to 1 give opposite jitters. *)
Lemma jitter_symmetric (a : Z) (r r1 : Q) :
  0 ≤ a → (0 <= r)%Q → (r < 1)%Q → (0 <= r1)%Q → (r1 < 1)%Q →
  representable r → representable r1 → (r + r1 == 1)%Q →
  jitterOf cfg (nominalDelay cfg a) r1 = opp (jitterOf cfg (nominalDelay cfg a) r).
Proof.
  intros Ha Hr0 Hr1 Hr0' Hr1' [Rr _] [Rr1 _] Hsum.
  destruct (calculateDelay_unfold cfg a r Hm HM Hj Hb Ha Hr0 Hr1) as [-> _].
  destruct (calculateDelay_unfold cfg a r1 Hm HM Hj Hb Ha Hr0' Hr1') as [-> _].
  cbn [opp]. f_equal. rewrite <- Qred_opp. apply Qred_complete.
  set (J := nearest (inject_Z (Z.min (baseDelay cfg * 2 ^ a) 300000) * nearest (1 # 10))).
  pose proof (nearest_double r Rr) as T. pose proof (nearest_double r1 Rr1) as T1.
  assert (Ex : (nearest (r1 * 2) - 1 == - (nearest (r * 2) - 1))%Q).
  { rewrite T, T1. lra. }
  assert (Eu : (nearest (nearest (r1 * 2) - 1) == - nearest (nearest (r * 2) - 1))%Q).
  { rewrite (nearest_comp _ _ Ex). apply nearest_opp. }
  set (u := nearest (nearest (r * 2) - 1)) in *.
  set (u1 := nearest (nearest (r1 * 2) - 1)) in *.
  assert (Ep : (J * u1 == - (J * u))%Q) by (rewrite Eu; ring).
  rewrite (nearest_comp _ _ Ep). apply nearest_opp.
Qed.

(** Two attempts whose delays before jitter are a band apart keep their
    order whatever the draws. *)
Lemma calculateDelay_separated (a b : Z) (r r' : Q) :
  0 ≤ a → 0 ≤ b → (0 <= r)%Q → (r < 1)%Q → (0 <= r')%Q → (r' < 1)%Q →
  11 * Z.min (baseDelay cfg * 2 ^ a) 300000
  ≤ 9 * Z.min (baseDelay cfg * 2 ^ b) 300000 →
  calculateDelay cfg a r ≤ calculateDelay cfg b r'.
Proof.
  intros Ha Hb' Hr0 Hr1 Hr0' Hr1' Hsep.
  destruct (calculateDelay_band a r Ha Hr0 Hr1) as [_ H1].
  destruct (calculateDelay_band b r' Hb' Hr0' Hr1') as [H2 _].
  pose proof (Z.div_le_mono _ _ 10 ltac:(lia) Hsep). lia.
Qed.

End Constructed.

(** Under the default settings the delays before jitter of two attempts,
    the earlier of which is below the cap, are a jitter band apart. *)
Lemma default_separated (a b : Z) :
  0 ≤ a → a < b → 5000 * 2 ^ a < 300000 →
  11 * Z.min (5000 * 2 ^ a) 300000 ≤ 9 * Z.min (5000 * 2 ^ b) 300000.
Proof.
  intros Ha Hab Hcap.
  assert (Ha5 : a ≤ 5).
  { destruct (decide (a ≤ 5)) as [|Hgt]; [done|].
    assert (2 ^ 6 ≤ 2 ^ a) by (apply Z.pow_le_mono_r; lia).
    change (2 ^ 6) with 64 in *. lia. }
  assert (Hpa : 0 < 2 ^ a ≤ 32).
  { split; [apply Z.pow_pos_nonneg; lia|].
    change 32 with (2 ^ 5). apply Z.pow_le_mono_r; lia. }
  assert (Hpb : 2 * 2 ^ a ≤ 2 ^ b).
  { rewrite <- Z.pow_succ_r by done. apply Z.pow_le_mono_r; lia. }
  remember (2 ^ a) as pa. remember (2 ^ b) as pb. lia.
Qed.

(** The largest draw: the rounded sum reaches the upper end of the band,
    which the exact value stays below. *)
Example calculateDelay_largest_draw :
  calculateDelay defaultSettings 1 (1 - (1 # 9007199254740992)) = 11000
  ∧ Qfloor (exactDelay defaultSettings 1 (1 - (1 # 9007199254740992))) = 10999.
Proof. split; reflexivity. Qed.

(** At the cap the jitter alone decides: attempt 7 can wait less than
    attempt 6. *)
Example calculateDelay_at_cap :
  calculateDelay defaultSettings 6 (3 # 4) = 315000
  ∧ calculateDelay defaultSettings 7 0 = 270000.
Proof. split; reflexivity. Qed.

(** C3: in the arithmetic of the language's Numbers, for the settings the
    constructor builds (multiplier 2, cap 300000 ms, jitter factor 0.1)
    with a positive base delay, an attempt [a] from 0 on and a draw [r] of
    [Math.random()] in [0, 1): the delay before jitter is exactly
    [d = min(baseDelay * 2^a, 300000)]; the delay returned is the floor of
    a value within a billionth of the exact [d + d/10 * (2r - 1)], the
    jitter added being a finite Number within a billionth of
    [d/10 * (2r - 1)]; the delay lies between nine and eleven tenths of
    [d] rounded down, is the lower end for the draw 0 and [d] itself for
    the draw 1/2, and never decreases with the draw; two draws that are
    Numbers and add up to 1 give opposite jitters.  [d] never decreases with the attempt, and two
    attempts whose [d] are a band apart keep their order whatever the
    draws.  The default settings are base delay 5000 ms, multiplier 2, cap
    300000 ms and jitter factor 1/10, and under them the delay never
    decreases from an attempt that is below the cap to a later one. *)
Theorem reconnection_delay_backoff (cfg : Settings) (a b : Z) (r r' : Q) :
  backoffMultiplier cfg = 2 → maxDelay cfg = 300000 →
  jitterFactor cfg = (1 # 10)%Q → 0 < baseDelay cfg →
  0 ≤ a → a ≤ b → (0 <= r)%Q → (r < 1)%Q → (0 <= r')%Q → (r' < 1)%Q →
  let d := Z.min (baseDelay cfg * 2 ^ a) 300000 in
  let d' := Z.min (baseDelay cfg * 2 ^ b) 300000 in
  nominalDelay cfg a = Finite (inject_Z d)
  ∧ Qfloor (exactDelay cfg a r - (1 # 1000000000)) ≤ calculateDelay cfg a r
    ≤ Qfloor (exactDelay cfg a r + (1 # 1000000000))
  ∧ (∃ j, jitterOf cfg (nominalDelay cfg a) r = Finite j
          ∧ (Qabs (j - inject_Z d * jitterFactor cfg * (2 * r - 1))
             <= 1 # 1000000000)%Q)
  ∧ 9 * d / 10 ≤ calculateDelay cfg a r ≤ 11 * d / 10
  ∧ calculateDelay cfg a 0 = 9 * d / 10
  ∧ calculateDelay cfg a (1 # 2) = d
  ∧ ((r <= r')%Q → calculateDelay cfg a r ≤ calculateDelay cfg a r')
  ∧ (representable r → representable r' → (r + r' == 1)%Q →
     jitterOf cfg (nominalDelay cfg a) r' = opp (jitterOf cfg (nominalDelay cfg a) r))
  ∧ nominalDelay cfg b = Finite (inject_Z d') ∧ d ≤ d'
  ∧ (11 * d ≤ 9 * d' → calculateDelay cfg a r ≤ calculateDelay cfg b r')
  ∧ (baseDelay defaultSettings = 5000 ∧ backoffMultiplier defaultSettings = 2
     ∧ maxDelay defaultSettings = 300000
     ∧ jitterFactor defaultSettings = (1 # 10)%Q)
  ∧ (a < b → 5000 * 2 ^ a < 300000 →
     calculateDelay defaultSettings a r ≤ calculateDelay defaultSettings b r').
Proof.
  intros Hm HM Hj Hb Ha Hab Hr0 Hr1 Hr0' Hr1' d d'.
  assert (Hb0 : 0 ≤ b) by lia.
  split; [by apply nominalDelay_value|].
  split; [by apply calculateDelay_near_exact|].
  split; [by apply jitter_near_exact|].
  split; [by apply calculateDelay_band|].
  split; [by apply calculateDelay_lowest|].
  split; [by apply calculateDelay_middle|].
  split; [intros Hrr; by apply calculateDelay_draw_mono|].
  split; [intros R R' Hsum; by apply jitter_symmetric|].
  split; [by apply nominalDelay_value|].
  split.
  { unfold d, d'. assert (2 ^ a ≤ 2 ^ b) by (apply Z.pow_le_mono_r; lia). nia. }
  split; [intros Hsep; by apply calculateDelay_separated|].
  split; [done|].
  intros Hlt Hcap.
  apply calculateDelay_separated; try done.
  by apply default_separated.
Qed.

End BackoffBand.

(** ** Reconnection scheduler: the guards *)

Section Scheduler.
Import ReconnectionManager.

Variable cfg : Settings.

Lemma clearTimer_attempts n s :
  reconnectAttempts (clearTimer n s) = reconnectAttempts s.
Proof. unfold clearTimer. by destruct (reconnectTimers s !! n). Qed.

Lemma clearTimer_lastReconnectTime n s :
  lastReconnectTime (clearTimer n s) = lastReconnectTime s.
Proof. unfold clearTimer. by destruct (reconnectTimers s !! n). Qed.

Lemma clearTimer_nextHandle n s : nextHandle (clearTimer n s) = nextHandle s.
Proof. unfold clearTimer. by destruct (reconnectTimers s !! n). Qed.

(** What an accepted call returns and leaves behind. *)
Lemma schedule_accepted n now r s :
  canReconnect cfg n now s = true →
  let a := getAttempts n s + 1 in
  fst (scheduleReconnection cfg n now r s) = Some (a, calculateDelay cfg a r)
  ∧ reconnectAttempts (snd (scheduleReconnection cfg n now r s))
    = <[n := a]> (reconnectAttempts s)
  ∧ lastReconnectTime (snd (scheduleReconnection cfg n now r s))
    = lastReconnectTime s
  ∧ armed (snd (scheduleReconnection cfg n now r s)) !! nextHandle s
    = Some (n, calculateDelay cfg a r)
  ∧ reconnectTimers (snd (scheduleReconnection cfg n now r s)) !! n
    = Some (nextHandle s).
Proof.
  intros Hcan a. unfold scheduleReconnection. rewrite Hcan. cbn.
  rewrite clearTimer_attempts, clearTimer_lastReconnectTime, clearTimer_nextHandle.
  cbn. by rewrite !lookup_insert_eq.
Qed.

Lemma schedule_refused n now r s :
  canReconnect cfg n now s = false →
  scheduleReconnection cfg n now r s = (None, s).
Proof. intros Hcan. unfold scheduleReconnection. by rewrite Hcan. Qed.

(** The spacing guard: less than 2 s after the recorded attempt. *)
Lemma canReconnect_too_fast n now t s :
  lastReconnectTime s !! n = Some t → t ≠ 0 → now - t < 2000 →
  canReconnect cfg n now s = false.
Proof.
  intros Hlast Ht Hnow. unfold canReconnect. rewrite Hlast.
  destruct (maxAttempts cfg <=? getAttempts n s); [done|].
  destruct (Z.eqb_spec t 0); [done|].
  destruct (Z.ltb_spec (now - t) 2000); [done|lia].
Qed.

Lemma canReconnect_exhausted n now s :
  maxAttempts cfg ≤ getAttempts n s → canReconnect cfg n now s = false.
Proof.
  intros H. unfold canReconnect.
  destruct (Z.leb_spec (maxAttempts cfg) (getAttempts n s)); [done|lia].
Qed.

Lemma getAttempts_insert n a s' s :
  reconnectAttempts s' = <[n := a]> (reconnectAttempts s) →
  getAttempts n s' = jsOr a 0.
Proof. intros H. unfold getAttempts. by rewrite H, lookup_insert_eq. Qed.

Lemma getAttempts_scheduled n now r s :
  canReconnect cfg n now s = true →
  getAttempts n (snd (scheduleReconnection cfg n now r s)) = getAttempts n s + 1.
Proof.
  intros Hcan.
  destruct (schedule_accepted n now r s Hcan) as (_ & Hatt & _).
  rewrite (getAttempts_insert _ _ _ _ Hatt). unfold jsOr.
  by destruct (Z.eqb_spec (getAttempts n s + 1) 0) as [->|].
Qed.

(** The guard of [canReconnect] reads the attempt counter and the recorded
    time of the last attempt, nothing else. *)
Lemma canReconnect_ext n now s s' :
  getAttempts n s' = getAttempts n s →
  lastReconnectTime s' !! n = lastReconnectTime s !! n →
  canReconnect cfg n now s' = canReconnect cfg n now s.
Proof. intros Ha Hl. unfold canReconnect. by rewrite Ha, Hl. Qed.

Lemma getAttempts_schedule_other n m now r s :
  m ≠ n →
  getAttempts n (snd (scheduleReconnection cfg m now r s)) = getAttempts n s.
Proof.
  intros Hne. destruct (canReconnect cfg m now s) eqn:Hcan.
  - destruct (schedule_accepted m now r s Hcan) as (_ & Hatt & _).
    unfold getAttempts. by rewrite Hatt, lookup_insert_ne.
  - by rewrite schedule_refused.
Qed.

Lemma getAttempts_resetAttempts_other n m s :
  m ≠ n → getAttempts n (resetAttempts m s) = getAttempts n s.
Proof.
  intros Hne. unfold getAttempts, resetAttempts. cbn.
  rewrite clearTimer_attempts. cbn. by rewrite lookup_delete_ne.
Qed.

Lemma getAttempts_cleanup_other n m s :
  m ≠ n → getAttempts n (cleanup m s) = getAttempts n s.
Proof.
  intros Hne. unfold getAttempts, cleanup. cbn.
  rewrite clearTimer_attempts. by rewrite lookup_delete_ne.
Qed.

Lemma getAttempts_timerFires n h now s :
  getAttempts n (snd (timerFires h now s)) = getAttempts n s.
Proof.
  unfold timerFires. destruct (armed s !! h) as [[m d]|]; done.
Qed.

(** An exhausted counter is left alone by every event but the ones that
    clear it. *)
Lemma exhausted_step n o s :
  resets n o = false →
  maxAttempts cfg ≤ getAttempts n s →
  getAttempts n (step cfg o s) = getAttempts n s.
Proof.
  intros Hres Hmax.
  destruct o as [m now r|h now|m [|t1 t2 r]|m|m|m]; cbn [step resets] in *.
  - destruct (String.eqb_spec m n) as [->|Hne].
    + by rewrite schedule_refused by (by apply canReconnect_exhausted).
    + by apply getAttempts_schedule_other.
  - apply getAttempts_timerFires.
  - apply String.eqb_neq in Hres. by apply getAttempts_resetAttempts_other.
  - unfold callbackSettles.
    destruct (canReconnect cfg m t1 s) eqn:Hcan; [|done].
    destruct (String.eqb_spec m n) as [->|Hne].
    + by rewrite canReconnect_exhausted in Hcan.
    + by apply getAttempts_schedule_other.
  - unfold getAttempts. by rewrite clearTimer_attempts.
  - apply String.eqb_neq in Hres. by apply getAttempts_resetAttempts_other.
  - apply String.eqb_neq in Hres. by apply getAttempts_cleanup_other.
Qed.

Lemma exhausted_exec n ops : ∀ s,
  forallb (fun o => negb (resets n o)) ops = true →
  maxAttempts cfg ≤ getAttempts n s →
  getAttempts n (exec cfg ops s) = getAttempts n s.
Proof.
  induction ops as [|o ops IH]; intros s Hops Hmax; [done|].
  cbn [forallb] in Hops. apply andb_true_iff in Hops as [Ho Hops].
  apply negb_true_iff in Ho.
  change (exec cfg (o :: ops) s) with (exec cfg ops (step cfg o s)).
  rewrite IH; [by apply exhausted_step|done|].
  by rewrite exhausted_step.
Qed.

Lemma canReconnect_after_reset n now s :
  0 < maxAttempts cfg →
  canReconnect cfg n now (resetAttempts n s) = true
  ∧ getAttempts n (resetAttempts n s) = 0.
Proof.
  intros Hpos.
  assert (Ha : getAttempts n (resetAttempts n s) = 0).
  { unfold getAttempts, resetAttempts. cbn.
    rewrite clearTimer_attempts. cbn. by rewrite lookup_delete_eq. }
  split; [|done]. unfold canReconnect. rewrite Ha.
  destruct (Z.leb_spec (maxAttempts cfg) 0); [lia|].
  unfold resetAttempts. cbn. by rewrite lookup_delete_eq.
Qed.

Lemma canReconnect_after_cleanup n now s :
  0 < maxAttempts cfg →
  canReconnect cfg n now (cleanup n s) = true
  ∧ getAttempts n (cleanup n s) = 0.
Proof.
  intros Hpos.
  assert (Ha : getAttempts n (cleanup n s) = 0).
  { unfold getAttempts, cleanup. cbn. by rewrite lookup_delete_eq. }
  split; [|done]. unfold canReconnect. rewrite Ha.
  destruct (Z.leb_spec (maxAttempts cfg) 0); [lia|].
  unfold cleanup. cbn. by rewrite lookup_delete_eq.
Qed.

(** [canReconnect] refuses in two cases only: the counter has reached the
    limit, or a recorded attempt time other than 0 is less than 2 s old. *)
Lemma canReconnect_false n now s :
  canReconnect cfg n now s = false
  ↔ maxAttempts cfg ≤ getAttempts n s
    ∨ ∃ t, lastReconnectTime s !! n = Some t ∧ t ≠ 0 ∧ now - t < 2000.
Proof.
  unfold canReconnect.
  destruct (Z.leb_spec (maxAttempts cfg) (getAttempts n s)) as [Hle|Hlt].
  - split; [by left|done].
  - destruct (lastReconnectTime s !! n) as [t|] eqn:Hlast.
    + destruct (Z.eqb_spec t 0) as [->|Hne]; cbn [negb andb].
      * split; [done|]. intros [?|(t & [= <-] & ? & _)]; [lia|done].
      * destruct (Z.ltb_spec (now - t) 2000) as [Hlt2|Hge].
        -- split; [|done]. intros _. right. by exists t.
        -- split; [done|]. intros [?|(t' & [= <-] & _ & ?)]; lia.
    + split; [done|]. intros [?|(t & [=] & _)]. lia.
Qed.

(** The attempt time of a client is recorded by the firing of a timer
    armed for it and by nothing else: after any other event the entry is
    the one there was, or is gone. *)
Lemma lastReconnectTime_origin n o s t :
  lastReconnectTime (step cfg o s) !! n = Some t →
  lastReconnectTime s !! n = Some t
  ∨ ∃ h d, o = OpTimerFires h t ∧ armed s !! h = Some (n, d).
Proof.
  assert (Hsched : ∀ m now r s0,
            lastReconnectTime (snd (scheduleReconnection cfg m now r s0))
            = lastReconnectTime s0).
  { intros m now r s0. destruct (canReconnect cfg m now s0) eqn:Hcan.
    - by destruct (schedule_accepted m now r s0 Hcan) as (_ & _ & -> & _).
    - by rewrite (schedule_refused m now r s0 Hcan). }
  destruct o as [m now r|h now|m [|tcheck tschedule r]|m|m|m]; cbn [step].
  - rewrite Hsched. by left.
  - unfold timerFires. destruct (armed s !! h) as [[m d]|] eqn:Harmed; cbn;
      [|by left].
    destruct (decide (m = n)) as [->|Hne].
    + rewrite lookup_insert_eq. intros [= <-]. right. by exists h, d.
    + rewrite lookup_insert_ne by done. by left.
  - cbn [callbackSettles]. unfold resetAttempts. cbn.
    rewrite clearTimer_lastReconnectTime. cbn.
    intros H. apply lookup_delete_Some in H as [_ H]. by left.
  - cbn [callbackSettles]. destruct (canReconnect cfg m tcheck s); [|by left].
    rewrite Hsched. by left.
  - rewrite clearTimer_lastReconnectTime. by left.
  - unfold resetAttempts. cbn. rewrite clearTimer_lastReconnectTime. cbn.
    intros H. apply lookup_delete_Some in H as [_ H]. by left.
  - unfold cleanup. cbn. rewrite clearTimer_lastReconnectTime.
    intros H. apply lookup_delete_Some in H as [_ H]. by left.
Qed.

(** C1, as the code has it.  In any state [scheduleReconnection] returns
    [null], and changes nothing, exactly when the client's counter has
    reached [maxAttempts] or the client has a recorded [lastReconnectTime]
    other than 0 that is less than 2 s before the call; any other call
    returns [{attempt, delay}].  That time is recorded only by the firing
    of a timer armed for the client, never by [scheduleReconnection], and
    it is deleted by [resetAttempts] (which the timer's function calls
    when the callback succeeds) and by [cleanup].  So, from a state in
    which a call is accepted: the call returns [{attempt, delay}] and arms
    a timer; once that timer has fired at [tfire], a call less than 2 s
    later returns [null] and changes nothing; without the timer firing, a
    second call is answered like the first, with the next attempt number,
    as long as the limit is not reached; and once the callback has
    succeeded, or after [cleanup], no time is recorded and a call less
    than 2 s after the firing is accepted as attempt 1. *)
Theorem schedule_spacing_guard (n : string) (t0 tfire now : Z) (r0 r : Q) (s : t) :
  canReconnect cfg n t0 s = true →
  tfire ≠ 0 →
  now - tfire < 2000 →
  let a := getAttempts n s in
  let s1 := snd (scheduleReconnection cfg n t0 r0 s) in
  let s2 := snd (timerFires (nextHandle s) tfire s1) in
  (∀ s' now' r',
     (scheduleReconnection cfg n now' r' s' = (None, s')
      ↔ maxAttempts cfg ≤ getAttempts n s'
        ∨ ∃ t, lastReconnectTime s' !! n = Some t ∧ t ≠ 0 ∧ now' - t < 2000)
     ∧ (fst (scheduleReconnection cfg n now' r' s') = None
        ∨ fst (scheduleReconnection cfg n now' r' s')
          = Some (getAttempts n s' + 1,
                  calculateDelay cfg (getAttempts n s' + 1) r')))
  ∧ (∀ o s' t,
       lastReconnectTime (step cfg o s') !! n = Some t →
       lastReconnectTime s' !! n = Some t
       ∨ ∃ h d, o = OpTimerFires h t ∧ armed s' !! h = Some (n, d))
  ∧ fst (scheduleReconnection cfg n t0 r0 s)
    = Some (a + 1, calculateDelay cfg (a + 1) r0)
  ∧ fst (timerFires (nextHandle s) tfire s1) = Some n
  ∧ lastReconnectTime s2 !! n = Some tfire
  ∧ scheduleReconnection cfg n now r s2 = (None, s2)
  ∧ lastReconnectTime s1 = lastReconnectTime s
  ∧ (∀ t1 r1,
       a + 1 < maxAttempts cfg →
       canReconnect cfg n t1 s = true →
       fst (scheduleReconnection cfg n t1 r1 s1)
       = Some (a + 2, calculateDelay cfg (a + 2) r1))
  ∧ lastReconnectTime (callbackSettles cfg n Resolved s2) !! n = None
  ∧ lastReconnectTime (cleanup n s2) !! n = None
  ∧ (0 < maxAttempts cfg →
     fst (scheduleReconnection cfg n now r (callbackSettles cfg n Resolved s2))
     = Some (1, calculateDelay cfg 1 r)
     ∧ fst (scheduleReconnection cfg n now r (cleanup n s2))
       = Some (1, calculateDelay cfg 1 r)).
Proof.
  intros Hcan Ht Hnow a s1 s2.
  destruct (schedule_accepted n t0 r0 s Hcan) as (Hres & Hatt & Hlast & Harmed & _).
  fold s1 in Hatt, Hlast, Harmed.
  assert (Hfire : timerFires (nextHandle s) tfire s1
                  = (Some n,
                     {| reconnectAttempts := reconnectAttempts s1;
                        reconnectTimers := reconnectTimers s1;
                        lastReconnectTime := <[n := tfire]> (lastReconnectTime s1);
                        armed := delete (nextHandle s) (armed s1);
                        nextHandle := nextHandle s1 |})).
  { unfold timerFires. by rewrite Harmed. }
  assert (Hs2 : lastReconnectTime s2 !! n = Some tfire).
  { unfold s2. rewrite Hfire. cbn. by rewrite lookup_insert_eq. }
  split.
  { intros s' now' r'. split.
    - rewrite <- canReconnect_false. split.
      + intros Hnone. destruct (canReconnect cfg n now' s') eqn:Hc; [|done].
        destruct (schedule_accepted n now' r' s' Hc) as (Hsome & _).
        rewrite Hnone in Hsome. discriminate.
      + apply schedule_refused.
    - destruct (canReconnect cfg n now' s') eqn:Hc.
      + right. by destruct (schedule_accepted n now' r' s' Hc) as (-> & _).
      + left. by rewrite (schedule_refused n now' r' s' Hc). }
  split; [intros o s' t; apply lastReconnectTime_origin|].
  split; [done|]. split; [by rewrite Hfire|]. split; [done|].
  split; [apply schedule_refused; by eapply canReconnect_too_fast|].
  split; [done|].
  split.
  { intros t1 r1 Hlim Hcan1.
    assert (Ha1 : getAttempts n s1 = a + 1) by (by apply getAttempts_scheduled).
    assert (Hcan1' : canReconnect cfg n t1 s1 = true).
    { unfold canReconnect in *. rewrite Ha1, Hlast.
      destruct (Z.leb_spec (maxAttempts cfg) (a + 1)); [lia|].
      fold a in Hcan1. by destruct (maxAttempts cfg <=? a). }
    destruct (schedule_accepted n t1 r1 s1 Hcan1') as (Hres1 & _).
    rewrite Hres1, Ha1. by replace (a + 1 + 1) with (a + 2) by lia. }
  split.
  { cbn [callbackSettles]. unfold resetAttempts. cbn. apply lookup_delete_eq. }
  split.
  { unfold cleanup. cbn. apply lookup_delete_eq. }
  intros Hpos. split.
  - cbn [callbackSettles].
    destruct (canReconnect_after_reset n now s2 Hpos) as [Hc Ha].
    destruct (schedule_accepted n now r (resetAttempts n s2) Hc) as (-> & _).
    by rewrite Ha.
  - destruct (canReconnect_after_cleanup n now s2 Hpos) as [Hc Ha].
    destruct (schedule_accepted n now r (cleanup n s2) Hc) as (-> & _).
    by rewrite Ha.
Qed.

(** C4, as the code has it: once a client's counter has reached
    [maxAttempts], every [scheduleReconnection] for it returns [null] and
    changes nothing, and [getStatus] reports [canReconnect = false],
    through any sequence of events that contains neither [resetAttempts]
    nor [cleanup] for that client; after [resetAttempts] (and likewise
    after [cleanup]) the counter is 0, [canReconnect] is true and the next
    call is accepted as attempt 1.  The limit is the configured
    [maxRetries], which is the value of MAX_RETRIES when that is a number
    other than 0 and 3 otherwise: 3 by default, the fall-back 10 of the
    constructor is never reached. *)
Theorem exhausted_until_reset (n : string) (ops : list op) (s : t) :
  0 < maxAttempts cfg →
  maxAttempts cfg ≤ getAttempts n s →
  forallb (fun o => negb (resets n o)) ops = true →
  let s' := exec cfg ops s in
  (∀ now r, scheduleReconnection cfg n now r s' = (None, s'))
  ∧ (∀ now, statusCanReconnect (getStatus cfg n now s') = false)
  ∧ (∀ now, statusCanReconnect (getStatus cfg n now (resetAttempts n s')) = true)
  ∧ (∀ now r, fst (scheduleReconnection cfg n now r (resetAttempts n s'))
              = Some (1, calculateDelay cfg 1 r))
  ∧ (∀ now r, fst (scheduleReconnection cfg n now r (cleanup n s'))
              = Some (1, calculateDelay cfg 1 r))
  ∧ (∀ e, maxAttempts (settings (Config.config e))
          = jsOrNaN (Config.MAX_RETRIES e) 3)
  ∧ maxAttempts defaultSettings = 3.
Proof.
  intros Hpos Hmax Hops s'.
  assert (Hmax' : maxAttempts cfg ≤ getAttempts n s').
  { unfold s'. by rewrite exhausted_exec. }
  split; [intros; apply schedule_refused; by apply canReconnect_exhausted|].
  split; [intros; cbn; by apply canReconnect_exhausted|].
  split; [intros; cbn; by apply canReconnect_after_reset|].
  split; [|split; [|split; [|done]]].
  - intros now r.
    destruct (canReconnect_after_reset n now s' Hpos) as [Hcan Ha].
    destruct (schedule_accepted n now r _ Hcan) as (Hres & _).
    by rewrite Hres, Ha.
  - intros now r.
    destruct (canReconnect_after_cleanup n now s' Hpos) as [Hcan Ha].
    destruct (schedule_accepted n now r _ Hcan) as (Hres & _).
    by rewrite Hres, Ha.
  - intros e. unfold settings, Config.config. cbn.
    destruct (Config.MAX_RETRIES e) as [v|]; [|done]. cbn. unfold jsOr.
    destruct (Z.eqb_spec v 0) as [->|Hv]; [done|].
    by destruct (Z.eqb_spec v 0).
Qed.

End Scheduler.

(** ** Watchdog *)

Section WatchdogFacts.
Import ClientStateManager Watchdog.

Lemma olderThan_spec (age : option Z) (th : Z) :
  olderThan age th = true ↔ th < default 0 age.
Proof. unfold olderThan. apply Z.ltb_lt. Qed.

(** The state-valid check fails exactly without an entry or on a stuck
    client. *)
Lemma checkStateValid_false th n st now sm :
  checkStateValid th n st now sm = false
  ↔ st = None ∨ ∃ e, st = Some e ∧ stuck th n e now sm.
Proof.
  unfold checkStateValid, stuck. destruct st as [e|].
  2:{ split; [by left|done]. }
  assert (Hinc : includes [AUTHENTICATING; RECONNECTING; DISCONNECTED] (state e) = true
                 ↔ state e = AUTHENTICATING ∨ state e = RECONNECTING
                   ∨ state e = DISCONNECTED).
  { unfold includes. cbn [existsb].
    rewrite orb_false_r, !orb_true_iff, !String.eqb_eq. tauto. }
  set (age := getStateAge n now sm) in *.
  pose proof (olderThan_spec age (maxQrAge th)) as Hq.
  pose proof (olderThan_spec age (maxInitializationTime th)) as Hi.
  pose proof (olderThan_spec age (maxStateAge th)) as Ha.
  split.
  - intros Hf. right. exists e. split; [done|].
    destruct (String.eqb_spec (state e) WAITING_QR) as [Hw|Hw];
      destruct (olderThan age (maxQrAge th)) eqn:Eq; cbn [andb] in Hf;
      try (left; split; [done|by apply Hq]).
    all: destruct (String.eqb_spec (state e) INITIALIZING) as [Hn|Hn];
      destruct (olderThan age (maxInitializationTime th)) eqn:Ei;
      cbn [andb] in Hf;
      try (right; left; split; [done|by apply Hi]).
    all: destruct (includes [AUTHENTICATING; RECONNECTING; DISCONNECTED] (state e)) eqn:Einc;
      destruct (olderThan age (maxStateAge th)) eqn:Ea;
      cbn [andb] in Hf; try discriminate;
      right; right; split; [by apply Hinc|by apply Ha].
  - intros [[=]|(e' & [= <-] & Hstuck)].
    destruct Hstuck as [[Hs Hage]|[[Hs Hage]|[Hs Hage]]].
    + apply Hq in Hage. apply String.eqb_eq in Hs. by rewrite Hs, Hage.
    + apply Hi in Hage. apply String.eqb_eq in Hs. rewrite Hs, Hage.
      cbn [andb]. by destruct (_ && _).
    + apply Ha in Hage. apply Hinc in Hs. rewrite Hs, Hage. cbn [andb].
      by repeat destruct (_ && _).
Qed.

(** [fullRestart] forgets the client, cleans it up if it was there, hands
    over to the reconnection scheduler and answers [true]. *)
Lemma fullRestart_spec cfg n now r w :
  let w' := snd (fullRestart cfg n now r w) in
  fst (fullRestart cfg n now r w) = true
  ∧ clients w' !! n = None
  ∧ calls w'
    = calls w ++ (if bool_decide (is_Some (clients w !! n))
                  then [ECleanupClient n] else [])
  ∧ reconnectionManager w'
    = snd (ReconnectionManager.scheduleReconnection cfg n now r
             (reconnectionManager w))
  ∧ stateManager w' = stateManager w.
Proof.
  unfold fullRestart. destruct (clients w !! n) as [c|] eqn:Hc; cbn.
  - rewrite lookup_delete_eq. repeat split; try done.
  - rewrite lookup_delete_eq, app_nil_r. repeat split; done.
Qed.

(** C7, as the code has it: the state-valid check returns false exactly
    when no state entry was found for the client or the client is stuck
    past the threshold of a state that must be short-lived (WAITING_QR
    beyond 180 s, INITIALIZING beyond 300 s, AUTHENTICATING, RECONNECTING
    or DISCONNECTED beyond 900 s by default).  When the process-alive and
    responsive checks pass and the state-valid check fails, recovery calls
    the session's [initialize] in place and, when that succeeds, records
    INITIALIZING; when it throws, recovery falls back to the full restart:
    the client is cleaned up and forgotten and a reconnection is handed to
    the scheduler. *)
Theorem state_valid_check_and_recovery
    (th : Thresholds) (cfg : ReconnectionManager.Settings) (n : string)
    (st : option StateEntry) (tage : Z) (sm : ClientStateManager.t)
    (failedChecks : Checks) (throws : bool) (tstate now : Z) (r : Q)
    (w : World) (c : Client) :
  processAlive failedChecks = true →
  browserResponsive failedChecks = true →
  stateValid failedChecks = false →
  clients w !! n = Some c →
  let result := attemptRecovery cfg n failedChecks throws tstate now r w in
  defaultThresholds
  = {| maxStateAge := 900000; maxQrAge := 180000;
       maxInitializationTime := 300000; zombieTimeout := 600000 |}
  ∧ (checkStateValid th n st tage sm = false
     ↔ st = None ∨ ∃ e, st = Some e ∧ stuck th n e tage sm)
  ∧ fst result = Some true
  ∧ (if throws
     then snd result = snd (fullRestart cfg n now r (called (EInitialize n) w))
          ∧ calls (snd result) = calls w ++ [EInitialize n; ECleanupClient n]
          ∧ clients (snd result) !! n = None
          ∧ reconnectionManager (snd result)
            = snd (ReconnectionManager.scheduleReconnection cfg n now r
                     (reconnectionManager w))
     else calls (snd result) = calls w ++ [EInitialize n]
          ∧ clients (snd result) = clients w
          ∧ reconnectionManager (snd result) = reconnectionManager w
          ∧ (state <$> getState n (stateManager (snd result)))
            = Some INITIALIZING).
Proof.
  intros Halive Hresp Hvalid Hc result.
  split; [done|]. split; [apply checkStateValid_false|].
  unfold result, attemptRecovery. rewrite Halive, Hresp, Hvalid. cbn [negb orb].
  unfold refreshClient. rewrite Hc.
  destruct throws.
  - pose proof (fullRestart_spec cfg n now r (called (EInitialize n) w)) as Hfr.
    destruct (fullRestart cfg n now r (called (EInitialize n) w)) as [b w'] eqn:Hfull.
    cbn [fst snd] in *. destruct Hfr as (-> & Hcl & Hcalls & Hrm & _).
    split; [done|]. split; [done|]. split.
    { rewrite Hcalls. cbn [called calls clients]. rewrite Hc.
      rewrite bool_decide_eq_true_2 by eauto. by rewrite <- app_assoc. }
    split; [done|]. by rewrite Hrm.
  - cbn. split; [done|]. split; [done|]. split; [done|]. split; [done|].
    unfold getState. cbn. by rewrite lookup_insert_eq.
Qed.

End WatchdogFacts.

(** ** Chat cache *)

Section ChatCacheFacts.
Import ChatCache.

Lemma mirror_chatCache client chatId c count s :
  chatCache (mirror client chatId c count s) = chatCache s.
Proof.
  unfold mirror. destruct (truthy (isGroup c)); [|done].
  destruct (groupCache s !! client) as [gm|]; [|done].
  by destruct (gm !! chatId).
Qed.

Lemma mirror_unreadChats client chatId c count s :
  unreadChats (mirror client chatId c count s) = unreadChats s.
Proof.
  unfold mirror. destruct (truthy (isGroup c)); [|done].
  destruct (groupCache s !! client) as [gm|]; [|done].
  by destruct (gm !! chatId).
Qed.

(** The group entry of a group chat carries the counter just written. *)
Lemma mirror_lookupGroup client chatId c count s g :
  truthy (isGroup c) = true →
  lookupGroup client chatId (mirror client chatId c count s) = Some g →
  unreadCount (chat g) = count ∧ timestamp (chat g) = timestamp c.
Proof.
  intros Hg. unfold mirror, lookupGroup. rewrite Hg.
  destruct (groupCache s !! client) as [gm|] eqn:Hgm; cbn.
  - destruct (gm !! chatId) as [g0|] eqn:Hg0; cbn.
    + rewrite lookup_insert_eq. cbn. rewrite lookup_insert_eq.
      by intros [= <-].
    + rewrite Hgm. cbn. by rewrite Hg0.
  - by rewrite Hgm.
Qed.

(** What [markAsRead] leaves, on a client whose maps both exist. *)
Lemma markAsRead_spec client chatId now s m u :
  chatCache s !! client = Some m →
  unreadChats s !! client = Some u →
  let s' := markAsRead client chatId now s in
  unreadChats s' !! client = Some (u ∖ {[chatId]})
  ∧ lookupChat client chatId s' = (fun c => touch c 0 now) <$> (m !! chatId)
  ∧ (∀ c g, m !! chatId = Some c → truthy (isGroup c) = true →
            lookupGroup client chatId s' = Some g →
            unreadCount (chat g) = Some 0).
Proof.
  intros Hm Hu s'. unfold s', markAsRead. rewrite Hm, Hu.
  destruct (m !! chatId) as [c|] eqn:Hc; cbn.
  - split; [by rewrite lookup_insert_eq|]. split.
    + unfold lookupChat. cbn. rewrite mirror_chatCache. cbn.
      rewrite lookup_insert_eq. cbn. by rewrite lookup_insert_eq.
    + intros c0 g [= <-] Hg Hlook.
      change (lookupGroup client chatId
                (mirror client chatId (touch c 0 now) (Some 0)
                   (withChats s client (<[chatId:=touch c 0 now]> m)))
              = Some g) in Hlook.
      by destruct (mirror_lookupGroup client chatId (touch c 0 now) (Some 0) _ g Hg Hlook).
  - split; [by rewrite lookup_insert_eq|]. split; [|done].
    unfold lookupChat. cbn. rewrite Hm. cbn. by rewrite Hc.
Qed.

Lemma markAsUnread_spec client chatId inc now s m u :
  chatCache s !! client = Some m →
  unreadChats s !! client = Some u →
  let s' := markAsUnread client chatId inc now s in
  unreadChats s' !! client = Some ({[chatId]} ∪ u)
  ∧ chatCache s' !! client
    = Some (match m !! chatId with
            | Some c => <[chatId := touch c (jsOrNaN (unreadCount c) 0 + inc) now]> m
            | None => m
            end).
Proof.
  intros Hm Hu s'. unfold s', markAsUnread. rewrite Hm, Hu.
  destruct (m !! chatId) as [c|] eqn:Hc; cbn.
  - split; [by rewrite lookup_insert_eq|].
    rewrite mirror_chatCache. cbn. by rewrite lookup_insert_eq.
  - split; [by rewrite lookup_insert_eq|done].
Qed.

Lemma is_Some_insert_existing {A} (m : gmap string A) (k k' : string) (v : A) :
  is_Some (m !! k) → (is_Some (<[k := v]> m !! k') ↔ is_Some (m !! k')).
Proof.
  intros Hk. destruct (decide (k = k')) as [->|Hne].
  - rewrite lookup_insert_eq. split; eauto.
  - by rewrite lookup_insert_ne.
Qed.

Lemma updateChat_sameKeys client x chatId u s :
  sameKeys x s (updateChat client chatId u s).
Proof.
  unfold sameKeys, updateChat.
  destruct (chatCache s !! client) as [m|] eqn:Hm; [|tauto].
  assert (Hc : ∀ m', is_Some (<[client := m']> (chatCache s) !! x)
                     ↔ is_Some (chatCache s !! x)).
  { intros m'. apply is_Some_insert_existing. eauto. }
  destruct (truthy _); [|cbn; split; [apply Hc|reflexivity]].
  destruct (groupCache _ !! client) as [gm|]; [|cbn; split; [apply Hc|reflexivity]].
  destruct (gm !! chatId); (cbn; split; [apply Hc|reflexivity]).
Qed.

Lemma markAsUnread_sameKeys client x chatId inc now s :
  sameKeys x s (markAsUnread client chatId inc now s).
Proof.
  unfold sameKeys.
  destruct (chatCache s !! client) as [m|] eqn:Hm;
    [destruct (unreadChats s !! client) as [u|] eqn:Hu|].
  - destruct (markAsUnread_spec client chatId inc now s m u Hm Hu) as [Hu' Hm'].
    destruct (decide (client = x)) as [<-|Hne].
    + rewrite Hu', Hm', Hm, Hu. split; split; eauto.
    + unfold markAsUnread. rewrite Hm, Hu. cbn.
      rewrite lookup_insert_ne by done.
      destruct (m !! chatId); [|tauto].
      rewrite mirror_chatCache, mirror_unreadChats. cbn.
      rewrite lookup_insert_ne by done. tauto.
  - unfold markAsUnread. rewrite Hm, Hu. tauto.
  - unfold markAsUnread. rewrite Hm. tauto.
Qed.

Lemma markAsRead_sameKeys client x chatId now s :
  sameKeys x s (markAsRead client chatId now s).
Proof.
  unfold sameKeys.
  destruct (chatCache s !! client) as [m|] eqn:Hm;
    [destruct (unreadChats s !! client) as [u|] eqn:Hu|].
  - destruct (markAsRead_spec client chatId now s m u Hm Hu) as (Hu' & _).
    unfold markAsRead in *. rewrite Hm, Hu in *. cbn in *.
    destruct (decide (client = x)) as [<-|Hne].
    + rewrite Hu', Hu.
      destruct (m !! chatId).
      * rewrite mirror_chatCache. cbn. rewrite lookup_insert_eq, Hm.
        split; split; eauto.
      * rewrite Hm. split; split; eauto.
    + rewrite lookup_insert_ne by done.
      destruct (m !! chatId); [|tauto].
      rewrite mirror_chatCache, mirror_unreadChats. cbn.
      rewrite lookup_insert_ne by done. tauto.
  - unfold markAsRead. rewrite Hm, Hu. tauto.
  - unfold markAsRead. rewrite Hm. tauto.
Qed.

Lemma updateGroupMetadata_sameKeys client x g md s :
  sameKeys x s (updateGroupMetadata client g md s).
Proof.
  unfold sameKeys, updateGroupMetadata.
  destruct (groupCache s !! client) as [gm|]; [|tauto].
  destruct (gm !! g); cbn; tauto.
Qed.

Lemma updateGroupProfilePic_sameKeys client x g url s :
  sameKeys x s (updateGroupProfilePic client g url s).
Proof.
  unfold sameKeys, updateGroupProfilePic.
  destruct (groupCache s !! client) as [gm|]; [|tauto].
  destruct (gm !! g); cbn; tauto.
Qed.

Lemma addGroup_sameKeys client x gid user gname t1 t2 s :
  sameKeys x s (addGroup client gid user gname t1 t2 s).
Proof.
  unfold sameKeys, addGroup.
  destruct (groupCache s !! client) as [gm|]; [|tauto].
  destruct (chatCache s !! client) as [cm|] eqn:Hm; [|tauto].
  cbn. split; [|tauto]. apply is_Some_insert_existing. eauto.
Qed.

Lemma removeGroup_sameKeys client x gid s :
  sameKeys x s (removeGroup client gid s).
Proof.
  unfold sameKeys, removeGroup.
  destruct (groupCache s !! client) as [gm|]; cbn;
    (destruct (chatCache s !! client) as [cm|] eqn:Hm; [|tauto]);
    cbn; (split; [|tauto]); apply is_Some_insert_existing; eauto.
Qed.

Lemma indexed_step client o s : indexed client s → indexed client (step o s).
Proof.
  intros Hidx. unfold indexed in *.
  destruct o as [c chats now|c k u|c k inc now|c k now|c
                |c g md|c g url|c gid user gname t1 t2|c gid]; cbn [step].
  - unfold initializeCache. destruct (default false (isLoaded s !! c)); [done|].
    destruct (foldl loadChat (∅, ∅, ∅) chats) as [[cm us] gm]. cbn.
    destruct (decide (c = client)) as [->|Hne].
    + rewrite !lookup_insert_eq. split; eauto.
    + by rewrite !lookup_insert_ne.
  - destruct (updateChat_sameKeys c client k u s) as [-> ->]. done.
  - destruct (markAsUnread_sameKeys c client k inc now s) as [-> ->]. done.
  - destruct (markAsRead_sameKeys c client k now s) as [-> ->]. done.
  - unfold clearCache. cbn. destruct (decide (c = client)) as [->|Hne].
    + rewrite !lookup_delete_eq. split; intros [? [=]].
    + by rewrite !lookup_delete_ne.
  - destruct (updateGroupMetadata_sameKeys c client g md s) as [-> ->]. done.
  - destruct (updateGroupProfilePic_sameKeys c client g url s) as [-> ->]. done.
  - destruct (addGroup_sameKeys c client gid user gname t1 t2 s) as [-> ->]. done.
  - destruct (removeGroup_sameKeys c client gid s) as [-> ->]. done.
Qed.

(** Every state the cache reaches from the empty one keeps the chat map
    and the unread index of each client together. *)
Lemma indexed_reachable client ops : indexed client (exec ops empty).
Proof.
  assert (H : ∀ s, indexed client s → indexed client (exec ops s)).
  { induction ops as [|o ops IH]; intros s Hs; [done|].
    change (exec (o :: ops) s) with (exec ops (step o s)).
    by apply IH, indexed_step. }
  apply H. unfold indexed, empty. cbn. by rewrite !lookup_empty.
Qed.

(** C6: on a client whose chat map and unread index exist together (as
    they do in every state the cache reaches), [markAsUnread] followed by
    [markAsRead] on the same chat id leaves the chat id out of the unread
    index and, if the chat is cached, its [unreadCount] at 0 and its
    timestamp at the time of the read, whatever the increment; the group
    entry of a group chat shows 0 as well.  The two calls create no chat
    entry. *)
Theorem markAsUnread_then_markAsRead (client chatId : string)
    (incrementBy t1 t2 : Z) (s : t) :
  indexed client s →
  let s' := markAsRead client chatId t2
              (markAsUnread client chatId incrementBy t1 s) in
  ¬ inUnreadIndex client chatId s'
  ∧ (unreadCount <$> lookupChat client chatId s')
    = ((fun _ => Some 0) <$> lookupChat client chatId s)
  ∧ (timestamp <$> lookupChat client chatId s')
    = ((fun _ => Some t2) <$> lookupChat client chatId s)
  ∧ (∀ c g, lookupChat client chatId s' = Some c →
            truthy (isGroup c) = true →
            lookupGroup client chatId s' = Some g →
            unreadCount (chat g) = Some 0).
Proof.
  intros Hidx s'.
  destruct (chatCache s !! client) as [m|] eqn:Hm.
  - destruct (proj1 Hidx ltac:(eauto)) as [u Hu].
    destruct (markAsUnread_spec client chatId incrementBy t1 s m u Hm Hu)
      as [Hu1 Hm1].
    destruct (markAsRead_spec client chatId t2 _ _ _ Hm1 Hu1)
      as (Hu2 & Hc2 & Hg2).
    fold s' in Hu2, Hc2, Hg2.
    split.
    { intros (u' & Hu' & Hin). rewrite Hu2 in Hu'. injection Hu' as <-.
      apply elem_of_difference in Hin as [_ Hnot]. apply Hnot.
      by apply elem_of_singleton. }
    assert (Hs : lookupChat client chatId s = m !! chatId).
    { unfold lookupChat. by rewrite Hm. }
    rewrite Hc2, Hs.
    destruct (m !! chatId) as [c|] eqn:Hc.
    + rewrite lookup_insert_eq. cbn. split; [done|]. split; [done|].
      intros c0 g [= <-] Hgrp Hlook.
      eapply Hg2; [apply lookup_insert_eq|done|done].
    + rewrite Hc. cbn. split; [done|]. split; [done|]. by intros c0 g [=].
  - assert (Hs' : s' = s).
    { unfold s', markAsUnread, markAsRead. rewrite Hm. by rewrite Hm. }
    rewrite Hs'. split.
    { intros (u & Hu & Hin).
      destruct (proj2 Hidx ltac:(eauto)) as [m' Hm']. congruence. }
    unfold lookupChat. rewrite Hm. cbn. split; [done|]. split; [done|].
    by intros c g [=].
Qed.
End ChatCacheFacts.

(** ** Media queue *)

Section MediaQueueFacts.
Import MediaQueue.

Lemma queueHas_spec mid q :
  queueHas mid q = true ↔ ∃ j, j ∈ q ∧ messageId j = mid.
Proof.
  unfold queueHas. rewrite existsb_exists. split.
  - intros (j & Hin & Heq). exists j. split; [by apply list_elem_of_In|].
    by apply String.eqb_eq.
  - intros (j & Hin & Heq). exists j. split; [by apply list_elem_of_In|].
    by apply String.eqb_eq.
Qed.

Lemma queueGet_is_Some mid q :
  is_Some (queueGet mid q) ↔ queueHas mid q = true.
Proof.
  unfold queueGet, queueHas. induction q as [|j q IH]; cbn.
  - split; [by intros [? [=]]|done].
  - destruct (String.eqb (messageId j) mid); cbn; [|done].
    split; eauto.
Qed.

Lemma queueGet_None mid q :
  queueGet mid q = None ↔ ¬ ∃ j, j ∈ q ∧ messageId j = mid.
Proof.
  rewrite <- queueHas_spec, <- queueGet_is_Some.
  rewrite <- eq_None_not_Some. done.
Qed.

(** C10: a message id in none of the three collections is reported
    [not_found], and the checks run in the order completed, processing,
    queued, so that each of the four statuses is returned under one
    condition and the four conditions exclude each other: every message
    id has exactly one status. *)
Theorem getStatus_exactly_one (mid : string) (s : t) :
  (getStatus mid s = SNotFound
   ↔ ¬ isCompleted mid s ∧ ¬ isProcessing mid s ∧ ¬ isQueued mid s)
  ∧ ((∃ data, getStatus mid s = SCompleted data) ↔ isCompleted mid s)
  ∧ (getStatus mid s = SProcessing
     ↔ ¬ isCompleted mid s ∧ isProcessing mid s)
  ∧ ((∃ position at_, getStatus mid s = SQueued position at_)
     ↔ ¬ isCompleted mid s ∧ ¬ isProcessing mid s ∧ isQueued mid s)
  ∧ (∀ data, getStatus mid s = SCompleted data ↔ completed s !! mid = Some data).
Proof.
  unfold getStatus, isCompleted, isProcessing, isQueued.
  destruct (completed s !! mid) as [d|] eqn:Hc.
  { split; [split; [done|]; by intros [[] _]; eauto|].
    split; [split; eauto|].
    split; [split; [done|]; by intros [[] _]; eauto|].
    split; [split; [by intros (? & ? & [=])|]; by intros [[] _]; eauto|].
    intros data. split; congruence. }
  assert (Hnc : ¬ is_Some (None : option Completed)) by (by intros [? [=]]).
  destruct (decide (mid ∈ processing s)) as [Hp|Hp].
  { rewrite bool_decide_eq_true_2 by done.
    split; [split; [done|]; tauto|].
    split; [split; [by intros [? [=]]|]; tauto|].
    split; [tauto|].
    split; [split; [by intros (? & ? & [=])|]; tauto|].
    intros data. split; congruence. }
  rewrite bool_decide_eq_false_2 by done.
  destruct (queueGet mid (queue s)) as [j|] eqn:Hq.
  - assert (Hin : ∃ j, j ∈ queue s ∧ messageId j = mid).
    { apply queueHas_spec, queueGet_is_Some. rewrite Hq. eauto. }
    split; [split; [done|]; tauto|].
    split; [split; [by intros [? [=]]|]; tauto|].
    split; [split; [done|]; tauto|].
    split; [split; eauto|].
    intros data. split; congruence.
  - apply queueGet_None in Hq.
    split; [tauto|].
    split; [split; [by intros [? [=]]|]; tauto|].
    split; [split; [done|]; tauto|].
    split; [split; [by intros (? & ? & [=])|]; tauto|].
    intros data. split; congruence.
Qed.

Lemma enqueue_known mid msg cid prio now s :
  isCompleted mid s ∨ isProcessing mid s ∨ isQueued mid s →
  enqueue mid msg cid prio now s
  = (match completed s !! mid with
     | Some data => RCompleted data
     | None => RProcessing
     end, s).
Proof.
  intros Hk. unfold enqueue.
  destruct (completed s !! mid) as [d|] eqn:Hc; [done|].
  destruct Hk as [[? Hk]|[Hk|Hk]].
  - unfold isCompleted in Hk. congruence.
  - rewrite (bool_decide_eq_true_2 _ Hk). by rewrite orb_true_r.
  - apply queueHas_spec in Hk. by rewrite Hk.
Qed.

Lemma elem_of_queueSet job q : job ∈ queueSet job q.
Proof.
  induction q as [|j q IH]; cbn; [by apply list_elem_of_singleton|].
  destruct (String.eqb (messageId j) (messageId job)).
  - apply list_elem_of_here.
  - by apply list_elem_of_further.
Qed.

Lemma enqueue_makes_known mid msg cid prio now s :
  let s' := snd (enqueue mid msg cid prio now s) in
  isCompleted mid s' ∨ isProcessing mid s' ∨ isQueued mid s'.
Proof.
  cbn. unfold enqueue.
  destruct (completed s !! mid) as [d|] eqn:Hc.
  { left. unfold isCompleted. cbn. rewrite Hc. eauto. }
  destruct (queueHas mid (queue s)) eqn:Hq.
  { right. right. by apply queueHas_spec. }
  destruct (decide (mid ∈ processing s)) as [Hp|Hp].
  { rewrite (bool_decide_eq_true_2 _ Hp). cbn. by right; left. }
  rewrite (bool_decide_eq_false_2 _ Hp). cbn.
  right. right. eexists. split; [apply elem_of_queueSet|done].
Qed.

(** C5: re-enqueueing a message id that is completed, queued or being
    processed changes nothing in the queue (no second job, no reset of
    the first, whatever message, client, priority and time are passed)
    and answers [completed] with the cached data when the id is
    completed, and [processing] otherwise, for a queued job as for one
    being processed.  In particular a second [enqueue] of any id, right
    after a first, is such a call. *)
Theorem enqueue_idempotent (mid : string) (msg : Message) (cid : string)
    (prio now : Z) (s : t) :
  isCompleted mid s ∨ isProcessing mid s ∨ isQueued mid s →
  snd (enqueue mid msg cid prio now s) = s
  ∧ fst (enqueue mid msg cid prio now s)
    = match completed s !! mid with
      | Some data => RCompleted data
      | None => RProcessing
      end
  ∧ getStatus mid (snd (enqueue mid msg cid prio now s)) = getStatus mid s
  ∧ (∀ msg0 cid0 prio0 now0 s0,
       let s1 := snd (enqueue mid msg0 cid0 prio0 now0 s0) in
       snd (enqueue mid msg cid prio now s1) = s1
       ∧ fst (enqueue mid msg cid prio now s1)
         = match completed s0 !! mid with
           | Some data => RCompleted data
           | None => RProcessing
           end).
Proof.
  intros Hk. rewrite (enqueue_known _ _ _ _ _ _ Hk). cbn [fst snd].
  split; [done|]. split; [done|]. split; [done|].
  intros msg0 cid0 prio0 now0 s0.
  set (s1 := snd (enqueue mid msg0 cid0 prio0 now0 s0)).
  rewrite (enqueue_known mid msg cid prio now s1)
    by apply enqueue_makes_known.
  split; [done|]. cbn [fst]. unfold s1, enqueue.
  destruct (completed s0 !! mid) as [d|] eqn:Hc; [cbn; by rewrite Hc|].
  destruct (_ || _); cbn; by rewrite Hc.
Qed.

Lemma compareJobs_le a b : compareJobs a b ≤ 0 ↔ servedBefore a b.
Proof.
  unfold compareJobs, servedBefore.
  destruct (Z.eqb_spec (priority a) (priority b)); cbn; lia.
Qed.

Lemma servedBefore_trans a b c :
  servedBefore a b → servedBefore b c → servedBefore a c.
Proof. unfold servedBefore. lia. Qed.

Lemma servedBefore_total a b : servedBefore a b ∨ servedBefore b a.
Proof. unfold servedBefore. lia. Qed.

Lemma hd_insertJob x l :
  head (insertJob x l)
  = match head l with
    | Some y => if compareJobs x y <=? 0 then Some x else Some y
    | None => Some x
    end.
Proof. destruct l as [|y l]; cbn; [done|]. by destruct (_ <=? _). Qed.

(** The head of the sorted queue is the first of the minimal jobs: the
    jobs inserted before it come strictly after it in the order, the jobs
    inserted after it do not come before it. *)
Lemma head_sortJobs q :
  q ≠ [] →
  ∃ job pre post,
    head (sortJobs q) = Some job
    ∧ q = pre ++ job :: post
    ∧ (∀ j, j ∈ pre → ¬ servedBefore j job)
    ∧ (∀ j, j ∈ post → servedBefore job j).
Proof.
  induction q as [|x q IH]; [done|]. intros _.
  cbn [sortJobs foldr]. fold (sortJobs q). rewrite hd_insertJob.
  destruct q as [|y q'].
  { exists x, [], []. cbn. split; [done|]. split; [done|].
    split; by intros ? ?%elem_of_nil. }
  destruct (IH ltac:(done)) as (job & pre & post & Hhd & Hq & Hpre & Hpost).
  rewrite Hhd.
  destruct (Z.leb_spec (compareJobs x job) 0) as [Hle|Hgt].
  - apply compareJobs_le in Hle.
    exists x, [], (y :: q'). split; [done|]. split; [done|].
    split; [by intros ? ?%elem_of_nil|].
    intros j Hj. rewrite Hq in Hj.
    apply elem_of_app in Hj as [Hj|Hj].
    + destruct (servedBefore_total j job) as [Hjj|Hjj]; [by destruct (Hpre j)|].
      by eapply servedBefore_trans.
    + apply elem_of_cons in Hj as [->|Hj]; [done|].
      eapply servedBefore_trans; [done|by apply Hpost].
  - exists job, (x :: pre), post. split; [done|].
    split; [by rewrite Hq|]. split; [|done].
    intros j [->|Hj]%elem_of_cons; [|by apply Hpre].
    rewrite <- compareJobs_le. lia.
Qed.

(** C8: when the queue is not empty, [getNextJob] hands out a queued job
    that is minimal for the order (priority ascending, then time of
    enqueueing ascending): no queued job has a lower priority value, and
    none of the same priority was enqueued earlier; among jobs equal in
    both it is the one inserted first.  The job leaves the queue and its
    id enters the processing set. *)
Theorem getNextJob_minimal (s : t) :
  queue s ≠ [] →
  ∃ job pre post,
    fst (getNextJob s) = Some job
    ∧ queue s = pre ++ job :: post
    ∧ (∀ j, j ∈ queue s → servedBefore job j)
    ∧ (∀ j, j ∈ pre → ¬ servedBefore j job)
    ∧ queue (snd (getNextJob s)) = queueDelete (messageId job) (queue s)
    ∧ processing (snd (getNextJob s)) = {[messageId job]} ∪ processing s
    ∧ completed (snd (getNextJob s)) = completed s.
Proof.
  intros Hne.
  destruct (head_sortJobs (queue s) Hne)
    as (job & pre & post & Hhd & Hq & Hpre & Hpost).
  exists job, pre, post. unfold getNextJob.
  destruct (sortJobs (queue s)) as [|job' rest]; [done|].
  injection Hhd as ->. cbn.
  split; [done|]. split; [done|]. split; [|done].
  intros j Hj. rewrite Hq in Hj.
  apply elem_of_app in Hj as [Hj|Hj].
  - destruct (servedBefore_total j job) as [Hjj|Hjj]; [by destruct (Hpre j)|done].
  - apply elem_of_cons in Hj as [->|Hj]; [|by apply Hpost].
    unfold servedBefore. lia.
Qed.

Lemma getNextJob_empty s : queue s = [] → getNextJob s = (None, s).
Proof. intros H. unfold getNextJob. by rewrite H. Qed.

End MediaQueueFacts.

(** ** The properties at work on the scenarios *)

Section Instances.

Import Scenarios.

(** C1, as stated, fails: a second [scheduleReconnection] 500 ms after the
    first is not refused, it is answered with attempt 2. *)
Lemma second_schedule_within_2s_accepted :
  fst firstCall = Some (1, 10000)
  ∧ fst secondCall = Some (2, 20000)
  ∧ fst secondCall ≠ None.
Proof. vm_compute. split; [done|]. split; done. Qed.

Lemma schedule_spacing_guard_witness :
  ReconnectionManager.canReconnect ReconnectionManager.defaultSettings
    client 1000 ReconnectionManager.empty = true
  ∧ fst firstCall = Some (1, 10000)
  ∧ ReconnectionManager.scheduleReconnection
      ReconnectionManager.defaultSettings client 12500 (1 # 2)
      (snd (ReconnectionManager.timerFires 0 11000 (snd firstCall)))
    = (None, snd (ReconnectionManager.timerFires 0 11000 (snd firstCall)))
  ∧ fst (ReconnectionManager.scheduleReconnection
           ReconnectionManager.defaultSettings client 12500 (1 # 2)
           (ReconnectionManager.callbackSettles
              ReconnectionManager.defaultSettings client
              ReconnectionManager.Resolved
              (snd (ReconnectionManager.timerFires 0 11000 (snd firstCall)))))
    = Some (1, ReconnectionManager.calculateDelay
                 ReconnectionManager.defaultSettings 1 (1 # 2)).
Proof.
  pose proof (schedule_spacing_guard ReconnectionManager.defaultSettings
                client 1000 11000 12500 (1 # 2) (1 # 2)
                ReconnectionManager.empty eq_refl
                ltac:(discriminate) eq_refl) as H.
  cbv zeta in H.
  destruct H as (_ & _ & H1 & _ & _ & H2 & _ & _ & _ & _ & H3).
  split; [reflexivity|]. split; [exact H1|]. split; [exact H2|].
  exact (proj1 (H3 eq_refl)).
Defined.

Lemma reconnection_delay_backoff_witness :
  ReconnectionManager.calculateDelay ReconnectionManager.defaultSettings 1 (1 # 2)
  = 10000
  ∧ ReconnectionManager.calculateDelay ReconnectionManager.defaultSettings 1 0
    = 9000
  ∧ ReconnectionManager.calculateDelay ReconnectionManager.defaultSettings 1 (1 # 2)
    ≤ ReconnectionManager.calculateDelay ReconnectionManager.defaultSettings 2 (1 # 4).
Proof.
  pose proof (reconnection_delay_backoff ReconnectionManager.defaultSettings
                1 2 (1 # 2) (1 # 4)
                eq_refl eq_refl eq_refl eq_refl
                ltac:(discriminate) ltac:(discriminate)
                ltac:(discriminate) eq_refl
                ltac:(discriminate) eq_refl) as H.
  cbv zeta in H.
  destruct H as (_ & _ & _ & _ & Hlow & Hmid & _ & _ & _ & _ & _ & _ & Hmono).
  split; [exact Hmid|]. split; [exact Hlow|].
  exact (Hmono eq_refl eq_refl).
Defined.

(** C4, as stated, fails twice over.  The limit the process runs with
    when nothing is configured is 3, the default of [maxRetries] in
    conf/config.js, not 10: a client is refused at a counter of 3.  And
    [cleanup], without any call to [resetAttempts], makes scheduling
    possible again. *)
Lemma default_limit_is_3_and_cleanup_reenables :
  ReconnectionManager.maxAttempts ReconnectionManager.defaultSettings = 3
  ∧ ReconnectionManager.maxAttempts ReconnectionManager.defaultSettings ≠ 10
  ∧ ReconnectionManager.getAttempts client exhausted = 3
  ∧ fst (ReconnectionManager.scheduleReconnection
           ReconnectionManager.defaultSettings client 60000 (1 # 2) exhausted)
    = None
  ∧ ReconnectionManager.statusCanReconnect
      (ReconnectionManager.getStatus ReconnectionManager.defaultSettings
         client 60000 exhausted) = false
  ∧ fst (ReconnectionManager.scheduleReconnection
           ReconnectionManager.defaultSettings client 60000 (1 # 2)
           (ReconnectionManager.cleanup client exhausted))
    = Some (1, 10000).
Proof. vm_compute. repeat split; done. Qed.

Lemma exhausted_until_reset_witness :
  let s' := ReconnectionManager.exec ReconnectionManager.defaultSettings
              quietEvents exhausted in
  ReconnectionManager.scheduleReconnection
    ReconnectionManager.defaultSettings client 60000 (1 # 2) s' = (None, s')
  ∧ fst (ReconnectionManager.scheduleReconnection
           ReconnectionManager.defaultSettings client 60000 (1 # 2)
           (ReconnectionManager.resetAttempts client s'))
    = Some (1, ReconnectionManager.calculateDelay
                 ReconnectionManager.defaultSettings 1 (1 # 2)).
Proof.
  pose proof (exhausted_until_reset ReconnectionManager.defaultSettings
                client quietEvents exhausted
                eq_refl ltac:(vm_compute; discriminate) eq_refl) as H.
  cbv zeta in H |- *.
  split.
  - exact (proj1 H 60000 (1 # 2)).
  - exact (proj1 (proj2 (proj2 (proj2 H))) 60000 (1 # 2)).
Defined.

(** C7, as stated, fails: without a state entry the check returns false
    although the client is not stuck in any state. *)
Lemma checkStateValid_false_without_entry :
  ¬ (∀ th n st now sm,
       Watchdog.checkStateValid th n st now sm = false
       ↔ ∃ e, st = Some e ∧ Watchdog.stuck th n e now sm).
Proof.
  intros H.
  destruct (proj1 (H Watchdog.defaultThresholds client None 0
                     ClientStateManager.empty) eq_refl)
    as (e & [=] & _).
Qed.

Lemma state_valid_check_and_recovery_witness :
  Watchdog.checkStateValid Watchdog.defaultThresholds client
    (ClientStateManager.getState client (Watchdog.stateManager waitingClient))
    201000 (Watchdog.stateManager waitingClient) = false
  ∧ fst (Watchdog.attemptRecovery ReconnectionManager.defaultSettings client
           onlyStateInvalid true 201000 201000 (1 # 2) waitingClient)
    = Some true
  ∧ Watchdog.calls
      (snd (Watchdog.attemptRecovery ReconnectionManager.defaultSettings
              client onlyStateInvalid true 201000 201000 (1 # 2)
              waitingClient))
    = [Watchdog.EInitialize client; Watchdog.ECleanupClient client].
Proof.
  pose proof (state_valid_check_and_recovery Watchdog.defaultThresholds
                ReconnectionManager.defaultSettings client
                (ClientStateManager.getState client
                   (Watchdog.stateManager waitingClient))
                201000 (Watchdog.stateManager waitingClient)
                onlyStateInvalid true 201000 201000 (1 # 2) waitingClient
                {| Watchdog.pupBrowser := Some true; Watchdog.pupPage := true;
                   Watchdog.info := None |}
                eq_refl eq_refl eq_refl eq_refl) as H.
  cbv zeta in H.
  split; [reflexivity|]. split.
  - exact (proj1 (proj2 (proj2 H))).
  - exact (proj1 (proj2 (proj2 (proj2 (proj2 H))))).
Defined.

(** The scenario of the specification, through the whole health check. *)
Example stuck_waiting_qr_is_restarted :
  let out := Watchdog.checkClientHealth ReconnectionManager.defaultSettings
               Watchdog.defaultThresholds client (qrRun true) waitingClient in
  fst out = Some onlyStateInvalid
  ∧ Watchdog.calls (snd out)
    = [Watchdog.EEvaluate client; Watchdog.EInitialize client;
       Watchdog.ECleanupClient client]
  ∧ Watchdog.clients (snd out) !! client = None
  ∧ ReconnectionManager.getAttempts client
      (Watchdog.reconnectionManager (snd out)) = 1.
Proof. vm_compute. repeat split; done. Qed.

Lemma markAsUnread_then_markAsRead_witness :
  ChatCache.indexed client loadedCache
  ∧ (ChatCache.unreadCount
       <$> ChatCache.lookupChat client "593111@c.us"
             (ChatCache.markAsRead client "593111@c.us" 7000
                (ChatCache.markAsUnread client "593111@c.us" 3 6000 loadedCache)))
    = Some (Some 0)
  ∧ ¬ ChatCache.inUnreadIndex client "593111@c.us"
        (ChatCache.markAsRead client "593111@c.us" 7000
           (ChatCache.markAsUnread client "593111@c.us" 3 6000 loadedCache)).
Proof.
  assert (Hidx : ChatCache.indexed client loadedCache).
  { unfold ChatCache.indexed. vm_compute. split; intros _; eexists; reflexivity. }
  pose proof (markAsUnread_then_markAsRead client "593111@c.us" 3 6000 7000
                loadedCache Hidx) as H.
  cbv zeta in H.
  split; [exact Hidx|]. split.
  - exact (proj1 (proj2 H)).
  - exact (proj1 H).
Defined.

Lemma enqueue_idempotent_witness :
  MediaQueue.isQueued "m1" threeJobs
  ∧ MediaQueue.enqueue "m1" (imageMessage "m1") client 2 99 threeJobs
    = (MediaQueue.RProcessing, threeJobs).
Proof.
  assert (Hq : MediaQueue.isQueued "m1" threeJobs).
  { eexists. split; [apply list_elem_of_here|reflexivity]. }
  pose proof (enqueue_idempotent "m1" (imageMessage "m1") client 2 99
                threeJobs (or_intror (or_intror Hq))) as H.
  split; [exact Hq|].
  rewrite (surjective_pairing (MediaQueue.enqueue _ _ _ _ _ _)).
  rewrite (proj1 H), (proj1 (proj2 H)). reflexivity.
Defined.

Lemma getNextJob_minimal_witness :
  ∃ job pre post,
    fst (MediaQueue.getNextJob threeJobs) = Some job
    ∧ MediaQueue.queue threeJobs = pre ++ job :: post
    ∧ (∀ j, j ∈ MediaQueue.queue threeJobs → MediaQueue.servedBefore job j)
    ∧ (∀ j, j ∈ pre → ¬ MediaQueue.servedBefore j job)
    ∧ MediaQueue.queue (snd (MediaQueue.getNextJob threeJobs))
      = MediaQueue.queueDelete (MediaQueue.messageId job) (MediaQueue.queue threeJobs)
    ∧ MediaQueue.processing (snd (MediaQueue.getNextJob threeJobs))
      = {[MediaQueue.messageId job]} ∪ MediaQueue.processing threeJobs
    ∧ MediaQueue.completed (snd (MediaQueue.getNextJob threeJobs))
      = MediaQueue.completed threeJobs.
Proof. apply (getNextJob_minimal threeJobs). discriminate. Defined.

(** The high-priority job, enqueued last, is served first; of the two
    others the earlier one follows. *)
Example priority_then_fifo :
  MediaQueue.messageId <$> fst (MediaQueue.getNextJob threeJobs) = Some "m3"
  ∧ MediaQueue.messageId
      <$> fst (MediaQueue.getNextJob (snd (MediaQueue.getNextJob threeJobs)))
    = Some "m1"
  ∧ MediaQueue.getStatus "m2" threeJobs = MediaQueue.SQueued 3 20
  ∧ MediaQueue.getStatus "m9" threeJobs = MediaQueue.SNotFound.
Proof. vm_compute. repeat split; done. Qed.

(** Fifty-one transitions of one client: the first is the one dropped. *)
Example history_of_51 :
  let ops := (fun i => ClientStateManager.OpSetState client
                         ClientStateManager.READY [] (Z.of_nat i) (Z.of_nat i))
             <$> seq 0 51 in
  let h := ClientStateManager.getHistory client
             (ClientStateManager.exec ops ClientStateManager.empty) in
  length h = 50%nat
  ∧ ClientStateManager.changedAt <$> head h = Some 1
  ∧ ClientStateManager.changedAt <$> last h = Some 50.
Proof. vm_compute. repeat split; done. Qed.

End Instances.

(** ** State store: consistency of state and history *)

Section StateStoreConsistency.
Import ClientStateManager Invariants.

Lemma chained_snoc (h : list StateChange) (c : StateChange) :
  chained h →
  (∀ c0, last h = Some c0 → from c = fromName (to c0)) →
  chained (h ++ [c]).
Proof.
  induction h as [|c1 [|c2 rest] IH]; intros Hch Hlast; cbn.
  - done.
  - split; [|done]. by apply Hlast.
  - destruct Hch as [H12 Hrest]. split; [done|].
    apply IH; [done|]. intros c0 Hc0. by apply Hlast.
Qed.

Lemma chained_tail (h : list StateChange) : chained h → chained (tail h).
Proof.
  destruct h as [|c1 [|c2 rest]]; cbn; [done..|]. by intros [_ H].
Qed.

Lemma last_pushBounded (h : list StateChange) (c : StateChange) :
  last (pushBounded h c) = Some c.
Proof.
  unfold pushBounded.
  destruct (Nat.ltb_spec 50 (length (h ++ [c]))) as [Hlt|_];
    [|by rewrite last_snoc].
  rewrite length_app in Hlt.
  destruct h as [|c1 rest]; [cbn in Hlt; lia|].
  change (tail ((c1 :: rest) ++ [c])) with (rest ++ [c]).
  by rewrite last_snoc.
Qed.

Lemma chained_pushBounded (h : list StateChange) (c : StateChange) :
  chained h →
  (∀ c0, last h = Some c0 → from c = fromName (to c0)) →
  chained (pushBounded h c).
Proof.
  intros Hch Hlast. unfold pushBounded.
  destruct (_ <? _)%nat; [apply chained_tail|]; by apply chained_snoc.
Qed.

Lemma Forall_pushBounded (P : StateChange → Prop) (h : list StateChange) c :
  Forall P h → P c → Forall P (pushBounded h c).
Proof.
  intros Hh Hc. unfold pushBounded.
  assert (Forall P (h ++ [c])) as Hall by (apply Forall_app; auto).
  destruct (_ <? _)%nat; [|done].
  destruct (h ++ [c]); [done|]. by inversion Hall.
Qed.

Lemma consistentFor_step n o s : consistentFor n s → consistentFor n (step o s).
Proof.
  intros (Hch & Hnum & Hst). destruct o as [m st meta t1 t2|m]; cbn [step].
  - destruct (decide (m = n)) as [->|Hne].
    + unfold consistentFor.
      rewrite getHistory_setState, getState_setState. cbn [fst setState state].
      split; [|split].
      * apply chained_pushBounded; [done|]. intros c0 Hc0. cbn.
        unfold getState in Hst. destruct (states s !! n) as [e|]; cbn.
        -- rewrite Hc0 in Hst. cbn in Hst. injection Hst as ->. done.
        -- by rewrite Hst in Hc0.
      * by apply Forall_pushBounded.
      * by rewrite last_pushBounded.
    + unfold consistentFor. rewrite getHistory_setState_ne by done.
      unfold getState, setState. cbn. by rewrite lookup_insert_ne.
  - destruct (decide (m = n)) as [->|Hne].
    + unfold consistentFor. rewrite getHistory_clearState.
      unfold getState, clearState. cbn. by rewrite lookup_delete_eq.
    + unfold consistentFor. rewrite getHistory_clearState_ne by done.
      unfold getState, clearState. cbn. by rewrite lookup_delete_ne.
Qed.

Lemma consistentFor_exec n ops : ∀ s, consistentFor n s → consistentFor n (exec ops s).
Proof.
  induction ops as [|o ops IH]; intros s Hs; [done|].
  change (exec (o :: ops) s) with (exec ops (step o s)).
  by apply IH, consistentFor_step.
Qed.

(** X1: in every state reached from the empty store a client has a current
    state exactly when its history is not empty; the last record of the
    history then enters the current state, every record carries the
    client's number, and each record leaves the state the record before it
    entered ([UNKNOWN] standing for an empty state name). *)
Theorem state_and_history_agree (ops : list op) (n : string) :
  let s := exec ops empty in
  chained (getHistory n s)
  ∧ Forall (fun c => number c = n) (getHistory n s)
  ∧ (getState n s = None ↔ getHistory n s = [])
  ∧ (∀ e, getState n s = Some e →
          to <$> last (getHistory n s) = Some (state e)).
Proof.
  intros s.
  assert (H : consistentFor n s).
  { apply consistentFor_exec. unfold consistentFor, getHistory, getState, empty.
    cbn. by rewrite !lookup_empty. }
  destruct H as (Hch & Hnum & Hst).
  split; [done|]. split; [done|]. split.
  - destruct (getState n s) as [e|]; [|done].
    split; [done|]. intros Hnil. by rewrite Hnil in Hst.
  - intros e He. by rewrite He in Hst.
Qed.

(** X2: the store is partitioned by client: an operation about one client
    leaves the state, the history, the age and both verdicts of every other
    client as they were. *)
Theorem other_clients_untouched (o : op) (n : string) (now : Z) (s : t) :
  opClient o ≠ n →
  getState n (step o s) = getState n s
  ∧ getHistory n (step o s) = getHistory n s
  ∧ getStateAge n now (step o s) = getStateAge n now s
  ∧ isHealthy n (step o s) = isHealthy n s
  ∧ isRecoverable n (step o s) = isRecoverable n s.
Proof.
  intros Hne.
  assert (Hst : getState n (step o s) = getState n s).
  { destruct o as [m st meta t1 t2|m]; cbn in *.
    - unfold getState, setState. cbn. by rewrite lookup_insert_ne.
    - unfold getState, clearState. cbn. by rewrite lookup_delete_ne. }
  split; [done|]. split.
  - destruct o as [m st meta t1 t2|m]; cbn in *.
    + by apply getHistory_setState_ne.
    + by apply getHistory_clearState_ne.
  - unfold getStateAge, isHealthy, isRecoverable. by rewrite Hst.
Qed.

(** X3: [isRecoverable] is false exactly for a client whose current state
    is ZOMBIE or ERROR; a client without an entry is recoverable, a healthy
    client always is, and [clearState] makes any client recoverable and not
    healthy, with no state, no history and no age. *)
Theorem isRecoverable_spec (n : string) (now : Z) (s : t) :
  (isRecoverable n s = false
   ↔ ∃ e, getState n s = Some e ∧ (state e = ZOMBIE ∨ state e = ERROR))
  ∧ (isHealthy n s = true → isRecoverable n s = true)
  ∧ (∀ meta t1 t2,
       map (fun st => isRecoverable n (snd (setState n st meta t1 t2 s)))
           CLIENT_STATES
       = [true; true; true; true; true; true; true; false; true; false])
  ∧ (isRecoverable n (clearState n s) = true
     ∧ isHealthy n (clearState n s) = false
     ∧ getState n (clearState n s) = None
     ∧ getHistory n (clearState n s) = []
     ∧ getStateAge n now (clearState n s) = None
     ∧ clearState n (clearState n s) = clearState n s).
Proof.
  assert (Hin : ∀ x, includes [ZOMBIE; ERROR] x = true
                     ↔ x = ZOMBIE ∨ x = ERROR).
  { intros x. unfold includes. cbn [existsb].
    rewrite orb_false_r, orb_true_iff, !String.eqb_eq. tauto. }
  split; [|split; [|split]].
  - unfold isRecoverable. destruct (getState n s) as [e|].
    + rewrite negb_false_iff, Hin. split; [intros H; by exists e|].
      by intros (e' & [= <-] & H).
    + split; [done|]. by intros (e' & [=] & _).
  - unfold isHealthy, isRecoverable. destruct (getState n s) as [e|]; [|done].
    unfold includes. cbn [existsb]. rewrite !orb_false_r.
    intros [H|H]%orb_true_iff; apply String.eqb_eq in H; by rewrite H.
  - intros meta t1 t2. unfold isRecoverable, CLIENT_STATES. cbn [map].
    by rewrite !getState_setState.
  - assert (Hg : getState n (clearState n s) = None).
    { unfold getState, clearState. cbn. by rewrite lookup_delete_eq. }
    unfold isRecoverable, isHealthy, getStateAge. rewrite Hg.
    rewrite getHistory_clearState. repeat split.
    unfold clearState. cbn. f_equal; apply delete_delete_eq.
Qed.

End StateStoreConsistency.

(** ** Reconnection scheduler: timers and counters *)

Section SchedulerTimers.
Import ReconnectionManager Invariants.

Variable cfg : Settings.

Lemma noTimerFor_unregistered n s :
  timersConsistent s → reconnectTimers s !! n = None → noTimerFor n s.
Proof.
  intros [Hreg _] Hnone h d Harmed. apply Hreg in Harmed. congruence.
Qed.

Lemma clearTimer_spec n s :
  timersConsistent s →
  timersConsistent (clearTimer n s)
  ∧ reconnectTimers (clearTimer n s) !! n = None
  ∧ noTimerFor n (clearTimer n s).
Proof.
  intros (Hreg & Hlt & Htl).
  assert (Hc : timersConsistent (clearTimer n s)
               ∧ reconnectTimers (clearTimer n s) !! n = None).
  { unfold clearTimer. destruct (reconnectTimers s !! n) as [h|] eqn:Hn.
    - split; [|cbn; by rewrite lookup_delete_eq]. split; [|split]; cbn.
      + intros h' n' d Harmed.
        apply lookup_delete_Some in Harmed as [Hne Harmed].
        pose proof (Hreg _ _ _ Harmed) as Hn'.
        destruct (decide (n = n')) as [<-|Hnn]; [congruence|].
        by rewrite lookup_delete_ne.
      + intros h' [x Hx]. apply lookup_delete_Some in Hx as [_ Hx].
        apply Hlt. eauto.
      + intros n' h' Hx. apply lookup_delete_Some in Hx as [_ Hx]. eauto.
    - by split. }
  destruct Hc as [Hc Hnone]. split; [done|]. split; [done|].
  by apply noTimerFor_unregistered.
Qed.

Lemma timersConsistent_with_fields s s' :
  reconnectTimers s' = reconnectTimers s → armed s' = armed s →
  nextHandle s' = nextHandle s →
  timersConsistent s → timersConsistent s'.
Proof. intros Ht Ha Hn. unfold timersConsistent. by rewrite Ht, Ha, Hn. Qed.

Lemma resetAttempts_consistent n s :
  timersConsistent s →
  timersConsistent (resetAttempts n s) ∧ noTimerFor n (resetAttempts n s).
Proof.
  intros Hs. unfold resetAttempts.
  set (s1 := {| reconnectAttempts := delete n (reconnectAttempts s);
                reconnectTimers := reconnectTimers s;
                lastReconnectTime := lastReconnectTime s;
                armed := armed s; nextHandle := nextHandle s |}).
  assert (Hs1 : timersConsistent s1) by (by apply (timersConsistent_with_fields s)).
  destruct (clearTimer_spec n s1 Hs1) as (Hc & _ & Hno).
  split; [by apply (timersConsistent_with_fields (clearTimer n s1))|].
  exact Hno.
Qed.

Lemma cleanup_consistent n s :
  timersConsistent s →
  timersConsistent (cleanup n s) ∧ noTimerFor n (cleanup n s).
Proof.
  intros Hs. unfold cleanup.
  destruct (clearTimer_spec n s Hs) as (Hc & _ & Hno).
  split; [by apply (timersConsistent_with_fields (clearTimer n s))|].
  exact Hno.
Qed.

(** After an accepted call exactly one timer is armed for the client: the
    new one, with the delay the call returned. *)
Lemma schedule_consistent n now r s :
  timersConsistent s →
  timersConsistent (snd (scheduleReconnection cfg n now r s))
  ∧ (canReconnect cfg n now s = true →
     ∀ h d, armed (snd (scheduleReconnection cfg n now r s)) !! h = Some (n, d)
            ↔ h = nextHandle s
              ∧ d = calculateDelay cfg (getAttempts n s + 1) r).
Proof.
  intros Hs. unfold scheduleReconnection.
  destruct (canReconnect cfg n now s) eqn:Hcan; cbn [negb]; [|by split].
  cbn [incrementAttempts].
  set (s1 := {| reconnectAttempts := <[n:=getAttempts n s + 1]> (reconnectAttempts s);
                reconnectTimers := reconnectTimers s;
                lastReconnectTime := lastReconnectTime s;
                armed := armed s; nextHandle := nextHandle s |}).
  assert (Hs1 : timersConsistent s1) by (by apply (timersConsistent_with_fields s)).
  destruct (clearTimer_spec n s1 Hs1) as ((Hreg & Hlt & Htl) & Hnone & Hno).
  assert (Hnh : nextHandle (clearTimer n s1) = nextHandle s)
    by exact (clearTimer_nextHandle n s1).
  cbn [snd]. rewrite Hnh. split; [split; [|split]; cbn|].
  - intros h n' d Harmed.
    destruct (decide (h = nextHandle s)) as [->|Hne].
    + rewrite lookup_insert_eq in Harmed. injection Harmed as <- <-.
      by rewrite lookup_insert_eq.
    + rewrite lookup_insert_ne in Harmed by done.
      destruct (decide (n = n')) as [<-|Hnn]; [by destruct (Hno h d Harmed)|].
      rewrite lookup_insert_ne by done. exact (Hreg _ _ _ Harmed).
  - intros h [x Hx]. destruct (decide (h = nextHandle s)) as [->|Hne]; [lia|].
    rewrite lookup_insert_ne in Hx by done.
    assert (h < nextHandle (clearTimer n s1))%nat by (apply Hlt; eauto). lia.
  - intros n' h Hx. destruct (decide (n = n')) as [<-|Hnn].
    + rewrite lookup_insert_eq in Hx. injection Hx as <-. lia.
    + rewrite lookup_insert_ne in Hx by done. apply Htl in Hx. lia.
  - intros _ h d. cbn. split.
    + intros Harmed. destruct (decide (h = nextHandle s)) as [->|Hne].
      * rewrite lookup_insert_eq in Harmed. by injection Harmed as <-.
      * rewrite lookup_insert_ne in Harmed by done. by destruct (Hno h d Harmed).
    + intros [-> ->]. by rewrite lookup_insert_eq.
Qed.

Lemma timerFires_consistent h now s :
  timersConsistent s → timersConsistent (snd (timerFires h now s)).
Proof.
  intros (Hreg & Hlt & Htl). unfold timerFires.
  destruct (armed s !! h) as [[n d]|] eqn:Hh; [|by split].
  split; [|split]; cbn.
  - intros h' n' d' Harmed. apply lookup_delete_Some in Harmed as [_ Harmed].
    exact (Hreg _ _ _ Harmed).
  - intros h' [x Hx]. apply lookup_delete_Some in Hx as [_ Hx]. apply Hlt. eauto.
  - done.
Qed.

Lemma timersConsistent_step o s :
  timersConsistent s → timersConsistent (step cfg o s).
Proof.
  intros Hs. destruct o as [n now r|h now|n [|t1 t2 r]|n|n|n]; cbn [step].
  - by apply schedule_consistent.
  - by apply timerFires_consistent.
  - by apply resetAttempts_consistent.
  - unfold callbackSettles. destruct (canReconnect cfg n t1 s); [|done].
    by apply schedule_consistent.
  - by apply clearTimer_spec.
  - by apply resetAttempts_consistent.
  - by apply cleanup_consistent.
Qed.

Lemma timersConsistent_exec ops : ∀ s,
  timersConsistent s → timersConsistent (exec cfg ops s).
Proof.
  induction ops as [|o ops IH]; intros s Hs; [done|].
  change (exec cfg (o :: ops) s) with (exec cfg ops (step cfg o s)).
  by apply IH, timersConsistent_step.
Qed.

Lemma timersConsistent_empty : timersConsistent empty.
Proof.
  split; [|split]; cbn;
    [intros h n d|intros h [x Hx]|intros n h Hx]; by rewrite lookup_empty in *.
Qed.

(** X4: at most one reconnection is pending per client.  In every state
    the manager reaches from the empty one, through any sequence of
    schedulings, timer firings, callback outcomes, resets and cleanups, an
    armed timer is the one registered for its client in [reconnectTimers];
    so two armed timers never belong to the same client. *)
Theorem at_most_one_pending_timer (ops : list op) :
  let s := exec cfg ops empty in
  (∀ h n d, armed s !! h = Some (n, d) → reconnectTimers s !! n = Some h)
  ∧ (∀ h1 h2 n d1 d2,
       armed s !! h1 = Some (n, d1) → armed s !! h2 = Some (n, d2) →
       h1 = h2 ∧ d1 = d2).
Proof.
  intros s.
  destruct (timersConsistent_exec ops empty timersConsistent_empty) as [Hreg _].
  fold s in Hreg. split; [done|].
  intros h1 h2 n d1 d2 H1 H2.
  pose proof (Hreg _ _ _ H1) as E1. pose proof (Hreg _ _ _ H2) as E2.
  assert (h1 = h2) as -> by congruence. split; [done|]. congruence.
Qed.

(** X5: scheduling cancels the reconnection that was pending.  After a
    call that is accepted, the only timer armed for the client is the new
    one, with the delay the call returned; the handle registered before is
    no longer armed, so its firing runs nothing and changes nothing. *)
Theorem schedule_replaces_pending_timer (n : string) (now : Z) (r : Q)
    (hOld : nat) (tfire : Z) (s : t) :
  timersConsistent s →
  canReconnect cfg n now s = true →
  reconnectTimers s !! n = Some hOld →
  let s' := snd (scheduleReconnection cfg n now r s) in
  (∀ h d, armed s' !! h = Some (n, d)
          ↔ h = nextHandle s ∧ d = calculateDelay cfg (getAttempts n s + 1) r)
  ∧ reconnectTimers s' !! n = Some (nextHandle s)
  ∧ armed s' !! hOld = None
  ∧ timerFires hOld tfire s' = (None, s').
Proof.
  intros Hs Hcan Hold s'.
  destruct (schedule_consistent n now r s Hs) as [_ Honly].
  specialize (Honly Hcan). fold s' in Honly.
  destruct (schedule_accepted cfg n now r s Hcan) as (_ & _ & _ & _ & Htim).
  fold s' in Htim.
  assert (Hlt : (hOld < nextHandle s)%nat).
  { destruct Hs as (_ & _ & Htl). by eapply Htl. }
  split; [done|]. split; [done|].
  assert (Hnone : armed s' !! hOld = None).
  { unfold s', scheduleReconnection. rewrite Hcan. cbn.
    unfold clearTimer. cbn. rewrite Hold. cbn.
    rewrite lookup_insert_ne by lia. apply lookup_delete_eq. }
  split; [done|]. unfold timerFires. by rewrite Hnone.
Qed.

(** X6: [resetAttempts] and [cleanup] cancel the pending reconnection and
    forget the client: afterwards no timer is armed for it, the firing of
    the handle that was registered runs nothing, the counter reads 0, no
    reconnection is reported as scheduled and no attempt time is
    recorded. *)
Theorem reset_cancels_pending_timer (n : string) (hOld : nat) (tfire now : Z)
    (s : t) :
  timersConsistent s →
  reconnectTimers s !! n = Some hOld →
  let s' := resetAttempts n s in
  noTimerFor n s'
  ∧ timerFires hOld tfire s' = (None, s')
  ∧ getStatus cfg n now s'
    = {| attempts := 0; statusMaxAttempts := maxAttempts cfg;
         hasScheduledReconnect := false; statusLastReconnectTime := None;
         statusCanReconnect := bool_decide (0 < maxAttempts cfg) |}
  ∧ noTimerFor n (cleanup n s)
  ∧ timerFires hOld tfire (cleanup n s) = (None, cleanup n s)
  ∧ getStatus cfg n now (cleanup n s) = getStatus cfg n now s'.
Proof.
  intros Hs Hold s'.
  destruct (resetAttempts_consistent n s Hs) as [_ Hno].
  destruct (cleanup_consistent n s Hs) as [_ Hno'].
  fold s' in Hno.
  assert (Hfields : reconnectAttempts s' !! n = None
                    ∧ reconnectTimers s' !! n = None
                    ∧ lastReconnectTime s' !! n = None
                    ∧ armed s' !! hOld = None).
  { unfold s', resetAttempts, clearTimer. cbn. rewrite Hold. cbn.
    by rewrite !lookup_delete_eq. }
  assert (Hfields' : reconnectAttempts (cleanup n s) !! n = None
                     ∧ reconnectTimers (cleanup n s) !! n = None
                     ∧ lastReconnectTime (cleanup n s) !! n = None
                     ∧ armed (cleanup n s) !! hOld = None).
  { unfold cleanup, clearTimer. rewrite Hold. cbn.
    by rewrite !lookup_delete_eq. }
  destruct Hfields as (Ha & Ht & Hl & Harm).
  destruct Hfields' as (Ha' & Ht' & Hl' & Harm').
  assert (Hstatus : ∀ x, reconnectAttempts x !! n = None →
                         reconnectTimers x !! n = None →
                         lastReconnectTime x !! n = None →
                         getStatus cfg n now x
                         = {| attempts := 0; statusMaxAttempts := maxAttempts cfg;
                              hasScheduledReconnect := false;
                              statusLastReconnectTime := None;
                              statusCanReconnect := bool_decide (0 < maxAttempts cfg) |}).
  { intros x Hx1 Hx2 Hx3. unfold getStatus, canReconnect, getAttempts.
    rewrite Hx1, Hx2, Hx3. cbn.
    assert (Hb : (if maxAttempts cfg <=? 0 then false else true)
                 = bool_decide (0 < maxAttempts cfg)).
    { destruct (Z.leb_spec (maxAttempts cfg) 0).
      - symmetry. apply bool_decide_eq_false_2. lia.
      - symmetry. by apply bool_decide_eq_true_2. }
    rewrite Hb. f_equal.
    all: try (apply bool_decide_eq_false_2; by intros [? [=]]). }
  split; [done|]. split; [unfold timerFires; by rewrite Harm|].
  split; [by apply Hstatus|]. split; [done|].
  split; [unfold timerFires; by rewrite Harm'|].
  by rewrite !Hstatus.
Qed.

Lemma canReconnect_below_limit n now s :
  canReconnect cfg n now s = true → getAttempts n s < maxAttempts cfg.
Proof.
  unfold canReconnect.
  destruct (Z.leb_spec (maxAttempts cfg) (getAttempts n s)); [done|lia].
Qed.

Lemma getAttempts_deleted n s' s :
  reconnectAttempts s' = delete n (reconnectAttempts s) → getAttempts n s' = 0.
Proof. intros H. unfold getAttempts. by rewrite H, lookup_delete_eq. Qed.

Lemma attempts_bounded_step n o s :
  0 ≤ maxAttempts cfg →
  0 ≤ getAttempts n s ≤ maxAttempts cfg →
  0 ≤ getAttempts n (step cfg o s) ≤ maxAttempts cfg.
Proof.
  intros Hmax Hb.
  assert (Hsched : ∀ m now r,
            0 ≤ getAttempts n (snd (scheduleReconnection cfg m now r s))
            ≤ maxAttempts cfg).
  { intros m now r. destruct (decide (m = n)) as [->|Hne].
    - destruct (canReconnect cfg n now s) eqn:Hcan.
      + rewrite getAttempts_scheduled by done.
        apply canReconnect_below_limit in Hcan. lia.
      + by rewrite schedule_refused.
    - by rewrite getAttempts_schedule_other. }
  assert (Hreset : ∀ m, 0 ≤ getAttempts n (resetAttempts m s) ≤ maxAttempts cfg).
  { intros m. destruct (decide (m = n)) as [->|Hne].
    - rewrite (getAttempts_deleted n _ s); [lia|].
      unfold resetAttempts. cbn. by rewrite clearTimer_attempts.
    - by rewrite getAttempts_resetAttempts_other. }
  destruct o as [m now r|h now|m [|t1 t2 r]|m|m|m]; cbn [step].
  - apply Hsched.
  - by rewrite getAttempts_timerFires.
  - apply Hreset.
  - unfold callbackSettles. destruct (canReconnect cfg m t1 s); [|done].
    apply Hsched.
  - unfold getAttempts. by rewrite clearTimer_attempts.
  - apply Hreset.
  - destruct (decide (m = n)) as [->|Hne].
    + rewrite (getAttempts_deleted n _ (clearTimer n s)); [lia|done].
    + by rewrite getAttempts_cleanup_other.
Qed.

(** X7: the attempt counter stays within its limit.  Under a limit that is
    not negative, in every state reached from the empty manager the counter
    of every client lies between 0 and [maxAttempts], and an accepted call
    returns an attempt number between 1 and [maxAttempts], one above the
    counter it found. *)
Theorem attempts_never_exceed_limit (ops : list op) (n : string) (now : Z) (r : Q) :
  0 ≤ maxAttempts cfg →
  let s := exec cfg ops empty in
  0 ≤ getAttempts n s ≤ maxAttempts cfg
  ∧ (∀ a d, fst (scheduleReconnection cfg n now r s) = Some (a, d) →
            a = getAttempts n s + 1 ∧ 1 ≤ a ≤ maxAttempts cfg).
Proof.
  intros Hmax s.
  assert (Hb : 0 ≤ getAttempts n s ≤ maxAttempts cfg).
  { unfold s. clear s.
    assert (H : ∀ s0, 0 ≤ getAttempts n s0 ≤ maxAttempts cfg →
                      0 ≤ getAttempts n (exec cfg ops s0) ≤ maxAttempts cfg).
    { induction ops as [|o ops IH]; intros s0 H0; [done|].
      change (exec cfg (o :: ops) s0) with (exec cfg ops (step cfg o s0)).
      by apply IH, attempts_bounded_step. }
    apply H. unfold getAttempts, empty. cbn. rewrite lookup_empty. cbn. lia. }
  split; [done|]. intros a d Hres.
  destruct (canReconnect cfg n now s) eqn:Hcan.
  - destruct (schedule_accepted cfg n now r s Hcan) as (Hacc & _).
    rewrite Hacc in Hres. injection Hres as <- <-.
    apply canReconnect_below_limit in Hcan. lia.
  - by rewrite schedule_refused in Hres.
Qed.

(** X8: a callback that fails less than 2 s after its timer fired is not
    retried.  The timer's function records the time of the attempt before
    it runs the callback, so the guard of [canReconnect] in its error
    handler refuses: the manager is left as the firing left it, with the
    counter unchanged and no timer armed for the client, whatever the
    counter is. *)
Theorem quick_failure_is_not_retried (h : nat) (n : string) (d tfire tcheck tsched : Z)
    (r : Q) (s : t) :
  timersConsistent s →
  armed s !! h = Some (n, d) →
  tfire ≠ 0 →
  tcheck - tfire < 2000 →
  let s1 := snd (timerFires h tfire s) in
  fst (timerFires h tfire s) = Some n
  ∧ callbackSettles cfg n (Rejected tcheck tsched r) s1 = s1
  ∧ getAttempts n s1 = getAttempts n s
  ∧ noTimerFor n s1
  ∧ statusCanReconnect (getStatus cfg n tcheck s1) = false.
Proof.
  intros (Hreg & _) Harmed Ht Hquick s1.
  assert (Hs1 : s1 = {| reconnectAttempts := reconnectAttempts s;
                        reconnectTimers := reconnectTimers s;
                        lastReconnectTime := <[n := tfire]> (lastReconnectTime s);
                        armed := delete h (armed s);
                        nextHandle := nextHandle s |}).
  { unfold s1, timerFires. by rewrite Harmed. }
  assert (Hcan : canReconnect cfg n tcheck s1 = false).
  { apply (canReconnect_too_fast cfg n tcheck tfire); [|done..].
    rewrite Hs1. cbn. apply lookup_insert_eq. }
  split; [unfold timerFires; by rewrite Harmed|].
  split; [unfold callbackSettles; by rewrite Hcan|].
  split; [by rewrite Hs1|]. split; [|done].
  intros h' d' Hh'. rewrite Hs1 in Hh'. cbn in Hh'.
  apply lookup_delete_Some in Hh' as [Hne Hh'].
  pose proof (Hreg _ _ _ Hh') as E1. pose proof (Hreg _ _ _ Harmed) as E2.
  congruence.
Qed.

End SchedulerTimers.

(** ** Watchdog: the health check as a whole *)

Section WatchdogRuns.
Import ClientStateManager Watchdog.

Variable cfg : ReconnectionManager.Settings.
Variable th : Thresholds.

(** The two probing checks touch nothing but the state store and the call
    log. *)
Lemma checkProcessAlive_frame c n now w :
  let w' := snd (checkProcessAlive c n now w) in
  clients w' = clients w ∧ clientReadyState w' = clientReadyState w
  ∧ reconnectionManager w' = reconnectionManager w ∧ calls w' = calls w
  ∧ (fst (checkProcessAlive c n now w) = true → w' = w).
Proof.
  unfold checkProcessAlive. destruct (pupBrowser c) as [[|]|]; cbn; [done| |done].
  destruct (hasInfo c && isAuthenticated n w); cbn; done.
Qed.

Lemma checkBrowserResponsive_frame c n p now w :
  let w' := snd (checkBrowserResponsive c n p now w) in
  clients w' = clients w ∧ clientReadyState w' = clientReadyState w
  ∧ reconnectionManager w' = reconnectionManager w
  ∧ calls w' = calls w ++ (if pupPage c then [EEvaluate n] else [])
  ∧ (fst (checkBrowserResponsive c n p now w) = true
     ↔ pupPage c = true ∧ p = ProbeValue true)
  ∧ (fst (checkBrowserResponsive c n p now w) = true →
     w' = called (EEvaluate n) w).
Proof.
  unfold checkBrowserResponsive. destruct (pupPage c); cbn.
  - destruct p as [[|]|]; cbn; repeat split; try done; by intros [_ [=]].
  - rewrite app_nil_r. repeat split; try done. by intros [[=] _].
Qed.

(** X9: no action is taken on a healthy client.  When the browser is
    connected, the page answers the probe, the client has a state entry
    that is not stuck, and the client is either starting up (INITIALIZING,
    AUTHENTICATING or WAITING_QR) or has its session info, the health check
    reports four passing checks and writes one thing only: the client's
    entry of [healthChecks], with the time of the check, the four
    verdicts, [isHealthy = true] and the name of the state it read.  No
    state is recorded in the state store, no client removed, nothing
    scheduled; the probe is the only call made to the session. *)
Theorem healthy_client_is_left_alone (n : string) (run : Run) (w : World)
    (c : Client) (e : StateEntry) :
  clients w !! n = Some c →
  pupBrowser c = Some true →
  pupPage c = true →
  probeOutcome run = ProbeValue true →
  getState n (stateManager w) = Some e →
  ¬ stuck th n e (tAge run) (stateManager w) →
  includes [INITIALIZING; AUTHENTICATING; WAITING_QR] (state e) = true
    ∨ hasInfo c = true →
  let passed := {| processAlive := true; browserResponsive := true;
                   stateValid := true; websocketActive := true |} in
  checkClientHealth cfg th n run w
  = (Some passed,
     withHealthCheck (called (EEvaluate n) w) n
       {| hcTimestamp := tHealth run; hcChecks := passed;
          hcIsHealthy := true; hcState := Some (state e) |})
  ∧ healthChecks (snd (checkClientHealth cfg th n run w))
    = <[n := {| hcTimestamp := tHealth run; hcChecks := passed;
                hcIsHealthy := true; hcState := Some (state e) |}]>
        (healthChecks w)
  ∧ clients (snd (checkClientHealth cfg th n run w)) = clients w
  ∧ clientReadyState (snd (checkClientHealth cfg th n run w)) = clientReadyState w
  ∧ stateManager (snd (checkClientHealth cfg th n run w)) = stateManager w
  ∧ reconnectionManager (snd (checkClientHealth cfg th n run w))
    = reconnectionManager w
  ∧ calls (snd (checkClientHealth cfg th n run w)) = calls w ++ [EEvaluate n].
Proof.
  intros Hc Hb Hp Hprobe He Hstuck Hws.
  unfold checkClientHealth. rewrite Hc, He.
  unfold checkProcessAlive. rewrite Hb. cbn [negb].
  unfold checkBrowserResponsive. rewrite Hp, Hprobe. cbn [negb].
  assert (Hv : checkStateValid th n (Some e) (tAge run)
                 (stateManager (called (EEvaluate n) w)) = true).
  { destruct (checkStateValid th n (Some e) (tAge run)
                (stateManager (called (EEvaluate n) w))) eqn:Hv; [done|].
    apply checkStateValid_false in Hv as [[=]|(e' & [= <-] & Hs)].
    by destruct Hstuck. }
  assert (Hw : checkWebSocketActive c n (called (EEvaluate n) w) = true).
  { unfold checkWebSocketActive. cbn [stateManager called]. rewrite He.
    destruct (includes _ (state e)); [done|].
    destruct Hws as [Hws|Hws]; [discriminate|by rewrite Hws]. }
  cbn zeta. rewrite Hv, Hw. done.
Qed.

(** X10: a failed process or responsiveness check leads to the full
    restart whatever the two other checks say.  When the process-alive
    check fails, or the page is missing, or the probe does not answer
    [true], the health check records RECONNECTING, cleans the client up,
    forgets it and hands the reconnection to the scheduler; it neither
    reinitializes nor reloads the session. *)
Theorem dead_or_unresponsive_client_is_restarted (n : string) (run : Run)
    (w : World) (c : Client) :
  clients w !! n = Some c →
  fst (checkProcessAlive c n (tProcess run) w) = false
    ∨ pupPage c = false ∨ probeOutcome run ≠ ProbeValue true →
  let out := checkClientHealth cfg th n run w in
  (∃ checks, fst out = Some checks
             ∧ (processAlive checks = false ∨ browserResponsive checks = false))
  ∧ clients (snd out) = delete n (clients w)
  ∧ state <$> getState n (stateManager (snd out)) = Some RECONNECTING
  ∧ reconnectionManager (snd out)
    = snd (ReconnectionManager.scheduleReconnection cfg n (tRecover run)
             (draw run) (reconnectionManager w))
  ∧ calls (snd out)
    = calls w ++ (if pupPage c then [EEvaluate n] else []) ++ [ECleanupClient n].
Proof.
  intros Hc Hfail out. unfold out, checkClientHealth. rewrite Hc.
  pose proof (checkProcessAlive_frame c n (tProcess run) w) as Hpa.
  destruct (checkProcessAlive c n (tProcess run) w) as [alive w1].
  cbn [fst snd] in Hpa, Hfail.
  destruct Hpa as (Hc1 & _ & Hr1 & Hl1 & _).
  pose proof (checkBrowserResponsive_frame c n (probeOutcome run) (tProbe run) w1)
    as Hbr.
  destruct (checkBrowserResponsive c n (probeOutcome run) (tProbe run) w1)
    as [responsive w2].
  cbn [fst snd] in Hbr. destruct Hbr as (Hc2 & _ & Hr2 & Hl2 & Hiff & _).
  assert (Hbad : alive = false ∨ responsive = false).
  { destruct Hfail as [->|Hfail]; [by left|]. right.
    destruct responsive; [|done]. destruct (proj1 Hiff eq_refl) as [Hp Hpr].
    destruct Hfail as [Hfail|Hfail]; congruence. }
  set (checks := {| processAlive := alive; browserResponsive := responsive;
                    stateValid := _; websocketActive := _ |}).
  assert (Hunhealthy : processAlive checks && browserResponsive checks
                       && stateValid checks && websocketActive checks = false).
  { cbn. destruct Hbad as [-> | ->]; [done|]. by rewrite andb_false_r. }
  cbn zeta. rewrite Hunhealthy. cbn [negb fst snd].
  split; [by exists checks|].
  unfold attemptRecovery.
  assert (Hfirst : negb (processAlive checks) || negb (browserResponsive checks) = true).
  { cbn. destruct Hbad as [-> | ->]; [done|]. by rewrite orb_true_r. }
  rewrite Hfirst.
  set (w3 := setStateAt n RECONNECTING _ (tState run) (withHealthCheck w2 n _)).
  pose proof (fullRestart_spec cfg n (tRecover run) (draw run) w3) as Hfr.
  destruct (fullRestart cfg n (tRecover run) (draw run) w3) as [b w4] eqn:Hfull.
  cbn [fst snd] in *. destruct Hfr as (_ & _ & Hcalls & Hrm & Hsm).
  assert (Hcl : clients w4 = delete n (clients w)).
  { unfold fullRestart in Hfull.
    destruct (clients w3 !! n); injection Hfull as _ <-; cbn;
      by rewrite Hc2, Hc1. }
  split; [done|]. split.
  { rewrite Hsm. unfold w3, setStateAt. cbn. unfold getState.
    cbn. by rewrite lookup_insert_eq. }
  split; [by rewrite Hrm; cbn; rewrite Hr2, Hr1|].
  rewrite Hcalls. cbn [w3 setStateAt withStateManager withHealthCheck calls clients].
  rewrite Hc2, Hc1, Hc.
  rewrite bool_decide_eq_true_2 by eauto.
  by rewrite Hl2, Hl1, <- app_assoc.
Qed.

(** X11: a client the orchestrator no longer has is forgotten by the state
    store: the health check clears its state and history, runs no check,
    makes no call to the session and schedules nothing. *)
Theorem unknown_client_is_forgotten (n : string) (run : Run) (w : World) :
  clients w !! n = None →
  let out := checkClientHealth cfg th n run w in
  fst out = None
  ∧ getState n (stateManager (snd out)) = None
  ∧ getHistory n (stateManager (snd out)) = []
  ∧ (∀ m, m ≠ n →
       getState m (stateManager (snd out)) = getState m (stateManager w)
       ∧ getHistory m (stateManager (snd out)) = getHistory m (stateManager w))
  ∧ clients (snd out) = clients w
  ∧ reconnectionManager (snd out) = reconnectionManager w
  ∧ calls (snd out) = calls w.
Proof.
  intros Hc out. unfold out, checkClientHealth. rewrite Hc. cbn.
  split; [done|]. split; [unfold getState, clearState; cbn; apply lookup_delete_eq|].
  split; [apply getHistory_clearState|].
  split; [|done]. intros m Hne. split.
  - unfold getState, clearState. cbn. by rewrite lookup_delete_ne.
  - by apply getHistory_clearState_ne.
Qed.

(** X12: when only the session-link check fails, recovery reloads the page
    in place.  If the reload succeeds RECONNECTING is recorded and the
    client is kept; if it throws, recovery falls back to the full restart;
    if the client has no page, nothing is done and [false] is returned. *)
Theorem link_failure_reloads_the_page (n : string) (failedChecks : Checks)
    (throws : bool) (tstate now : Z) (r : Q) (w : World) (c : Client) :
  processAlive failedChecks = true →
  browserResponsive failedChecks = true →
  stateValid failedChecks = true →
  websocketActive failedChecks = false →
  clients w !! n = Some c →
  let result := attemptRecovery cfg n failedChecks throws tstate now r w in
  if pupPage c then
    fst result = Some true
    ∧ (if throws
       then calls (snd result) = calls w ++ [EReload n; ECleanupClient n]
            ∧ clients (snd result) = delete n (clients w)
            ∧ reconnectionManager (snd result)
              = snd (ReconnectionManager.scheduleReconnection cfg n now r
                       (reconnectionManager w))
            ∧ stateManager (snd result) = stateManager w
       else calls (snd result) = calls w ++ [EReload n]
            ∧ clients (snd result) = clients w
            ∧ reconnectionManager (snd result) = reconnectionManager w
            ∧ state <$> getState n (stateManager (snd result))
              = Some RECONNECTING)
  else result = (Some false, w).
Proof.
  intros Ha Hr Hv Hw Hc result. unfold result, attemptRecovery.
  rewrite Ha, Hr, Hv, Hw. cbn [negb orb].
  unfold reconnectWebSocket. rewrite Hc.
  destruct (pupPage c); cbn [negb]; [|done].
  destruct throws.
  - pose proof (fullRestart_spec cfg n now r (called (EReload n) w)) as Hfr.
    unfold fullRestart in *. cbn [called clients] in *. rewrite Hc in *.
    cbn in *. destruct Hfr as (_ & _ & _ & Hrm & _).
    split; [done|]. split; [by rewrite <- app_assoc|]. done.
  - cbn. split; [done|]. split; [done|]. split; [done|]. split; [done|].
    unfold getState. cbn. by rewrite lookup_insert_eq.
Qed.

(** X13: a repeated full restart is not a no-op.  The second one finds no
    client, so it makes no call to the session and leaves the client map as
    it is, but it calls the scheduler again: when the scheduler accepts,
    the client's attempt counter goes up by one more. *)
Theorem second_fullRestart_schedules_again (n : string) (t1 t2 : Z) (r1 r2 : Q)
    (w : World) :
  let w1 := snd (fullRestart cfg n t1 r1 w) in
  let w2 := snd (fullRestart cfg n t2 r2 w1) in
  fst (fullRestart cfg n t2 r2 w1) = true
  ∧ calls w2 = calls w1
  ∧ clients w2 = clients w1
  ∧ stateManager w2 = stateManager w1
  ∧ reconnectionManager w2
    = snd (ReconnectionManager.scheduleReconnection cfg n t2 r2
             (reconnectionManager w1))
  ∧ (ReconnectionManager.canReconnect cfg n t2 (reconnectionManager w1) = true →
     ReconnectionManager.getAttempts n (reconnectionManager w2)
     = ReconnectionManager.getAttempts n (reconnectionManager w1) + 1).
Proof.
  intros w1 w2.
  destruct (fullRestart_spec cfg n t1 r1 w) as (_ & Hgone & _).
  fold w1 in Hgone.
  unfold w2, fullRestart at 1 2 3 4 5 6. rewrite Hgone. cbn.
  split; [done|]. split; [done|].
  split; [by rewrite delete_id|]. split; [done|]. split; [done|].
  intros Hcan. by apply getAttempts_scheduled.
Qed.

End WatchdogRuns.

(** ** Media queue: order, positions and the life of a job *)

Section MediaQueueOrder.
Import MediaQueue MediaQueueFacts.

Lemma insertJob_Permutation x l : insertJob x l ≡ₚ x :: l.
Proof.
  induction l as [|y l IH]; cbn; [done|].
  destruct (compareJobs x y <=? 0); [done|].
  rewrite IH. apply Permutation_swap.
Qed.

Lemma sortJobs_Permutation q : sortJobs q ≡ₚ q.
Proof.
  induction q as [|x q IH]; cbn; [done|].
  fold (sortJobs q). by rewrite insertJob_Permutation, IH.
Qed.

Lemma insertJob_Sorted x l :
  Sorted servedBefore l → Sorted servedBefore (insertJob x l).
Proof.
  induction l as [|y l IH]; intros Hs; cbn.
  - by repeat constructor.
  - destruct (Z.leb_spec (compareJobs x y) 0) as [Hle|Hgt].
    + constructor; [done|]. constructor. by apply compareJobs_le.
    + apply Sorted_inv in Hs as [Hs Hhd].
      constructor; [by apply IH|].
      assert (Hyx : servedBefore y x).
      { destruct (servedBefore_total y x) as [|Hxy]; [done|].
        apply compareJobs_le in Hxy. lia. }
      destruct l as [|z l]; cbn.
      * by constructor.
      * destruct (compareJobs x z <=? 0); constructor; [done|].
        by inversion Hhd.
Qed.

Lemma sortJobs_Sorted q : Sorted servedBefore (sortJobs q).
Proof.
  induction q as [|x q IH]; cbn; [constructor|].
  fold (sortJobs q). by apply insertJob_Sorted.
Qed.

Lemma filter_insertJob (P : Job → Prop) `{∀ j, Decision (P j)} x l :
  (∀ y, y ∈ l → P x → P y → compareJobs x y ≤ 0) →
  filter P (insertJob x l) = filter P (x :: l).
Proof.
  induction l as [|y l IH]; intros Hle; cbn; [done|].
  destruct (Z.leb_spec (compareJobs x y) 0) as [Hxy|Hxy]; [done|].
  rewrite !filter_cons. rewrite filter_cons in IH.
  destruct (decide (P y)) as [Hy|Hy].
  - destruct (decide (P x)) as [Hx|Hx].
    + assert (compareJobs x y ≤ 0) by (apply Hle; [apply list_elem_of_here|done..]).
      lia.
    + rewrite IH; [done|]. intros z Hz. apply Hle. by apply list_elem_of_further.
  - rewrite IH; [done|]. intros z Hz. apply Hle. by apply list_elem_of_further.
Qed.

(** X14: the sort behind [getNextJob] and [getQueuePosition] returns the
    queued jobs, all of them and nothing else, in ascending order of
    (priority, time of enqueueing), and it is stable: the jobs that have
    the priority and the time of a given job come out in the order in
    which they were inserted. *)
Theorem sortJobs_sorted_stable_permutation (q : list Job) (j0 : Job) :
  sortJobs q ≡ₚ q
  ∧ Sorted servedBefore (sortJobs q)
  ∧ filter (tied j0) (sortJobs q) = filter (tied j0) q.
Proof.
  split; [apply sortJobs_Permutation|]. split; [apply sortJobs_Sorted|].
  induction q as [|x q IH]; [done|]. cbn [sortJobs foldr]. fold (sortJobs q).
  rewrite filter_insertJob.
  - rewrite !filter_cons. rewrite IH. done.
  - intros y _ [Hp1 Ht1] [Hp2 Ht2]. unfold compareJobs.
    destruct (Z.eqb_spec (priority x) (priority y)); cbn; lia.
Qed.

Lemma findIndex_bounds mid l :
  -1 ≤ findIndex mid l < Z.of_nat (length l).
Proof.
  induction l as [|j l IH]; cbn; [lia|].
  destruct (String.eqb (messageId j) mid); [lia|].
  destruct (Z.ltb_spec (findIndex mid l) 0); lia.
Qed.

Lemma findIndex_absent mid l :
  findIndex mid l = -1 ↔ queueHas mid l = false.
Proof.
  induction l as [|j l IH]; cbn; [done|].
  destruct (String.eqb (messageId j) mid); cbn; [done|].
  pose proof (findIndex_bounds mid l).
  destruct (Z.ltb_spec (findIndex mid l) 0); rewrite <- IH; lia.
Qed.

Lemma findIndex_lookup mid l :
  0 ≤ findIndex mid l →
  ∃ j, l !! Z.to_nat (findIndex mid l) = Some j ∧ messageId j = mid.
Proof.
  induction l as [|j l IH]; cbn; [lia|].
  destruct (String.eqb_spec (messageId j) mid) as [Heq|Hne]; [by exists j|].
  destruct (Z.ltb_spec (findIndex mid l) 0) as [|Hge]; [lia|]. intros _.
  destruct (IH Hge) as (j' & Hj' & Hid). exists j'. split; [|done].
  replace (Z.to_nat (findIndex mid l + 1)) with (S (Z.to_nat (findIndex mid l)))
    by lia.
  done.
Qed.

Lemma queueHas_Permutation mid l l' :
  l ≡ₚ l' → queueHas mid l = queueHas mid l'.
Proof.
  intros Hp. destruct (queueHas mid l') eqn:H'.
  - apply queueHas_spec in H' as (j & Hin & Hid). apply queueHas_spec.
    exists j. by rewrite Hp.
  - destruct (queueHas mid l) eqn:H; [|done].
    apply queueHas_spec in H as (j & Hin & Hid).
    assert (queueHas mid l' = true); [|congruence].
    apply queueHas_spec. exists j. by rewrite <- Hp.
Qed.

Lemma servedBefore_transitive : Transitive servedBefore.
Proof. intros a b c. apply servedBefore_trans. Qed.

Lemma served_in_order (l : list Job) (i k : nat) (x y : Job) :
  StronglySorted servedBefore l → (i < k)%nat →
  l !! i = Some x → l !! k = Some y → servedBefore x y.
Proof.
  intros Hss. revert i k x y.
  induction Hss as [|z l Hss IH Hall]; intros i k x y Hik Hx Hy.
  - by rewrite lookup_nil in Hx.
  - destruct k as [|k]; [lia|]. cbn in Hy. destruct i as [|i].
    + cbn in Hx. injection Hx as <-.
      rewrite Forall_forall in Hall. apply Hall.
      by eapply list_elem_of_lookup_2.
    + cbn in Hx. apply (IH i k); [lia|done..].
Qed.

(** X15: [getQueuePosition] is the 1-based rank of a job in the order of
    service.  It is 0 exactly for an id that is not queued; for a queued
    id it lies between 1 and the size of the queue, the sorted queue holds
    a job with that id at that rank, and every job at a smaller rank is
    served before it or tied with it.  The job [getNextJob] hands out has
    position 1. *)
Theorem getQueuePosition_is_rank (mid : string) (s : t) :
  (getQueuePosition mid s = 0 ↔ ¬ isQueued mid s)
  ∧ (isQueued mid s →
     1 ≤ getQueuePosition mid s ≤ Z.of_nat (length (queue s))
     ∧ ∃ job, sortJobs (queue s) !! Z.to_nat (getQueuePosition mid s - 1) = Some job
              ∧ messageId job = mid
              ∧ ∀ k ahead, (k < Z.to_nat (getQueuePosition mid s - 1))%nat →
                           sortJobs (queue s) !! k = Some ahead →
                           servedBefore ahead job)
  ∧ (∀ job, fst (getNextJob s) = Some job →
            getQueuePosition (messageId job) s = 1).
Proof.
  unfold getQueuePosition.
  pose proof (findIndex_bounds mid (sortJobs (queue s))) as Hb.
  rewrite (Permutation_length (sortJobs_Permutation (queue s))) in Hb.
  assert (Habs : findIndex mid (sortJobs (queue s)) = -1 ↔ ¬ isQueued mid s).
  { rewrite findIndex_absent, (queueHas_Permutation _ _ _ (sortJobs_Permutation _)).
    unfold isQueued. rewrite <- queueHas_spec. by destruct (queueHas mid (queue s)). }
  split; [rewrite <- Habs; lia|]. split.
  - intros Hq.
    assert (Hge : 0 ≤ findIndex mid (sortJobs (queue s))).
    { destruct (decide (findIndex mid (sortJobs (queue s)) = -1)) as [E|E]; [|lia].
      by apply Habs in E. }
    split; [lia|].
    destruct (findIndex_lookup _ _ Hge) as (job & Hjob & Hid).
    replace (findIndex mid (sortJobs (queue s)) + 1 - 1)
      with (findIndex mid (sortJobs (queue s))) by lia.
    exists job. split; [done|]. split; [done|].
    intros k ahead Hk Hahead.
    pose proof (@Sorted_StronglySorted _ servedBefore servedBefore_transitive _
                  (sortJobs_Sorted (queue s)))
      as Hss.
    by eapply (served_in_order _ k _ ahead job Hss).
  - intros job Hjob. unfold getNextJob in Hjob.
    destruct (sortJobs (queue s)) as [|j rest]; [done|].
    injection Hjob as ->. cbn. by rewrite String.eqb_refl.
Qed.

Lemma queueSet_fresh job q :
  queueHas (messageId job) q = false → queueSet job q = q ++ [job].
Proof.
  induction q as [|j q IH]; cbn; [done|].
  destruct (String.eqb (messageId j) (messageId job)); cbn; [done|].
  intros H. by rewrite IH.
Qed.

Lemma queueGet_app_fresh mid q job :
  queueHas mid q = false → messageId job = mid →
  queueGet mid (q ++ [job]) = Some job.
Proof.
  intros Hq Hid. unfold queueGet, queueHas in *.
  induction q as [|j q IH]; cbn in *.
  - by rewrite Hid, String.eqb_refl.
  - destruct (String.eqb (messageId j) mid); [done|]. by apply IH.
Qed.

Lemma queueHas_false mid q : queueHas mid q = false ↔ ¬ ∃ j, j ∈ q ∧ messageId j = mid.
Proof. rewrite <- queueHas_spec. by destruct (queueHas mid q). Qed.

(** X16: how a job ends.  For a job a worker holds (its id is in neither
    the queue nor the completed map), the settling of the download decides:
    a result is stored as completed with the time and the worker; an error
    on the first attempt puts the job back at the end of the queue, one
    attempt later, with its priority and its original time of enqueueing;
    an error on the second attempt stores a completed error record; a
    download that yields no media stores nothing, so the id is then
    [not_found] and a later [enqueue] starts a new job.  In every case the
    id leaves the processing set. *)
Theorem processJob_outcomes (job : Job) (workerId : nat) (o : outcome) (now : Z)
    (s : t) :
  completed s !! messageId job = None →
  ¬ isQueued (messageId job) s →
  let mid := messageId job in
  let s' := processJob job workerId o now s in
  (mid ∉ processing s')
  ∧ (match o with
     | Downloaded data =>
         getStatus mid s' = SCompleted (Done data now workerId)
         ∧ queue s' = queue s
     | NoMedia =>
         getStatus mid s' = SNotFound
         ∧ queue s' = queue s ∧ completed s' = completed s
         ∧ ∀ msg cid prio t, fst (enqueue mid msg cid prio t s') = REnqueued
     | Threw msg =>
         if attempts job + 1 <? retryAttempts
         then queue s' = queue s ++ [retried job]
              ∧ completed s' = completed s
              ∧ ∃ pos, getStatus mid s' = SQueued pos (enqueuedAt job)
         else getStatus mid s' = SCompleted (Failed msg now)
              ∧ queue s' = queue s
     end).
Proof.
  intros Hc Hq. cbv zeta.
  assert (Hnq : queueHas (messageId job) (queue s) = false)
    by (by apply queueHas_false).
  assert (Hnp : ∀ X : gset string, messageId job ∉ X ∖ {[messageId job]}).
  { intros X [_ Hn]%elem_of_difference. apply Hn. by apply elem_of_singleton. }
  split; [unfold processJob; cbn; apply Hnp|].
  destruct o as [data| |msg].
  - unfold processJob, getStatus. cbn. by rewrite lookup_insert_eq.
  - unfold processJob. cbn.
    assert (Hg : queueGet (messageId job) (queue s) = None).
    { apply eq_None_not_Some. rewrite queueGet_is_Some. by rewrite Hnq. }
    split; [|split; [done|split; [done|]]].
    + unfold getStatus. cbn [completed processing queue]. rewrite Hc, Hg.
      by rewrite (bool_decide_eq_false_2 _ (Hnp _)).
    + intros msg cid prio t. unfold enqueue.
      cbn [completed processing queue]. rewrite Hc, Hnq.
      by rewrite (bool_decide_eq_false_2 _ (Hnp _)).
  - unfold processJob. cbn [attempts].
    destruct (attempts job + 1 <? retryAttempts) eqn:Hretry; cbn.
    + fold (retried job).
      rewrite (queueSet_fresh (retried job)) by done.
      split; [done|]. split; [done|].
      unfold getStatus. cbn [completed processing queue]. rewrite Hc.
      rewrite (bool_decide_eq_false_2 _ (Hnp _)).
      rewrite (queueGet_app_fresh (messageId job) (queue s) (retried job))
        by done.
      eauto.
    + unfold getStatus. cbn. by rewrite lookup_insert_eq.
Qed.

(** X17: [cleanup] drops the completed records processed more than an hour
    before and nothing else: a record is kept exactly when its time of
    processing is not older than [now - 3600000]; the queue and the
    processing set are untouched, and so is the status of every id that is
    not completed. *)
Theorem cleanup_drops_only_old_records (now : Z) (mid : string) (s : t) :
  queue (cleanup now s) = queue s
  ∧ processing (cleanup now s) = processing s
  ∧ (∀ c, completed (cleanup now s) !! mid = Some c
          ↔ completed s !! mid = Some c ∧ now - 3600000 ≤ processedAtOf c)
  ∧ (completed s !! mid = None → getStatus mid (cleanup now s) = getStatus mid s).
Proof.
  split; [done|]. split; [done|].
  assert (Hl : ∀ c, completed (cleanup now s) !! mid = Some c
                    ↔ completed s !! mid = Some c ∧ now - 3600000 ≤ processedAtOf c).
  { intros c. unfold cleanup. cbn. rewrite map_lookup_filter_Some. cbn.
    split; intros [H1 H2]; (split; [done|lia]). }
  split; [done|]. intros Hnone.
  assert (Hnone' : completed (cleanup now s) !! mid = None).
  { apply eq_None_not_Some. intros [c E].
    apply Hl in E as [E _]. congruence. }
  unfold getStatus. rewrite Hnone, Hnone'. done.
Qed.

(** X18: a first [enqueue].  For an id that is in none of the three
    collections the call answers [enqueued] and appends one job at the end
    of the queue, with no attempt made, the priority passed and the current
    time; the processing set and the completed map are untouched, the
    jobs already queued keep their place, and the id is then reported
    [queued] at a rank between 1 and the new size of the queue. *)
Theorem enqueue_new_job (mid : string) (msg : Message) (cid : string)
    (prio now : Z) (s : t) :
  ¬ isCompleted mid s → ¬ isProcessing mid s → ¬ isQueued mid s →
  let s' := snd (enqueue mid msg cid prio now s) in
  fst (enqueue mid msg cid prio now s) = REnqueued
  ∧ queue s' = queue s ++ [freshJob mid msg cid prio now]
  ∧ processing s' = processing s
  ∧ completed s' = completed s
  ∧ ∃ pos, getStatus mid s' = SQueued pos now
           ∧ 1 ≤ pos ≤ Z.of_nat (length (queue s)) + 1.
Proof.
  intros Hc Hp Hq s'.
  assert (Hnq : queueHas mid (queue s) = false) by (by apply queueHas_false).
  assert (Hnc : completed s !! mid = None).
  { apply eq_None_not_Some. exact Hc. }
  assert (He : enqueue mid msg cid prio now s
               = (REnqueued,
                  {| queue := queue s ++ [freshJob mid msg cid prio now];
                     processing := processing s; completed := completed s |})).
  { unfold enqueue. rewrite Hnc, Hnq.
    rewrite (bool_decide_eq_false_2 _ Hp). cbn.
    fold (freshJob mid msg cid prio now).
    by rewrite (queueSet_fresh (freshJob mid msg cid prio now)). }
  unfold s'. rewrite He. cbn [fst snd queue processing completed].
  split; [done|]. split; [done|]. split; [done|]. split; [done|].
  eexists. unfold getStatus. cbn [completed processing queue].
  rewrite Hnc, (bool_decide_eq_false_2 _ Hp).
  rewrite (queueGet_app_fresh mid (queue s) (freshJob mid msg cid prio now))
    by done.
  split; [reflexivity|].
  unfold getQueuePosition. cbn [queue].
  set (q' := queue s ++ [freshJob mid msg cid prio now]).
  pose proof (findIndex_bounds mid (sortJobs q')) as Hb.
  rewrite (Permutation_length (sortJobs_Permutation q')) in Hb.
  assert (Hlen : length q' = S (length (queue s))).
  { unfold q'. rewrite length_app. cbn. lia. }
  rewrite Hlen in Hb.
  assert (findIndex mid (sortJobs q') ≠ -1).
  { rewrite findIndex_absent, (queueHas_Permutation _ _ _ (sortJobs_Permutation _)).
    assert (queueHas mid q' = true); [|congruence].
    apply queueHas_spec. exists (freshJob mid msg cid prio now).
    split; [|done]. unfold q'. apply elem_of_app. right. apply list_elem_of_here. }
  lia.
Qed.

End MediaQueueOrder.

(** ** Media queue: the worker pool *)

Section WorkerPool.
Import MediaQueue MediaQueueFacts MediaWorkers.

Lemma not_queued_ids mid q :
  queueHas mid q = false → mid ∉ messageId <$> q.
Proof.
  intros Hq Hin. apply list_elem_of_fmap in Hin as (j & -> & Hj).
  apply queueHas_false in Hq. apply Hq. eauto.
Qed.

Lemma NoDup_append_fresh (job : Job) q :
  NoDup (messageId <$> q) → queueHas (messageId job) q = false →
  NoDup (messageId <$> (q ++ [job])).
Proof.
  intros Hnd Hq. rewrite fmap_app. apply NoDup_app. split; [done|]. split.
  - intros x Hx Hx'. cbn in Hx'. apply list_elem_of_singleton in Hx' as ->.
    by apply (not_queued_ids _ _ Hq).
  - cbn. apply NoDup_singleton.
Qed.

Lemma sound_start : sound start.
Proof.
  unfold sound, start. cbn. split; [constructor|]. split.
  { by intros j ?%elem_of_nil. }
  split.
  { intros mid. split; [by intros ?%not_elem_of_empty|].
    intros (w & job & Hw & _). by rewrite lookup_empty in Hw. }
  split; [intros w job Hw; by rewrite lookup_empty in Hw|].
  intros w1 w2 j1 j2 Hw. by rewrite lookup_empty in Hw.
Qed.

Lemma sound_enqueue mid msg cid prio now p :
  sound p → sound (step (OpEnqueue mid msg cid prio now) p).
Proof.
  intros (Hnd & Hq & Hp & Hw & Hu). cbn [step]. unfold enqueue.
  destruct (completed (store p) !! mid) as [c|] eqn:Hc; [done|].
  destruct (queueHas mid (queue (store p))) eqn:Hqh; [done|].
  destruct (decide (mid ∈ processing (store p))) as [Hin|Hin].
  { by rewrite (bool_decide_eq_true_2 _ Hin). }
  rewrite (bool_decide_eq_false_2 _ Hin). cbn [orb snd].
  fold (freshJob mid msg cid prio now).
  rewrite (queueSet_fresh (freshJob mid msg cid prio now)) by done.
  unfold sound. cbn [store queue processing completed working].
  split; [by apply NoDup_append_fresh|]. split; [|done].
  intros j [Hj|Hj]%elem_of_app; [by apply Hq|].
  apply list_elem_of_singleton in Hj as ->. cbn. unfold retryAttempts.
  split; [done|]. split; [done|]. lia.
Qed.

Lemma sound_cleanup now p : sound p → sound (step (OpCleanup now) p).
Proof.
  intros (Hnd & Hq & Hp & Hw & Hu). unfold sound. cbn.
  assert (Hnone : ∀ k, completed (store p) !! k = None →
                       filter (fun kv : string * Completed =>
                                 ¬ processedAtOf kv.2 < now - 60 * 60 * 1000)
                              (completed (store p)) !! k = None).
  { intros k Hk. apply map_lookup_filter_None. by left. }
  split; [done|]. split.
  { intros j Hj. destruct (Hq j Hj) as (H1 & H2 & H3). auto. }
  split; [done|]. split; [|done].
  intros w job Hjob. destruct (Hw w job Hjob) as (H1 & H2 & H3). auto.
Qed.

Lemma sound_poll w p : sound p → sound (step (OpPoll w) p).
Proof.
  intros (Hnd & Hq & Hp & Hw & Hu). cbn [step].
  destruct (decide (w < maxWorkers)%nat) as [Hlt|Hlt];
    [rewrite (bool_decide_eq_true_2 _ Hlt)
    |by rewrite (bool_decide_eq_false_2 _ Hlt)].
  destruct (decide (working p !! w = None)) as [Hfree|Hbusy];
    [rewrite (bool_decide_eq_true_2 _ Hfree)
    |by rewrite (bool_decide_eq_false_2 _ Hbusy)].
  cbn [andb]. unfold getNextJob.
  destruct (sortJobs (queue (store p))) as [|job rest] eqn:Hsort; [done|].
  assert (Hjob : job ∈ queue (store p)).
  { rewrite <- (sortJobs_Permutation (queue (store p))), Hsort.
    apply list_elem_of_here. }
  destruct (Hq job Hjob) as (Hjp & Hjc & Hja).
  unfold sound. cbn [store queue processing completed working].
  split.
  { eapply sublist_NoDup; [exact Hnd|]. apply fmap_sublist, sublist_filter. }
  split.
  { intros j [Hne Hj]%list_elem_of_filter. destruct (Hq j Hj) as (H1 & H2 & H3).
    split; [|done]. intros [Hin|Hin]%elem_of_union; [|done].
    apply elem_of_singleton in Hin. done. }
  split.
  { intros mid. split.
    - intros [Hin|Hin]%elem_of_union.
      + apply elem_of_singleton in Hin as ->. exists w, job.
        by rewrite lookup_insert_eq.
      + apply Hp in Hin as (w' & job' & Hw' & Hid). exists w', job'.
        split; [|done]. rewrite lookup_insert_ne; [done|]. congruence.
    - intros (w' & job' & Hw' & Hid). apply elem_of_union.
      destruct (decide (w = w')) as [<-|Hne].
      + rewrite lookup_insert_eq in Hw'. injection Hw' as <-. left.
        by apply elem_of_singleton.
      + rewrite lookup_insert_ne in Hw' by done. right. apply Hp. eauto. }
  split.
  { intros w' job' Hw'. destruct (decide (w = w')) as [<-|Hne].
    - rewrite lookup_insert_eq in Hw'. by injection Hw' as <-.
    - rewrite lookup_insert_ne in Hw' by done. by apply Hw. }
  intros w1 w2 j1 j2 H1 H2 Hid.
  destruct (decide (w = w1)) as [<-|Hne1]; destruct (decide (w = w2)) as [<-|Hne2];
    [done| | |].
  - rewrite lookup_insert_eq in H1. injection H1 as <-.
    rewrite lookup_insert_ne in H2 by done.
    destruct Hjp. apply Hp. exists w2, j2. by rewrite Hid.
  - rewrite lookup_insert_eq in H2. injection H2 as <-.
    rewrite lookup_insert_ne in H1 by done.
    destruct Hjp. apply Hp. exists w1, j1. by rewrite <- Hid.
  - rewrite lookup_insert_ne in H1, H2 by done. by apply (Hu w1 w2 j1 j2).
Qed.

Lemma sound_settle w o now p : sound p → sound (step (OpSettle w o now) p).
Proof.
  intros (Hnd & Hq & Hp & Hw & Hu). cbn [step].
  destruct (working p !! w) as [job|] eqn:Hjob; [|done].
  destruct (Hw w job Hjob) as (Hjc & Hja & Hwlt).
  assert (Hjp : messageId job ∈ processing (store p)) by (apply Hp; eauto).
  assert (Hnq : queueHas (messageId job) (queue (store p)) = false).
  { apply queueHas_false. intros (j & Hj & Hid).
    destruct (Hq j Hj) as (Hn & _). by rewrite Hid in Hn. }
  assert (Hother : ∀ w' job', w' ≠ w → working p !! w' = Some job' →
                              messageId job' ≠ messageId job).
  { intros w' job' Hne Hw' Hid. apply Hne. by apply (Hu w' w job' job). }
  (* the processing set and the workers after the job has left *)
  assert (Hp' : ∀ mid, mid ∈ processing (store p) ∖ {[messageId job]}
                       ↔ ∃ w' job', delete w (working p) !! w' = Some job'
                                    ∧ messageId job' = mid).
  { intros mid. split.
    - intros [Hin Hne]%elem_of_difference.
      apply Hp in Hin as (w' & job' & Hw' & Hid). exists w', job'.
      split; [|done]. rewrite lookup_delete_ne; [done|].
      intros <-. apply Hne. apply elem_of_singleton. congruence.
    - intros (w' & job' & Hw' & Hid).
      apply lookup_delete_Some in Hw' as [Hne Hw'].
      apply elem_of_difference. split; [apply Hp; eauto|].
      intros Heq%elem_of_singleton. apply (Hother w' job'); congruence. }
  assert (Hu' : ∀ w1 w2 j1 j2, delete w (working p) !! w1 = Some j1 →
                               delete w (working p) !! w2 = Some j2 →
                               messageId j1 = messageId j2 → w1 = w2).
  { intros w1 w2 j1 j2 [_ H1]%lookup_delete_Some [_ H2]%lookup_delete_Some.
    by apply Hu. }
  assert (Hqueue : ∀ j, j ∈ queue (store p) →
                        messageId j ≠ messageId job
                        ∧ (messageId j ∉ processing (store p) ∖ {[messageId job]})
                        ∧ completed (store p) !! messageId j = None
                        ∧ 0 ≤ attempts j < retryAttempts).
  { intros j Hj. destruct (Hq j Hj) as (H1 & H2 & H3).
    split; [intros Hid; by rewrite Hid in H1|].
    split; [|done]. intros [Hin _]%elem_of_difference. done. }
  assert (Hwork : ∀ w' job', delete w (working p) !! w' = Some job' →
                             messageId job' ≠ messageId job
                             ∧ completed (store p) !! messageId job' = None
                             ∧ 0 ≤ attempts job' < retryAttempts
                             ∧ (w' < maxWorkers)%nat).
  { intros w' job' [Hne Hw']%lookup_delete_Some.
    destruct (Hw w' job' Hw') as (H1 & H2 & H3).
    split; [by apply (Hother w' job')|done]. }
  (* a record stored for the job touches no other id *)
  assert (Hstored : ∀ c,
     sound {| store := {| queue := queue (store p);
                          processing := processing (store p) ∖ {[messageId job]};
                          completed := <[messageId job := c]> (completed (store p)) |};
              working := delete w (working p) |}).
  { intros c. unfold sound. cbn [store queue processing completed working].
    split; [done|]. split.
    { intros j Hj. destruct (Hqueue j Hj) as (H0 & H1 & H2 & H3).
      split; [done|]. split; [|done]. by rewrite lookup_insert_ne. }
    split; [done|]. split; [|done].
    intros w' job' Hw'. destruct (Hwork w' job' Hw') as (H0 & H1 & H2 & H3).
    split; [|done]. by rewrite lookup_insert_ne. }
  unfold processJob.
  destruct o as [data| |msg].
  - apply Hstored.
  - unfold sound. cbn [store queue processing completed working].
    split; [done|]. split.
    { intros j Hj. destruct (Hqueue j Hj) as (H0 & H1 & H2 & H3). done. }
    split; [done|]. split; [|done].
    intros w' job' Hw'. destruct (Hwork w' job' Hw') as (H0 & H1 & H2 & H3). done.
  - cbn [attempts].
    destruct (Z.ltb_spec (attempts job + 1) retryAttempts) as [Hretry|Hlast];
      [|apply Hstored].
    fold (retried job).
    cbn [queue processing completed].
    rewrite (queueSet_fresh (retried job)) by done.
    unfold sound. cbn [store queue processing completed working].
    split; [by apply (NoDup_append_fresh (retried job))|]. split.
    { intros j [Hj|Hj]%elem_of_app.
      - destruct (Hqueue j Hj) as (H0 & H1 & H2 & H3). done.
      - apply list_elem_of_singleton in Hj as ->. cbn.
        split; [|split; [done|lia]].
        intros [_ Hn]%elem_of_difference. apply Hn. by apply elem_of_singleton. }
    split; [done|]. split; [|done].
    intros w' job' Hw'. destruct (Hwork w' job' Hw') as (H0 & H1 & H2 & H3). done.
Qed.

Lemma sound_exec ops : ∀ p, sound p → sound (exec ops p).
Proof.
  induction ops as [|o ops IH]; intros p Hp; [done|].
  change (exec (o :: ops) p) with (exec ops (step o p)). apply IH.
  destruct o as [mid msg cid prio now|w|w o now|now].
  - by apply sound_enqueue.
  - by apply sound_poll.
  - by apply sound_settle.
  - by apply sound_cleanup.
Qed.

(** X19: a message id is never dispatched twice.  In every state the pool
    reaches from its start, through any interleaving of enqueues, polls by
    the workers, settlings of downloads and cleanups, the queue holds each
    id at most once, an id is in at most one of the queue, the processing
    set and the completed map, the processing set is exactly the set of
    ids the workers hold, and no two workers hold the same id. *)
Theorem message_id_dispatched_once (ops : list op) (mid : string) :
  let p := exec ops start in
  NoDup (messageId <$> queue (store p))
  ∧ ¬ (isQueued mid (store p) ∧ isProcessing mid (store p))
  ∧ ¬ (isQueued mid (store p) ∧ isCompleted mid (store p))
  ∧ ¬ (isProcessing mid (store p) ∧ isCompleted mid (store p))
  ∧ (isProcessing mid (store p)
     ↔ ∃ w job, working p !! w = Some job ∧ messageId job = mid)
  ∧ (∀ w1 w2 j1 j2, working p !! w1 = Some j1 → working p !! w2 = Some j2 →
                    messageId j1 = messageId j2 → w1 = w2)
  ∧ (∀ w, is_Some (working p !! w) → (w < maxWorkers)%nat).
Proof.
  intros p.
  destruct (sound_exec ops start sound_start) as (Hnd & Hq & Hp & Hw & Hu).
  fold p in Hnd, Hq, Hp, Hw, Hu.
  split; [done|]. split.
  { intros [(j & Hj & <-) Hpr]. by destruct (Hq j Hj) as (H1 & _). }
  split.
  { intros [(j & Hj & <-) [c Hc]]. destruct (Hq j Hj) as (_ & H2 & _). congruence. }
  split.
  { intros [Hpr [c Hc]]. apply Hp in Hpr as (w & job & Hjob & <-).
    destruct (Hw w job Hjob) as (H1 & _). congruence. }
  split; [apply Hp|]. split; [done|].
  intros w [job Hjob]. by destruct (Hw w job Hjob) as (_ & _ & H3).
Qed.

(** X20: a job is attempted at most twice.  In every state the pool
    reaches, a job that is queued or held by a worker has made no attempt or
    one; so a download that throws puts a job back at most once, and the
    second throw ends it with an error record. *)
Theorem at_most_two_attempts (ops : list op) (job : Job) :
  let p := exec ops start in
  (job ∈ queue (store p) ∨ ∃ w, working p !! w = Some job) →
  (attempts job = 0 ∨ attempts job = 1)
  ∧ (attempts job = 1 →
     ∀ w msg now,
       working p !! w = Some job →
       let p' := step (OpSettle w (Threw msg) now) p in
       completed (store p') !! messageId job = Some (Failed msg now)
       ∧ ¬ isQueued (messageId job) (store p')).
Proof.
  intros p Hin.
  destruct (sound_exec ops start sound_start) as (Hnd & Hq & Hp & Hw & Hu).
  fold p in Hnd, Hq, Hp, Hw, Hu.
  assert (Ha : 0 ≤ attempts job < retryAttempts).
  { destruct Hin as [Hj|[w Hj]].
    - by destruct (Hq job Hj) as (_ & _ & H3).
    - by destruct (Hw w job Hj) as (_ & H2 & _). }
  unfold retryAttempts in Ha. split; [lia|].
  intros Hone w msg now Hjob. cbn [step]. rewrite Hjob. cbn zeta.
  unfold processJob. cbn [attempts]. rewrite Hone.
  change (1 + 1 <? retryAttempts) with false.
  cbn [store completed queue processing].
  split; [by rewrite lookup_insert_eq|].
  intros (j & Hj & Hid). destruct (Hq j Hj) as (H1 & _).
  apply H1. rewrite Hid. apply Hp. eauto.
Qed.

End WorkerPool.

(** ** Chat cache: loading, clearing and the message hook *)

Section ChatCacheLoading.
Import ChatCache ChatCacheReads.

Lemma loadChat_other (acc : gmap string ChatData * gset string * gmap string GroupData) x k :
  rawId x ≠ k ∨ rawId x = "status@broadcast" →
  (loadChat acc x).1.1 !! k = acc.1.1 !! k
  ∧ (k ∈ (loadChat acc x).1.2 ↔ k ∈ acc.1.2)
  ∧ (loadChat acc x).2 !! k = acc.2 !! k.
Proof.
  destruct acc as [[cm us] gm]. unfold loadChat.
  destruct (String.eqb_spec (rawId x) "status@broadcast") as [Hb|Hb]; [done|].
  intros [Hne|Hbc]; [|done]. cbn [fst snd].
  split; [by rewrite lookup_insert_ne|]. split.
  - destruct (0 <? rawUnreadCount x); [|done].
    rewrite elem_of_union, elem_of_singleton. split; [|tauto].
    intros [Heq|Hin]; [congruence|done].
  - destruct (rawIsGroup x); cbn [fst snd]; [|done]. by rewrite lookup_insert_ne.
Qed.

Lemma loadChat_self (acc : gmap string ChatData * gset string * gmap string GroupData) x :
  rawId x ≠ "status@broadcast" →
  (loadChat acc x).1.1 !! rawId x = Some (chatOf x)
  ∧ (rawId x ∈ (loadChat acc x).1.2 ↔ 0 < rawUnreadCount x ∨ rawId x ∈ acc.1.2)
  ∧ (loadChat acc x).2 !! rawId x
    = if rawIsGroup x then Some (groupOf x) else acc.2 !! rawId x.
Proof.
  destruct acc as [[cm us] gm]. unfold loadChat.
  destruct (String.eqb_spec (rawId x) "status@broadcast") as [Hb|Hb]; [done|].
  intros _. cbn [fst snd]. split; [by rewrite lookup_insert_eq|]. split.
  - destruct (Z.ltb_spec 0 (rawUnreadCount x)).
    + rewrite elem_of_union, elem_of_singleton. tauto.
    + split; [tauto|]. intros [?|?]; [lia|done].
  - unfold groupOf, chatOf.
    destruct (rawIsGroup x); cbn [fst snd]; [|done]. by rewrite lookup_insert_eq.
Qed.

Lemma foldl_loadChat_other l : ∀ (acc : gmap string ChatData * gset string * gmap string GroupData) k,
  (∀ x, x ∈ l → rawId x ≠ k ∨ rawId x = "status@broadcast") →
  (foldl loadChat acc l).1.1 !! k = acc.1.1 !! k
  ∧ (k ∈ (foldl loadChat acc l).1.2 ↔ k ∈ acc.1.2)
  ∧ (foldl loadChat acc l).2 !! k = acc.2 !! k.
Proof.
  induction l as [|x l IH]; intros acc k Hall; [done|]. cbn [foldl].
  destruct (IH (loadChat acc x) k) as (H1 & H2 & H3).
  { intros y Hy. apply Hall. by apply list_elem_of_further. }
  destruct (loadChat_other acc x k) as (G1 & G2 & G3).
  { apply Hall, list_elem_of_here. }
  rewrite H1, H2, H3, G1, G2, G3. done.
Qed.

Lemma foldl_loadChat_listed l : ∀ (acc : gmap string ChatData * gset string * gmap string GroupData) x,
  NoDup (rawId <$> l) → x ∈ l → rawId x ≠ "status@broadcast" →
  (foldl loadChat acc l).1.1 !! rawId x = Some (chatOf x)
  ∧ (rawId x ∈ (foldl loadChat acc l).1.2
     ↔ 0 < rawUnreadCount x ∨ rawId x ∈ acc.1.2)
  ∧ (foldl loadChat acc l).2 !! rawId x
    = if rawIsGroup x then Some (groupOf x) else acc.2 !! rawId x.
Proof.
  induction l as [|y l IH]; intros acc x Hnd Hin Hb; [by apply elem_of_nil in Hin|].
  cbn [foldl]. rewrite fmap_cons in Hnd. apply NoDup_cons in Hnd as [Hy Hnd].
  apply elem_of_cons in Hin as [->|Hin].
  - destruct (foldl_loadChat_other l (loadChat acc y) (rawId y)) as (H1 & H2 & H3).
    { intros z Hz. left. intros Heq. apply Hy. rewrite <- Heq.
      by apply list_elem_of_fmap_2. }
    destruct (loadChat_self acc y Hb) as (G1 & G2 & G3).
    rewrite H1, H2, H3, G1, G2, G3. done.
  - destruct (IH (loadChat acc y) x Hnd Hin Hb) as (H1 & H2 & H3).
    destruct (loadChat_other acc y (rawId x)) as (G1 & G2 & G3).
    { left. intros Heq. apply Hy. rewrite Heq. by apply list_elem_of_fmap_2. }
    rewrite H1, H2, H3, G2, G3. done.
Qed.

Lemma initializeCache_fresh client chats now s :
  isCacheReady client s = false →
  let acc := foldl loadChat (∅, ∅, ∅) chats in
  initializeCache client chats now s
  = {| chatCache := <[client := acc.1.1]> (chatCache s);
       unreadChats := <[client := acc.1.2]> (unreadChats s);
       groupCache := <[client := acc.2]> (groupCache s);
       initTimestamps := <[client := now]> (initTimestamps s);
       isLoaded := <[client := true]> (isLoaded s);
       groupsLoaded := <[client := true]> (groupsLoaded s) |}.
Proof.
  unfold isCacheReady, initializeCache. intros ->. cbn.
  by destruct (foldl loadChat (∅, ∅, ∅) chats) as [[cm us] gm].
Qed.

(** X21: what the one-time load builds.  For a client that is not loaded
    and a listing without repeated ids, every listed chat other than the
    status broadcast is cached with its listed name, group flag, unread
    count and timestamp and no last message; it is in the unread index
    exactly when its unread count is positive, and has a group entry (with
    no participants yet) exactly when it is a group.  An id that is not
    listed, and the status broadcast, are nowhere in the cache.  The client
    is then reported ready. *)
Theorem initializeCache_builds_the_indexes (client : string)
    (chats : list RawChat) (now : Z) (s : t) :
  isCacheReady client s = false →
  NoDup (rawId <$> chats) →
  let s' := initializeCache client chats now s in
  isCacheReady client s' = true
  ∧ areGroupsLoaded client s' = true
  ∧ (∀ x, x ∈ chats → rawId x ≠ "status@broadcast" →
          lookupChat client (rawId x) s' = Some (chatOf x)
          ∧ (inUnreadIndex client (rawId x) s' ↔ 0 < rawUnreadCount x)
          ∧ lookupGroup client (rawId x) s'
            = if rawIsGroup x then Some (groupOf x) else None)
  ∧ (∀ k, k = "status@broadcast" ∨ k ∉ rawId <$> chats →
          lookupChat client k s' = None
          ∧ ¬ inUnreadIndex client k s'
          ∧ lookupGroup client k s' = None).
Proof.
  intros Hfresh Hnd s'. unfold s'. rewrite initializeCache_fresh by done.
  unfold isCacheReady, areGroupsLoaded, lookupChat, lookupGroup, inUnreadIndex.
  cbn. rewrite !lookup_insert_eq. cbn.
  split; [done|]. split; [done|]. split.
  - intros x Hx Hb.
    destruct (foldl_loadChat_listed chats (∅, ∅, ∅) x Hnd Hx Hb) as (H1 & H2 & H3).
    cbn [fst snd] in H2, H3.
    split; [done|]. split; [|by rewrite H3; destruct (rawIsGroup x)]. split.
    + intros (u & [= <-] & Hin). apply H2 in Hin as [?|Hin]; [done|].
      by apply not_elem_of_empty in Hin.
    + intros Hpos. eexists. split; [done|]. apply H2. by left.
  - intros k Hk.
    destruct (foldl_loadChat_other chats (∅, ∅, ∅) k) as (H1 & H2 & H3).
    { intros x Hx. destruct Hk as [->|Hk].
      - destruct (decide (rawId x = "status@broadcast")); [by right|by left].
      - left. intros Heq. apply Hk. rewrite <- Heq. by apply list_elem_of_fmap_2. }
    cbn [fst snd] in H1, H2, H3.
    split; [by rewrite H1|]. split; [|by rewrite H3].
    intros (u & [= <-] & Hin). apply H2 in Hin. by apply not_elem_of_empty in Hin.
Qed.

(** X22: the load is one-time until the cache is cleared.  On a client
    that is loaded [initializeCache] changes nothing, whatever listing it
    is given.  [clearCache] removes everything the cache holds about the
    client and makes it not ready, after which [initializeCache] loads the
    client exactly as it would on an empty cache; neither touches another
    client. *)
Theorem cache_loads_once_until_cleared (client other : string)
    (chats : list RawChat) (now : Z) (s : t) :
  other ≠ client →
  (isCacheReady client s = true → initializeCache client chats now s = s)
  ∧ (isCacheReady client (clearCache client s) = false
     ∧ chatCache (clearCache client s) !! client = None
     ∧ unreadChats (clearCache client s) !! client = None
     ∧ groupCache (clearCache client s) !! client = None)
  ∧ (let s' := initializeCache client chats now (clearCache client s) in
     let fresh := initializeCache client chats now empty in
     chatCache s' !! client = chatCache fresh !! client
     ∧ unreadChats s' !! client = unreadChats fresh !! client
     ∧ groupCache s' !! client = groupCache fresh !! client
     ∧ isCacheReady client s' = true
     ∧ chatCache s' !! other = chatCache s !! other
     ∧ unreadChats s' !! other = unreadChats s !! other
     ∧ groupCache s' !! other = groupCache s !! other
     ∧ isCacheReady other s' = isCacheReady other s).
Proof.
  intros Hne.
  assert (Hcl : isCacheReady client (clearCache client s) = false).
  { unfold isCacheReady, clearCache. cbn. by rewrite lookup_delete_eq. }
  split; [|split].
  - unfold isCacheReady, initializeCache. by intros ->.
  - split; [done|]. unfold clearCache. cbn. by rewrite !lookup_delete_eq.
  - cbn zeta. rewrite !initializeCache_fresh by done.
    unfold isCacheReady. cbn. rewrite !lookup_insert_eq.
    rewrite !lookup_insert_ne by done. rewrite !lookup_delete_ne by done.
    done.
Qed.

End ChatCacheLoading.

(** ** Chat cache: group entries and chat entries *)

Section ChatCacheGroups.
Import ChatCache Invariants.

Lemma is_Some_insert_insert {A} (M : gmap string (gmap string A))
    (c x k' k : string) (m : gmap string A) (v : A) :
  M !! c = Some m →
  is_Some (<[c := <[k' := v]> m]> M !! x ≫= fun m => m !! k)
  ↔ (c = x ∧ k' = k) ∨ is_Some (M !! x ≫= fun m => m !! k).
Proof.
  intros Hm. destruct (decide (c = x)) as [<-|Hne].
  - rewrite lookup_insert_eq, Hm. cbn.
    destruct (decide (k' = k)) as [<-|Hk].
    + rewrite lookup_insert_eq. split; eauto.
    + rewrite lookup_insert_ne by done. split; [eauto|]. by intros [[_ ?]|?].
  - rewrite lookup_insert_ne by done. split; [eauto|]. by intros [[? _]|?].
Qed.

Lemma is_Some_insert_delete {A} (M : gmap string (gmap string A))
    (c x k' k : string) (m : gmap string A) :
  M !! c = Some m →
  is_Some (<[c := delete k' m]> M !! x ≫= fun m => m !! k)
  ↔ ¬ (c = x ∧ k' = k) ∧ is_Some (M !! x ≫= fun m => m !! k).
Proof.
  intros Hm. destruct (decide (c = x)) as [<-|Hne].
  - rewrite lookup_insert_eq, Hm. cbn.
    destruct (decide (k' = k)) as [<-|Hk].
    + rewrite lookup_delete_eq. split; [by intros [? [=]]|]. by intros [[] _].
    + rewrite lookup_delete_ne by done. split; [|by intros [_ ?]].
      intros H. split; [|done]. by intros [_ ?].
  - rewrite lookup_insert_ne by done. split; [|by intros [_ ?]].
    intros H. split; [|done]. by intros [? _].
Qed.

(** An insertion at a key the inner map already holds changes no key. *)
Lemma is_Some_insert_present {A} (M : gmap string (gmap string A))
    (c x k' k : string) (m : gmap string A) (v : A) :
  M !! c = Some m → is_Some (m !! k') →
  is_Some (<[c := <[k' := v]> m]> M !! x ≫= fun m => m !! k)
  ↔ is_Some (M !! x ≫= fun m => m !! k).
Proof.
  intros Hm Hk. rewrite (is_Some_insert_insert M c x k' k m v Hm).
  split; [|eauto]. intros [[<- <-]|?]; [|done]. by rewrite Hm.
Qed.

Lemma mirror_groupKeys client chatId c count s x k :
  is_Some (lookupGroup x k (mirror client chatId c count s))
  ↔ is_Some (lookupGroup x k s).
Proof.
  unfold mirror. destruct (truthy (isGroup c)); [|done].
  destruct (groupCache s !! client) as [gm|] eqn:Hgm; [|done].
  destruct (gm !! chatId) as [g|] eqn:Hg; [|done].
  unfold lookupGroup. cbn [groupCache withGroups].
  apply is_Some_insert_present; eauto.
Qed.

(** The calls that write into existing maps add no group entry and drop
    no chat entry. *)
Lemma keeps_refl x s : keeps x s s.
Proof. by intros k. Qed.

Lemma updateChat_keeps client chatId u s x :
  keeps x s (updateChat client chatId u s).
Proof.
  unfold updateChat.
  destruct (chatCache s !! client) as [m|] eqn:Hm; [|apply keeps_refl].
  assert (Hchat : ∀ k v, is_Some (lookupChat x k s) →
            is_Some (<[client := <[chatId := v]> m]> (chatCache s) !! x
                     ≫= fun m => m !! k)).
  { intros k v Hk. apply is_Some_insert_insert; [done|by right]. }
  destruct (truthy _); [|intros k; split; [done|apply Hchat]].
  cbn [groupCache withChats].
  destruct (groupCache s !! client) as [gm|] eqn:Hgm;
    [|intros k; split; [done|apply Hchat]].
  destruct (gm !! chatId) as [g|] eqn:Hg;
    [|intros k; split; [done|apply Hchat]].
  intros k. split; [|apply Hchat].
  unfold lookupGroup. cbn [groupCache withGroups withChats].
  apply is_Some_insert_present; eauto.
Qed.

Lemma markAsUnread_keeps client chatId inc now s x :
  keeps x s (markAsUnread client chatId inc now s).
Proof.
  unfold markAsUnread.
  destruct (chatCache s !! client) as [m|] eqn:Hm; [|apply keeps_refl].
  destruct (unreadChats s !! client) as [u|]; [|apply keeps_refl].
  destruct (m !! chatId) as [c|] eqn:Hc; [|by intros k].
  intros k. split.
  - unfold lookupGroup. cbn [groupCache withUnread].
    intros H. by apply mirror_groupKeys in H.
  - unfold lookupChat. cbn [chatCache withUnread].
    rewrite mirror_chatCache. cbn [chatCache withChats].
    intros H. apply is_Some_insert_insert; [done|by right].
Qed.

Lemma markAsRead_keeps client chatId now s x :
  keeps x s (markAsRead client chatId now s).
Proof.
  unfold markAsRead.
  destruct (chatCache s !! client) as [m|] eqn:Hm; [|apply keeps_refl].
  destruct (unreadChats s !! client) as [u|]; [|apply keeps_refl].
  destruct (m !! chatId) as [c|] eqn:Hc; [|by intros k].
  intros k. split.
  - unfold lookupGroup. cbn [groupCache withUnread].
    intros H. by apply mirror_groupKeys in H.
  - unfold lookupChat. cbn [chatCache withUnread].
    rewrite mirror_chatCache. cbn [chatCache withChats].
    intros H. apply is_Some_insert_insert; [done|by right].
Qed.

Lemma updateGroupMetadata_keeps client g md s x :
  keeps x s (updateGroupMetadata client g md s).
Proof.
  unfold updateGroupMetadata.
  destruct (groupCache s !! client) as [gm|] eqn:Hgm; [|apply keeps_refl].
  destruct (gm !! g) as [g0|] eqn:Hg; [|apply keeps_refl].
  intros k. split; [|done].
  unfold lookupGroup. cbn [groupCache withGroups].
  apply is_Some_insert_present; eauto.
Qed.

Lemma updateGroupProfilePic_keeps client g url s x :
  keeps x s (updateGroupProfilePic client g url s).
Proof.
  unfold updateGroupProfilePic.
  destruct (groupCache s !! client) as [gm|] eqn:Hgm; [|apply keeps_refl].
  destruct (gm !! g) as [g0|] eqn:Hg; [|apply keeps_refl].
  intros k. split; [|done].
  unfold lookupGroup. cbn [groupCache withGroups].
  apply is_Some_insert_present; eauto.
Qed.

Lemma groupsAreChats_keeps x s s' :
  keeps x s s' → groupsAreChats x s → groupsAreChats x s'.
Proof. intros Hk H k Hg. apply Hk, H, Hk, Hg. Qed.

Lemma loadChat_groups_in_chats
    (acc : gmap string ChatData * gset string * gmap string GroupData) c :
  (∀ k, is_Some (acc.2 !! k) → is_Some (acc.1.1 !! k)) →
  ∀ k, is_Some ((loadChat acc c).2 !! k) → is_Some ((loadChat acc c).1.1 !! k).
Proof.
  destruct acc as [[cm us] gm]. unfold loadChat. cbn [fst snd].
  intros H k. destruct (String.eqb _ _); cbn [fst snd]; [apply H|].
  destruct (decide (rawId c = k)) as [<-|Hne].
  - rewrite lookup_insert_eq. eauto.
  - rewrite lookup_insert_ne by done.
    destruct (rawIsGroup c); [rewrite lookup_insert_ne by done|]; apply H.
Qed.

Lemma foldl_loadChat_groups_in_chats chats :
  ∀ acc : gmap string ChatData * gset string * gmap string GroupData,
  (∀ k, is_Some (acc.2 !! k) → is_Some (acc.1.1 !! k)) →
  ∀ k, is_Some ((foldl loadChat acc chats).2 !! k) →
       is_Some ((foldl loadChat acc chats).1.1 !! k).
Proof.
  induction chats as [|c chats IH]; intros acc H; [done|].
  cbn [foldl]. apply IH. by apply loadChat_groups_in_chats.
Qed.

Lemma groupsAreChats_step x o s :
  groupsAreChats x s → groupsAreChats x (step o s).
Proof.
  intros Hinv.
  destruct o as [c chats now|c k u|c k inc now|c k now|c
                |c g md|c g url|c gid user gname t1 t2|c gid]; cbn [step].
  - unfold initializeCache. destruct (default false (isLoaded s !! c)); [done|].
    pose proof (foldl_loadChat_groups_in_chats chats (∅, ∅, ∅)) as Hl.
    destruct (foldl loadChat (∅, ∅, ∅) chats) as [[cm us] gm].
    cbn [fst snd] in Hl. intros k. unfold lookupGroup, lookupChat. cbn.
    destruct (decide (c = x)) as [->|Hne].
    + rewrite !lookup_insert_eq. cbn. apply Hl. intros k' [? Hk'].
      by rewrite lookup_empty in Hk'.
    + rewrite !lookup_insert_ne by done. apply Hinv.
  - eapply groupsAreChats_keeps; [apply updateChat_keeps|done].
  - eapply groupsAreChats_keeps; [apply markAsUnread_keeps|done].
  - eapply groupsAreChats_keeps; [apply markAsRead_keeps|done].
  - intros k. unfold lookupGroup, lookupChat, clearCache. cbn.
    destruct (decide (c = x)) as [->|Hne].
    + rewrite !lookup_delete_eq. cbn. by intros [? [=]].
    + rewrite !lookup_delete_ne by done. apply Hinv.
  - eapply groupsAreChats_keeps; [apply updateGroupMetadata_keeps|done].
  - eapply groupsAreChats_keeps; [apply updateGroupProfilePic_keeps|done].
  - unfold addGroup.
    destruct (groupCache s !! c) as [gm|] eqn:Hgm; [|done].
    destruct (chatCache s !! c) as [cm|] eqn:Hcm; [|done].
    intros k. unfold lookupGroup, lookupChat.
    cbn [groupCache chatCache withGroups withChats].
    rewrite !is_Some_insert_insert by done.
    intros [?|Hg]; [by left|]. right. by apply Hinv.
  - unfold removeGroup. intros k.
    destruct (groupCache s !! c) as [gm|] eqn:Hgm.
    + cbn [chatCache withGroups].
      destruct (chatCache s !! c) as [cm|] eqn:Hcm.
      * unfold lookupGroup, lookupChat.
        cbn [groupCache chatCache withGroups withChats].
        rewrite !is_Some_insert_delete by done.
        intros [Hne Hg]. split; [done|]. by apply Hinv.
      * unfold lookupGroup, lookupChat. cbn [groupCache chatCache withGroups].
        rewrite is_Some_insert_delete by done.
        intros [_ Hg]. by apply Hinv.
    + destruct (chatCache s !! c) as [cm|] eqn:Hcm; [|apply Hinv].
      unfold lookupGroup, lookupChat. cbn [groupCache chatCache withChats].
      rewrite is_Some_insert_delete by done.
      intros Hg. split; [|by apply Hinv].
      intros [-> ->]. unfold lookupGroup in Hg. rewrite Hgm in Hg.
      by destruct Hg as [? [=]].
Qed.

Lemma hasChatInCache_spec client k s :
  ChatCacheReads.hasChatInCache client k s = true ↔ is_Some (lookupChat client k s).
Proof.
  unfold ChatCacheReads.hasChatInCache, lookupChat.
  destruct (chatCache s !! client) as [m|]; cbn.
  - by rewrite bool_decide_eq_true.
  - split; [done|]. by intros [? [=]].
Qed.

(** X23: in every state the cache reaches from the empty one, through any
    sequence of its calls, each group entry of a client is the entry of a
    chat that the client's chat map holds as well, so that
    [hasChatInCache] answers true for it: the group list is never ahead of
    the chat list. *)
Theorem group_entries_are_cached_chats (client : string) (ops : list op) :
  groupsAreChats client (exec ops empty)
  ∧ ∀ k, is_Some (lookupGroup client k (exec ops empty)) →
         ChatCacheReads.hasChatInCache client k (exec ops empty) = true.
Proof.
  assert (H : ∀ s, groupsAreChats client s → groupsAreChats client (exec ops s)).
  { induction ops as [|o ops IH]; intros s Hs; [done|].
    change (exec (o :: ops) s) with (exec ops (step o s)).
    by apply IH, groupsAreChats_step. }
  assert (Hinv : groupsAreChats client (exec ops empty)).
  { apply H. intros k. unfold lookupGroup, empty. cbn.
    rewrite lookup_empty. by intros [? [=]]. }
  split; [done|]. intros k Hk. apply hasChatInCache_spec. by apply Hinv.
Qed.

End ChatCacheGroups.

(** ** Chat cache: the message hook of the orchestrator *)

Section MessageHook.
Import ChatCacheReads ChatCache Invariants.

Lemma jsOrNaN_default (x : option Z) : jsOrNaN x 0 = default 0 x.
Proof.
  destruct x as [v|]; [|done]. cbn. unfold jsOr.
  destruct (Z.eqb_spec v 0); congruence.
Qed.

(** What [updateChat] leaves, on a client whose chat map exists. *)
Lemma updateChat_spec client chatId u s m :
  chatCache s !! client = Some m →
  let s' := updateChat client chatId u s in
  chatCache s' !! client = Some (<[chatId := merge chatId (m !! chatId) u]> m)
  ∧ unreadChats s' = unreadChats s
  ∧ isLoaded s' = isLoaded s
  ∧ (∀ g', truthy (isGroup (merge chatId (m !! chatId) u)) = true →
           lookupGroup client chatId s' = Some g' →
           ∃ g, lookupGroup client chatId s = Some g ∧ g' = assign g u).
Proof.
  intros Hm s'. unfold s', updateChat. rewrite Hm.
  destruct (truthy _) eqn:Ht.
  - cbn [groupCache withChats].
    destruct (groupCache s !! client) as [gm|] eqn:Hgm.
    + destruct (gm !! chatId) as [g|] eqn:Hg.
      * cbn. rewrite lookup_insert_eq. repeat split; try done.
        intros g' _. unfold lookupGroup. cbn. rewrite lookup_insert_eq, Hgm. cbn.
        rewrite lookup_insert_eq, Hg. intros [= <-]. eauto.
      * cbn. rewrite lookup_insert_eq. repeat split; try done.
        intros g' _. unfold lookupGroup. cbn. rewrite Hgm. cbn. by rewrite Hg.
    + cbn. rewrite lookup_insert_eq. repeat split; try done.
      intros g' _. unfold lookupGroup. cbn. by rewrite Hgm.
  - cbn. rewrite lookup_insert_eq. repeat split; try done.
Qed.

(** The group entry [mirror] leaves is the one it found, with the counter
    and the timestamp overwritten. *)
Lemma mirror_lookupGroup_inv client chatId c count s g' :
  truthy (isGroup c) = true →
  lookupGroup client chatId (mirror client chatId c count s) = Some g' →
  ∃ g, lookupGroup client chatId s = Some g
       ∧ unreadCount (chat g') = count
       ∧ timestamp (chat g') = timestamp c
       ∧ lastMessage (chat g') = lastMessage (chat g).
Proof.
  intros Hg. unfold mirror, lookupGroup. rewrite Hg.
  destruct (groupCache s !! client) as [gm|] eqn:Hgm; cbn.
  - destruct (gm !! chatId) as [g0|] eqn:Hg0; cbn.
    + rewrite lookup_insert_eq. cbn. rewrite lookup_insert_eq.
      intros [= <-]. by exists g0.
    + rewrite Hgm. cbn. by rewrite Hg0.
  - by rewrite Hgm.
Qed.

Lemma mirror_isLoaded client chatId c count s :
  isLoaded (mirror client chatId c count s) = isLoaded s.
Proof.
  unfold mirror. destruct (truthy (isGroup c)); [|done].
  destruct (groupCache s !! client) as [gm|]; [|done].
  by destruct (gm !! chatId).
Qed.

(** X24: what a message does to a loaded cache.  For a client whose chat
    map and unread index exist and a message that is not from the status
    broadcast, [updateCacheOnMessage] leaves a chat entry under the
    sender's id, creating it if the chat was unknown: its group flag says
    whether the id ends in [@g.us], its last message is the message body,
    its name is the one it had, and its timestamp is the clock reading of
    the call, not the message's own timestamp.  An incoming message raises
    the unread count by one (from 0 for an unknown chat) and puts the chat
    in the unread index; an outgoing one sets the count to 0 and takes the
    chat out of the index.  If the id ends in [@g.us] and the client has a
    group entry for it, that entry shows the same count, timestamp and last
    message. *)
Theorem message_updates_chat_and_unread_index (number : string)
    (message : Message) (now : Z) (s : t)
    (m : gmap string ChatData) (u : gset string) :
  chatCache s !! number = Some m →
  unreadChats s !! number = Some u →
  from message ≠ "status@broadcast" →
  let s' := updateCacheOnMessage number message now s in
  let chatId := from message in
  ∃ c', lookupChat number chatId s' = Some c'
    ∧ id c' = chatId
    ∧ isGroup c' = Some (endsWith chatId "@g.us")
    ∧ lastMessage c' = Some (body message)
    ∧ name c' = m !! chatId ≫= name
    ∧ timestamp c' = Some now
    ∧ (if fromMe message
       then unreadCount c' = Some 0 ∧ ¬ inUnreadIndex number chatId s'
       else unreadCount c' = Some (default 0 (m !! chatId ≫= unreadCount) + 1)
            ∧ inUnreadIndex number chatId s')
    ∧ (∀ g', endsWith chatId "@g.us" = true →
             lookupGroup number chatId s' = Some g' →
             unreadCount (chat g') = unreadCount c'
             ∧ timestamp (chat g') = Some now
             ∧ lastMessage (chat g') = Some (body message)).
Proof.
  intros Hm Hu Hb s' chatId. unfold s', updateCacheOnMessage.
  destruct (String.eqb_spec (from message) "status@broadcast") as [|_]; [done|].
  fold chatId.
  set (upd := {| updName := None; updIsGroup := Some (endsWith chatId "@g.us");
                 updUnreadCount := None;
                 updTimestamp := Some (ChatCacheReads.timestamp message);
                 updLastMessage := Some (body message);
                 updProfilePicUrl := None |}).
  destruct (updateChat_spec number chatId upd s m Hm) as (Hm1 & Hu1 & _ & Hg1).
  set (s1 := updateChat number chatId upd s) in *.
  set (c1 := merge chatId (m !! chatId) upd) in *.
  set (m1 := <[chatId := c1]> m) in *.
  assert (Hc1 : m1 !! chatId = Some c1) by apply lookup_insert_eq.
  assert (Hu1' : unreadChats s1 !! number = Some u) by by rewrite Hu1.
  destruct (fromMe message); cbn [negb].
  - (* outgoing *)
    exists (touch c1 0 now).
    destruct (markAsRead_spec number chatId now s1 m1 u Hm1 Hu1') as (Hidx & Hchat & _).
    rewrite Hchat, Hc1. repeat split; try done.
    + intros (u' & Hu' & Hin). rewrite Hidx in Hu'. injection Hu' as <-.
      apply elem_of_difference in Hin as [_ Hin]. apply Hin.
      by apply elem_of_singleton.
    + unfold markAsRead in H0. rewrite Hm1, Hu1', Hc1 in H0.
      apply (mirror_lookupGroup_inv number chatId (touch c1 0 now)) in H0 as (g & _ & ? & _);
        [done|by cbn; rewrite H].
    + unfold markAsRead in H0. rewrite Hm1, Hu1', Hc1 in H0.
      apply (mirror_lookupGroup_inv number chatId (touch c1 0 now)) in H0 as (g & _ & _ & ? & _);
        [done|by cbn; rewrite H].
    + unfold markAsRead in H0. rewrite Hm1, Hu1', Hc1 in H0.
      apply (mirror_lookupGroup_inv number chatId (touch c1 0 now)) in H0 as (g & Hg & _ & _ & ->);
        [|by cbn; rewrite H].
      destruct (Hg1 g) as (g0 & _ & ->); [by cbn; rewrite H|done|done].
  - (* incoming *)
    exists (touch c1 (jsOrNaN (unreadCount c1) 0 + 1) now).
    destruct (markAsUnread_spec number chatId 1 now s1 m1 u Hm1 Hu1') as (Hidx & Hchat).
    unfold lookupChat. rewrite Hchat, Hc1. cbn [mbind option_bind].
    rewrite lookup_insert_eq. repeat split; try done.
    + cbn. by rewrite jsOrNaN_default.
    + exists ({[chatId]} ∪ u). split; [done|].
      apply elem_of_union_l. by apply elem_of_singleton.
    + unfold markAsUnread in H0. rewrite Hm1, Hu1', Hc1 in H0.
      apply (mirror_lookupGroup_inv number chatId
               (touch c1 (jsOrNaN (unreadCount c1) 0 + 1) now)) in H0 as (g & _ & ? & _);
        [done|by cbn; rewrite H].
    + unfold markAsUnread in H0. rewrite Hm1, Hu1', Hc1 in H0.
      apply (mirror_lookupGroup_inv number chatId
               (touch c1 (jsOrNaN (unreadCount c1) 0 + 1) now)) in H0 as (g & _ & _ & ? & _);
        [done|by cbn; rewrite H].
    + unfold markAsUnread in H0. rewrite Hm1, Hu1', Hc1 in H0.
      apply (mirror_lookupGroup_inv number chatId
               (touch c1 (jsOrNaN (unreadCount c1) 0 + 1) now)) in H0 as (g & Hg & _ & _ & ->);
        [|by cbn; rewrite H].
      destruct (Hg1 g) as (g0 & _ & ->); [by cbn; rewrite H|done|done].
Qed.

Lemma isLoaded_step_other o s :
  (∀ c chats now, o ≠ OpInitializeCache c chats now) →
  (∀ c, o ≠ OpClearCache c) →
  isLoaded (step o s) = isLoaded s.
Proof.
  intros Hi Hc.
  destruct o as [c chats now|c k u|c k inc now|c k now|c
                |c g md|c g url|c gid user gname t1 t2|c gid]; cbn [step].
  - by destruct (Hi c chats now).
  - unfold updateChat. destruct (chatCache s !! c) as [m|]; [|done].
    destruct (truthy _); [|done]. cbn [groupCache withChats].
    destruct (groupCache s !! c) as [gm|]; [|done]. by destruct (gm !! k).
  - unfold markAsUnread. destruct (chatCache s !! c) as [m|]; [|done].
    destruct (unreadChats s !! c) as [us|]; [|done].
    destruct (m !! k); [|done]. cbn [isLoaded withUnread].
    by rewrite mirror_isLoaded.
  - unfold markAsRead. destruct (chatCache s !! c) as [m|]; [|done].
    destruct (unreadChats s !! c) as [us|]; [|done].
    destruct (m !! k); [|done]. cbn [isLoaded withUnread].
    by rewrite mirror_isLoaded.
  - by destruct (Hc c).
  - unfold updateGroupMetadata. destruct (groupCache s !! c) as [gm|]; [|done].
    by destruct (gm !! g).
  - unfold updateGroupProfilePic. destruct (groupCache s !! c) as [gm|]; [|done].
    by destruct (gm !! g).
  - unfold addGroup. destruct (groupCache s !! c) as [gm|]; [|done].
    by destruct (chatCache s !! c).
  - unfold removeGroup. destruct (groupCache s !! c) as [gm|];
      cbn [chatCache withGroups]; by destruct (chatCache s !! c).
Qed.

Lemma loadedExactly_sameKeys x s s' :
  sameKeys x s s' → isLoaded s' = isLoaded s →
  loadedExactly x s → loadedExactly x s'.
Proof. unfold loadedExactly. intros [-> _] ->. done. Qed.

Lemma loadedExactly_step x o s : loadedExactly x s → loadedExactly x (step o s).
Proof.
  intros Hinv.
  destruct o as [c chats now|c k u|c k inc now|c k now|c
                |c g md|c g url|c gid user gname t1 t2|c gid].
  - cbn [step]. unfold initializeCache.
    destruct (default false (isLoaded s !! c)); [done|].
    destruct (foldl loadChat (∅, ∅, ∅) chats) as [[cm us] gm].
    unfold loadedExactly. cbn.
    destruct (decide (c = x)) as [->|Hne].
    + rewrite !lookup_insert_eq. cbn. split; eauto.
    + by rewrite !lookup_insert_ne.
  - eapply loadedExactly_sameKeys;
      [apply updateChat_sameKeys|by apply isLoaded_step_other|done].
  - eapply loadedExactly_sameKeys;
      [apply markAsUnread_sameKeys|by apply isLoaded_step_other|done].
  - eapply loadedExactly_sameKeys;
      [apply markAsRead_sameKeys|by apply isLoaded_step_other|done].
  - cbn [step]. unfold loadedExactly, clearCache. cbn.
    destruct (decide (c = x)) as [->|Hne].
    + rewrite !lookup_delete_eq. cbn. split; [done|by intros [? [=]]].
    + by rewrite !lookup_delete_ne.
  - eapply loadedExactly_sameKeys;
      [apply updateGroupMetadata_sameKeys|by apply isLoaded_step_other|done].
  - eapply loadedExactly_sameKeys;
      [apply updateGroupProfilePic_sameKeys|by apply isLoaded_step_other|done].
  - eapply loadedExactly_sameKeys;
      [apply addGroup_sameKeys|by apply isLoaded_step_other|done].
  - eapply loadedExactly_sameKeys;
      [apply removeGroup_sameKeys|by apply isLoaded_step_other|done].
Qed.

Lemma loadedExactly_reachable x ops : loadedExactly x (exec ops empty).
Proof.
  assert (H : ∀ s, loadedExactly x s → loadedExactly x (exec ops s)).
  { induction ops as [|o ops IH]; intros s Hs; [done|].
    change (exec (o :: ops) s) with (exec ops (step o s)).
    by apply IH, loadedExactly_step. }
  apply H. unfold loadedExactly, empty. cbn. rewrite !lookup_empty. cbn.
  split; [done|by intros [? [=]]].
Qed.

(** X25: a message that arrives while the client's cache is not loaded is
    not recorded.  In every state the cache reaches from the empty one the
    client is reported ready exactly when its chat map and its unread index
    exist; while it is not ready, [updateCacheOnMessage] changes nothing,
    for incoming and outgoing messages alike. *)
Theorem message_before_load_is_dropped (number : string) (ops : list op)
    (message : Message) (now : Z) :
  let s := exec ops empty in
  (isCacheReady number s = true
   ↔ is_Some (chatCache s !! number) ∧ is_Some (unreadChats s !! number))
  ∧ (isCacheReady number s = false →
     updateCacheOnMessage number message now s = s).
Proof.
  intros s.
  pose proof (loadedExactly_reachable number ops) as Hl.
  pose proof (indexed_reachable number ops) as Hi.
  fold s in Hl, Hi. unfold loadedExactly in Hl. unfold indexed in Hi.
  unfold isCacheReady. split; [rewrite Hl; tauto|].
  intros Hnot.
  assert (Hnone : chatCache s !! number = None).
  { apply eq_None_not_Some. intros Hsome. apply Hl in Hsome. congruence. }
  unfold updateCacheOnMessage. destruct (String.eqb _ _); [done|].
  unfold updateChat, markAsUnread, markAsRead. rewrite Hnone.
  by destruct (negb _); rewrite Hnone.
Qed.

End MessageHook.

(** ** Orchestrator: the retry count of [createClient] *)

Section OrchestratorRetries.
Import Orchestrator.

Variable cfg : Config.t.

Lemma jsOrNaN_positive (x : option Z) (v : Z) :
  0 < v → jsOrNaN x 0 = v → x = Some v.
Proof.
  intros Hv. destruct x as [y|]; cbn; [|lia]. unfold jsOr.
  destruct (Z.eqb_spec y 0); [lia|congruence].
Qed.

Lemma jsOrNaN_bounded (x : option Z) :
  (∀ v, x = Some v → 1 ≤ v ≤ MAX_RETRIES cfg) →
  0 ≤ jsOrNaN x 0 ∧ (x = None ∨ x = Some (jsOrNaN x 0)).
Proof.
  intros H. destruct x as [y|]; cbn; [|by split; [|left]].
  pose proof (H y eq_refl). unfold jsOr.
  destruct (Z.eqb_spec y 0); [lia|]. split; [lia|by right].
Qed.

Lemma createClient_bounded number a s :
  bounded cfg s → bounded cfg (snd (createClient cfg number a s)).
Proof.
  intros Hb. unfold bounded, createClient.
  destruct (jsOrNaN_bounded (retryAttempts s !! number)) as [Hrc _].
  { intros v. apply Hb. }
  destruct (Z.leb_spec (MAX_RETRIES cfg) (jsOrNaN (retryAttempts s !! number) 0))
    as [Hle|Hlt].
  - intros n v. cbn. intros Hv. apply lookup_delete_Some in Hv as [_ Hv].
    by apply (Hb n).
  - assert (Hins : ∀ n v,
              <[number := jsOrNaN (retryAttempts s !! number) 0 + 1]>
                (retryAttempts s) !! n = Some v →
              1 ≤ v ≤ MAX_RETRIES cfg).
    { intros n v Hv. apply lookup_insert_Some in Hv as [[_ <-]|[_ Hv]]; [lia|].
      by apply (Hb n). }
    destruct a as [c ts|c ts|]; cbn; try exact Hins.
    intros n v Hv. apply lookup_delete_Some in Hv as [_ Hv]. by apply (Hb n).
Qed.

Lemma recoverClient_bounded number a now s :
  bounded cfg s → bounded cfg (snd (recoverClient cfg number a now s)).
Proof.
  intros Hb. unfold recoverClient.
  match goal with
  | |- context [createClient cfg number a ?s3] =>
      pose proof (createClient_bounded number a s3 Hb) as Hc;
      destruct (createClient cfg number a s3) as [r s']
  end.
  by destruct r.
Qed.

Lemma bounded_step o s : bounded cfg s → bounded cfg (step cfg o s).
Proof.
  intros Hb. destruct o as [n a|n a now|n a now]; cbn [step].
  - by apply createClient_bounded.
  - by apply recoverClient_bounded.
  - unfold forceReconnect. by apply recoverClient_bounded.
Qed.

Lemma bounded_exec ops : ∀ s, bounded cfg s → bounded cfg (exec cfg ops s).
Proof.
  induction ops as [|o ops IH]; intros s Hs; [done|].
  change (exec cfg (o :: ops) s) with (exec cfg ops (step cfg o s)).
  by apply IH, bounded_step.
Qed.

(** X26: the retry count of [createClient] stays within the limit.
    Through any sequence of [createClient], [recoverClient] and
    [forceReconnect] calls, made one after the other on a new orchestrator,
    every stored retry count is at least 1 and at most [MAX_RETRIES]; and if
    the configured limit is not positive, every call to [createClient] is
    refused with the max-retries error before a session is constructed. *)
Theorem retry_count_within_limit (w : Watchdog.World) (ops : list op) :
  let s := exec cfg ops (initial w) in
  bounded cfg s
  ∧ (MAX_RETRIES cfg ≤ 0 →
     ∀ number a,
       createClient cfg number a s
       = (MaxRetriesReached,
          {| world := world s; retryAttempts := delete number (retryAttempts s) |})).
Proof.
  intros s.
  assert (Hb : bounded cfg s).
  { apply bounded_exec. intros n v. unfold initial. cbn.
    by rewrite lookup_empty. }
  split; [done|]. intros Hmax number a. unfold createClient.
  destruct (jsOrNaN_bounded (retryAttempts s !! number)) as [Hrc _].
  { intros v. apply Hb. }
  destruct (Z.leb_spec (MAX_RETRIES cfg) (jsOrNaN (retryAttempts s !! number) 0));
    [done|lia].
Qed.

Lemma createClient_failing number a s :
  failing a = true →
  jsOrNaN (retryAttempts s !! number) 0 < MAX_RETRIES cfg →
  fst (createClient cfg number a s) = Failed
  ∧ retryAttempts (snd (createClient cfg number a s)) !! number
    = Some (jsOrNaN (retryAttempts s !! number) 0 + 1).
Proof.
  intros Hf Hlt. unfold createClient.
  destruct (Z.leb_spec (MAX_RETRIES cfg) (jsOrNaN (retryAttempts s !! number) 0));
    [lia|].
  destruct a as [c ts|c ts|]; [done| |]; cbn; by rewrite lookup_insert_eq.
Qed.

Lemma failures_add_up number (fails : list attempt) : ∀ s,
  0 ≤ jsOrNaN (retryAttempts s !! number) 0 →
  Forall (λ a, failing a = true) fails →
  jsOrNaN (retryAttempts s !! number) 0 + Z.of_nat (length fails)
    ≤ MAX_RETRIES cfg →
  jsOrNaN (retryAttempts (exec cfg (OpCreateClient number <$> fails) s) !! number) 0
  = jsOrNaN (retryAttempts s !! number) 0 + Z.of_nat (length fails).
Proof.
  induction fails as [|a fails IH]; intros s H0 Hall Hle.
  - cbn. lia.
  - apply Forall_cons in Hall as [Ha Hall].
    cbn [length] in Hle. rewrite Nat2Z.inj_succ in Hle.
    destruct (createClient_failing number a s Ha) as [_ Hc]; [lia|].
    rewrite fmap_cons.
    change (exec cfg (OpCreateClient number a :: (OpCreateClient number <$> fails)) s)
      with (exec cfg (OpCreateClient number <$> fails)
              (snd (createClient cfg number a s))).
    assert (Hnext : jsOrNaN (retryAttempts (snd (createClient cfg number a s)) !! number) 0
                    = jsOrNaN (retryAttempts s !! number) 0 + 1).
    { rewrite Hc. cbn. unfold jsOr.
      destruct (Z.eqb_spec (jsOrNaN (retryAttempts s !! number) 0 + 1) 0); lia. }
    rewrite IH; [|lia|done|lia].
    rewrite Hnext. cbn [length]. lia.
Qed.

(** X27: after [MAX_RETRIES] failed creations in a row, one call is
    refused and the next one tries again.  With a positive limit and no
    retry count stored for the client, as many failing [createClient] calls
    as the limit allows leave the count at the limit; the next call, good
    or bad, is refused with the max-retries error without constructing or
    initialising a session, and clears the count; the call after that
    initialises the session and returns the client. *)
Theorem createClient_refuses_once_at_limit (number : string)
    (fails : list attempt) (a : attempt) (c : Watchdog.Client) (tsetup : Z)
    (s : t) :
  0 < MAX_RETRIES cfg →
  retryAttempts s !! number = None →
  Forall (λ a, failing a = true) fails →
  Z.of_nat (length fails) = MAX_RETRIES cfg →
  let s1 := exec cfg (OpCreateClient number <$> fails) s in
  let s2 := snd (createClient cfg number a s1) in
  let s3 := snd (createClient cfg number (Initializes c tsetup) s2) in
  retryAttempts s1 !! number = Some (MAX_RETRIES cfg)
  ∧ createClient cfg number a s1
    = (MaxRetriesReached,
       {| world := world s1; retryAttempts := delete number (retryAttempts s1) |})
  ∧ fst (createClient cfg number (Initializes c tsetup) s2) = Created
  ∧ Watchdog.clients (world s3) !! number = Some c
  ∧ retryAttempts s3 !! number = None.
Proof.
  intros Hmax Hnone Hall Hlen s1 s2 s3.
  assert (Hcount : jsOrNaN (retryAttempts s1 !! number) 0 = MAX_RETRIES cfg).
  { unfold s1. rewrite failures_add_up; rewrite ?Hnone; cbn; [lia|lia|done|lia]. }
  assert (Hrefuse : createClient cfg number a s1
            = (MaxRetriesReached,
               {| world := world s1;
                  retryAttempts := delete number (retryAttempts s1) |})).
  { unfold createClient. rewrite Hcount.
    destruct (Z.leb_spec (MAX_RETRIES cfg) (MAX_RETRIES cfg)); [done|lia]. }
  split; [by apply jsOrNaN_positive|]. split; [done|].
  assert (Hs2 : retryAttempts s2 !! number = None).
  { unfold s2. rewrite Hrefuse. cbn. apply lookup_delete_eq. }
  unfold s3, createClient. rewrite Hs2. cbn [jsOrNaN].
  destruct (Z.leb_spec (MAX_RETRIES cfg) 0); [lia|]. cbn.
  split; [done|]. split; [apply lookup_insert_eq|apply lookup_delete_eq].
Qed.

Lemma resetAttempts_forgets n rm :
  ReconnectionManager.getAttempts n (ReconnectionManager.resetAttempts n rm) = 0
  ∧ ReconnectionManager.reconnectTimers (ReconnectionManager.resetAttempts n rm) !! n
    = None.
Proof.
  unfold ReconnectionManager.getAttempts, ReconnectionManager.resetAttempts,
    ReconnectionManager.clearTimer. cbn.
  destruct (ReconnectionManager.reconnectTimers rm !! n) eqn:E; cbn;
    rewrite ?lookup_delete_eq; done.
Qed.

Lemma setStateAt_state n st meta now w :
  ClientStateManager.state
    <$> ClientStateManager.getState n
          (Watchdog.stateManager (Watchdog.setStateAt n st meta now w))
  = Some st.
Proof.
  unfold Watchdog.setStateAt, ClientStateManager.getState,
    ClientStateManager.setState. cbn. by rewrite lookup_insert_eq.
Qed.

(** [recoverClient] up to the call of [createClient]: the world it hands
    over, and what it does with the result. *)
Lemma recoverClient_cases number a now s :
  ∃ w3,
    ClientStateManager.state
      <$> ClientStateManager.getState number (Watchdog.stateManager w3)
    = Some ClientStateManager.RECONNECTING
    ∧ Watchdog.reconnectionManager w3 = Watchdog.reconnectionManager (world s)
    ∧ Watchdog.clients w3 !! number = None
    ∧ Watchdog.clientReadyState w3 !! number = None
    ∧ Watchdog.calls w3
      = Watchdog.calls (world s)
        ++ match Watchdog.clients (world s) !! number with
           | Some _ => [Watchdog.ECleanupClient number]
           | None => []
           end
    ∧ recoverClient cfg number a now s
      = match createClient cfg number a
                {| world := w3; retryAttempts := retryAttempts s |} with
        | (Created, s') =>
            (Created,
             {| world :=
                  withReconnectionManager (world s')
                    (ReconnectionManager.resetAttempts number
                       (Watchdog.reconnectionManager (world s')));
                retryAttempts := retryAttempts s' |})
        | (r, s') => (r, s')
        end.
Proof.
  unfold recoverClient.
  set (w1 := Watchdog.setStateAt number ClientStateManager.RECONNECTING [] now (world s)).
  assert (Hst : ClientStateManager.state
            <$> ClientStateManager.getState number (Watchdog.stateManager w1)
          = Some ClientStateManager.RECONNECTING) by apply setStateAt_state.
  assert (Hrm : Watchdog.reconnectionManager w1
                = Watchdog.reconnectionManager (world s)) by done.
  assert (Hcalls : Watchdog.calls w1 = Watchdog.calls (world s)) by done.
  assert (Hcl : Watchdog.clients w1 = Watchdog.clients (world s)) by done.
  clearbody w1.
  set (w2 := match Watchdog.clients w1 !! number with
             | Some _ => Watchdog.called (Watchdog.ECleanupClient number) w1
             | None => w1
             end).
  assert (Hw2 : Watchdog.stateManager w2 = Watchdog.stateManager w1
                ∧ Watchdog.reconnectionManager w2 = Watchdog.reconnectionManager w1
                ∧ Watchdog.calls w2
                  = Watchdog.calls w1
                    ++ match Watchdog.clients w1 !! number with
                       | Some _ => [Watchdog.ECleanupClient number]
                       | None => []
                       end).
  { unfold w2. destruct (Watchdog.clients w1 !! number); [done|].
    by rewrite app_nil_r. }
  destruct Hw2 as (Hsm2 & Hrm2 & Hcalls2). clearbody w2.
  eexists. split; [|split; [|split; [|split; [|split; [|reflexivity]]]]]; cbn.
  - by rewrite Hsm2.
  - by rewrite Hrm2.
  - apply lookup_delete_eq.
  - apply lookup_delete_eq.
  - by rewrite Hcalls2, Hcalls, Hcl.
Qed.

(** What the started creation leaves of the client: its session object,
    a ready flag of [false], the state [INITIALIZING] entered from the
    state it found, the reconnection manager as it was and one more
    session call. *)
Lemma started_spec number c tsetup w :
  Watchdog.clients (started number c tsetup w) !! number = Some c
  ∧ Watchdog.clientReadyState (started number c tsetup w) !! number = Some false
  ∧ ClientStateManager.getState number
      (Watchdog.stateManager (started number c tsetup w))
    = Some {| ClientStateManager.state := ClientStateManager.INITIALIZING;
              ClientStateManager.timestamp := tsetup;
              ClientStateManager.metadata := [];
              ClientStateManager.previousState :=
                ClientStateManager.state
                  <$> ClientStateManager.getState number (Watchdog.stateManager w) |}
  ∧ Watchdog.reconnectionManager (started number c tsetup w)
    = Watchdog.reconnectionManager w
  ∧ Watchdog.calls (started number c tsetup w)
    = Watchdog.calls w ++ [Watchdog.EInitialize number].
Proof.
  unfold started, setupClientEvents, Watchdog.setStateAt. cbn.
  rewrite !lookup_insert_eq. split; [done|]. split; [done|].
  split; [apply getState_setState|done].
Qed.

(** X28: what a recovery leaves.  [recoverClient] returns the client
    exactly when the retry count is below the limit and the session
    initialises.  Then the reconnection attempts of the client read 0, no
    reconnection timer is registered for it, no retry count is stored and
    the new session object is the client's entry.  When it throws, the
    reconnection manager is as it was, so the attempts already counted
    stay counted.  If the retry count is below the limit and the session
    object is constructed, [setupClientEvents] has run: the client's state
    is [INITIALIZING], entered from [RECONNECTING] at the clock reading of
    the setup, its ready flag is [false] and the session object is its
    entry, whether [initialize] then resolves or rejects.  Otherwise (the
    call is refused at the limit, or the constructor throws) the state is
    left at [RECONNECTING], the ready flag is deleted and the client has
    no entry.  In every case [isReady] answers false. *)
Theorem recoverClient_resets_only_on_success (number : string) (a : attempt)
    (now : Z) (s : t) :
  let r := fst (recoverClient cfg number a now s) in
  let s' := snd (recoverClient cfg number a now s) in
  let rm' := Watchdog.reconnectionManager (world s') in
  let tried := jsOrNaN (retryAttempts s !! number) 0 < MAX_RETRIES cfg in
  (r = Created ↔ failing a = false ∧ tried)
  ∧ (r = Created →
     ReconnectionManager.getAttempts number rm' = 0
     ∧ ReconnectionManager.reconnectTimers rm' !! number = None
     ∧ retryAttempts s' !! number = None
     ∧ ∃ c tsetup, a = Initializes c tsetup
                   ∧ Watchdog.clients (world s') !! number = Some c)
  ∧ (r ≠ Created → rm' = Watchdog.reconnectionManager (world s))
  ∧ (∀ c tsetup, constructed a = Some (c, tsetup) → tried →
       ClientStateManager.getState number (Watchdog.stateManager (world s'))
       = Some {| ClientStateManager.state := ClientStateManager.INITIALIZING;
                 ClientStateManager.timestamp := tsetup;
                 ClientStateManager.metadata := [];
                 ClientStateManager.previousState :=
                   Some ClientStateManager.RECONNECTING |}
       ∧ Watchdog.clientReadyState (world s') !! number = Some false
       ∧ Watchdog.clients (world s') !! number = Some c)
  ∧ (constructed a = None ∨ ¬ tried →
       ClientStateManager.state
         <$> ClientStateManager.getState number (Watchdog.stateManager (world s'))
       = Some ClientStateManager.RECONNECTING
       ∧ Watchdog.clientReadyState (world s') !! number = None
       ∧ Watchdog.clients (world s') !! number = None)
  ∧ Watchdog.isReady number (world s') = false.
Proof.
  intros r s' rm' tried. unfold rm', r, s', tried.
  destruct (recoverClient_cases number a now s)
    as (w3 & Hst & Hrm & Hcl & Hrs & _ & ->).
  unfold createClient. cbn [retryAttempts world].
  destruct (Z.leb_spec (MAX_RETRIES cfg) (jsOrNaN (retryAttempts s !! number) 0))
    as [Hle|Hlt].
  - cbn [fst snd world retryAttempts]. unfold Watchdog.isReady. rewrite Hcl.
    split; [split; [done|lia]|]. split; [done|]. split; [done|].
    split; [intros c ts _ ?; lia|]. done.
  - destruct a as [c ts|c ts|]; cbn [fst snd world retryAttempts constructed].
    + destruct (started_spec number c ts w3) as (Hc & Hr & Hs & Hm & _).
      rewrite Hst in Hs.
      destruct (resetAttempts_forgets number (Watchdog.reconnectionManager w3))
        as [Ha Ht].
      split; [done|]. split.
      { intros _. split; [by rewrite <- Hm in Ha|]. split; [by rewrite <- Hm in Ht|].
        split; [apply lookup_delete_eq|]. exists c, ts. by split. }
      split; [done|]. split.
      { intros c' ts' [= <- <-] _. by split; [exact Hs|split; [exact Hr|exact Hc]]. }
      split; [intros [[=]|Hn]; by destruct Hn|].
      unfold Watchdog.isReady.
      change (Watchdog.clients (withReconnectionManager ?w _)) with (Watchdog.clients w).
      change (Watchdog.clientReadyState (withReconnectionManager ?w _))
        with (Watchdog.clientReadyState w).
      by rewrite Hc, Hr.
    + destruct (started_spec number c ts w3) as (Hc & Hr & Hs & Hm & _).
      rewrite Hst in Hs.
      split; [split; [done|by intros [? _]]|]. split; [done|].
      split; [by intros _; rewrite Hm|]. split.
      { intros c' ts' [= <- <-] _. by split; [exact Hs|split; [exact Hr|exact Hc]]. }
      split; [intros [[=]|Hn]; by destruct Hn|].
      unfold Watchdog.isReady. by rewrite Hc, Hr.
    + unfold Watchdog.isReady. rewrite Hcl.
      split; [split; [done|by intros [? _]]|]. split; [done|]. split; [done|].
      split; [by intros c ts [=]|]. done.
Qed.


End OrchestratorRetries.

(** ** The later properties on concrete runs *)

Section MoreInstances.

Import Scenarios Runs.

Lemma other_clients_untouched_witness :
  Invariants.opClient
    (ClientStateManager.OpSetState Runs.client ClientStateManager.READY [] 10 10)
    ≠ otherClient
  ∧ ClientStateManager.isHealthy otherClient
      (ClientStateManager.step
         (ClientStateManager.OpSetState Runs.client ClientStateManager.READY [] 10 10)
         ClientStateManager.empty)
    = ClientStateManager.isHealthy otherClient ClientStateManager.empty.
Proof.
  assert (Hne : Invariants.opClient
            (ClientStateManager.OpSetState Runs.client ClientStateManager.READY [] 10 10)
          ≠ otherClient) by (vm_compute; discriminate).
  pose proof (other_clients_untouched
                (ClientStateManager.OpSetState Runs.client ClientStateManager.READY [] 10 10)
                otherClient 20 ClientStateManager.empty Hne) as H.
  split; [exact Hne|]. exact (proj1 (proj2 (proj2 (proj2 H)))).
Defined.

Lemma pending_consistent : Invariants.timersConsistent pending.
Proof.
  apply (timersConsistent_exec ReconnectionManager.defaultSettings oneScheduled).
  apply timersConsistent_empty.
Qed.

Lemma schedule_replaces_pending_timer_witness :
  ReconnectionManager.canReconnect ReconnectionManager.defaultSettings
    Runs.client 1500 pending = true
  ∧ ReconnectionManager.reconnectTimers pending !! Runs.client = Some 0%nat
  ∧ ReconnectionManager.armed
      (snd (ReconnectionManager.scheduleReconnection
              ReconnectionManager.defaultSettings Runs.client 1500 (1 # 2) pending))
      !! 0%nat = None
  ∧ ReconnectionManager.reconnectTimers
      (snd (ReconnectionManager.scheduleReconnection
              ReconnectionManager.defaultSettings Runs.client 1500 (1 # 2) pending))
      !! Runs.client = Some 1%nat.
Proof.
  pose proof (schedule_replaces_pending_timer ReconnectionManager.defaultSettings
                Runs.client 1500 (1 # 2) 0%nat 11000 pending
                pending_consistent eq_refl eq_refl) as H.
  cbv zeta in H.
  split; [reflexivity|]. split; [reflexivity|]. split.
  - exact (proj1 (proj2 (proj2 H))).
  - exact (proj1 (proj2 H)).
Defined.

Lemma reset_cancels_pending_timer_witness :
  ReconnectionManager.reconnectTimers pending !! Runs.client = Some 0%nat
  ∧ ReconnectionManager.timerFires 0 11000
      (ReconnectionManager.resetAttempts Runs.client pending)
    = (None, ReconnectionManager.resetAttempts Runs.client pending)
  ∧ ReconnectionManager.attempts
      (ReconnectionManager.getStatus ReconnectionManager.defaultSettings
         Runs.client 1500 (ReconnectionManager.resetAttempts Runs.client pending))
    = 0.
Proof.
  pose proof (reset_cancels_pending_timer ReconnectionManager.defaultSettings
                Runs.client 0%nat 11000 1500 pending
                pending_consistent eq_refl) as H.
  cbv zeta in H.
  split; [reflexivity|]. split.
  - exact (proj1 (proj2 H)).
  - rewrite (proj1 (proj2 (proj2 H))). reflexivity.
Defined.

Lemma attempts_never_exceed_limit_witness :
  0 ≤ ReconnectionManager.maxAttempts ReconnectionManager.defaultSettings
  ∧ 0 ≤ ReconnectionManager.getAttempts Runs.client pending
      ≤ ReconnectionManager.maxAttempts ReconnectionManager.defaultSettings.
Proof.
  assert (Hmax : 0 ≤ ReconnectionManager.maxAttempts
                       ReconnectionManager.defaultSettings)
    by (vm_compute; discriminate).
  pose proof (attempts_never_exceed_limit ReconnectionManager.defaultSettings
                oneScheduled Runs.client 1500 (1 # 2) Hmax) as H.
  cbv zeta in H.
  split; [exact Hmax|]. exact (proj1 H).
Defined.

Lemma quick_failure_is_not_retried_witness :
  ReconnectionManager.armed pending !! 0%nat = Some (Runs.client, 10000)
  ∧ 11500 - 11000 < 2000
  ∧ fst (ReconnectionManager.timerFires 0 11000 pending) = Some Runs.client
  ∧ ReconnectionManager.callbackSettles ReconnectionManager.defaultSettings
      Runs.client (ReconnectionManager.Rejected 11500 11500 (1 # 2))
      (snd (ReconnectionManager.timerFires 0 11000 pending))
    = snd (ReconnectionManager.timerFires 0 11000 pending).
Proof.
  pose proof (quick_failure_is_not_retried ReconnectionManager.defaultSettings
                0%nat Runs.client 10000 11000 11500 11500 (1 # 2) pending
                pending_consistent eq_refl ltac:(discriminate) eq_refl) as H.
  cbv zeta in H.
  split; [reflexivity|]. split; [reflexivity|]. split.
  - exact (proj1 H).
  - exact (proj1 (proj2 H)).
Defined.

Lemma readyEntry_not_stuck :
  ¬ Watchdog.stuck Watchdog.defaultThresholds Runs.client readyEntry 201000
      (Watchdog.stateManager readyClient).
Proof.
  unfold Watchdog.stuck.
  intros [[H _]|[[H _]|[[H|[H|H]] _]]]; vm_compute in H; discriminate.
Qed.

Lemma healthy_client_is_left_alone_witness :
  Watchdog.clients readyClient !! Runs.client = Some readySession
  ∧ ClientStateManager.getState Runs.client (Watchdog.stateManager readyClient)
    = Some readyEntry
  ∧ Watchdog.healthChecks
      (snd (Watchdog.checkClientHealth ReconnectionManager.defaultSettings
              Watchdog.defaultThresholds Runs.client (qrRun false) readyClient))
    = <[ Runs.client :=
           {| Watchdog.hcTimestamp := 201000;
              Watchdog.hcChecks :=
                {| Watchdog.processAlive := true;
                   Watchdog.browserResponsive := true;
                   Watchdog.stateValid := true;
                   Watchdog.websocketActive := true |};
              Watchdog.hcIsHealthy := true;
              Watchdog.hcState := Some ClientStateManager.READY |} ]>
        (Watchdog.healthChecks readyClient)
  ∧ Watchdog.stateManager
      (snd (Watchdog.checkClientHealth ReconnectionManager.defaultSettings
              Watchdog.defaultThresholds Runs.client (qrRun false) readyClient))
    = Watchdog.stateManager readyClient
  ∧ Watchdog.calls
      (snd (Watchdog.checkClientHealth ReconnectionManager.defaultSettings
              Watchdog.defaultThresholds Runs.client (qrRun false) readyClient))
    = [Watchdog.EEvaluate Runs.client].
Proof.
  pose proof (healthy_client_is_left_alone ReconnectionManager.defaultSettings
                Watchdog.defaultThresholds Runs.client (qrRun false) readyClient
                readySession readyEntry
                eq_refl eq_refl eq_refl eq_refl eq_refl readyEntry_not_stuck
                (or_intror eq_refl)) as H.
  cbv zeta in H.
  split; [reflexivity|]. split; [reflexivity|]. split.
  - exact (proj1 (proj2 H)).
  - split.
    + exact (proj1 (proj2 (proj2 (proj2 (proj2 H))))).
    + exact (proj2 (proj2 (proj2 (proj2 (proj2 (proj2 H)))))).
Defined.

Lemma dead_or_unresponsive_client_is_restarted_witness :
  Watchdog.clients waitingClient !! Runs.client = Some waitingSession
  ∧ Watchdog.probeOutcome unresponsiveRun ≠ Watchdog.ProbeValue true
  ∧ Watchdog.clients
      (snd (Watchdog.checkClientHealth ReconnectionManager.defaultSettings
              Watchdog.defaultThresholds Runs.client unresponsiveRun waitingClient))
    = delete Runs.client (Watchdog.clients waitingClient)
  ∧ Watchdog.calls
      (snd (Watchdog.checkClientHealth ReconnectionManager.defaultSettings
              Watchdog.defaultThresholds Runs.client unresponsiveRun waitingClient))
    = [Watchdog.EEvaluate Runs.client; Watchdog.ECleanupClient Runs.client].
Proof.
  assert (Hp : Watchdog.probeOutcome unresponsiveRun ≠ Watchdog.ProbeValue true)
    by discriminate.
  pose proof (dead_or_unresponsive_client_is_restarted
                ReconnectionManager.defaultSettings Watchdog.defaultThresholds
                Runs.client unresponsiveRun waitingClient waitingSession
                eq_refl (or_intror (or_intror Hp))) as H.
  cbv zeta in H.
  split; [reflexivity|]. split; [exact Hp|]. split.
  - exact (proj1 (proj2 H)).
  - exact (proj2 (proj2 (proj2 (proj2 H)))).
Defined.

Lemma unknown_client_is_forgotten_witness :
  Watchdog.clients waitingClient !! otherClient = None
  ∧ fst (Watchdog.checkClientHealth ReconnectionManager.defaultSettings
           Watchdog.defaultThresholds otherClient (qrRun false) waitingClient)
    = None
  ∧ Watchdog.calls
      (snd (Watchdog.checkClientHealth ReconnectionManager.defaultSettings
              Watchdog.defaultThresholds otherClient (qrRun false) waitingClient))
    = Watchdog.calls waitingClient.
Proof.
  pose proof (unknown_client_is_forgotten ReconnectionManager.defaultSettings
                Watchdog.defaultThresholds otherClient (qrRun false)
                waitingClient eq_refl) as H.
  cbv zeta in H.
  split; [reflexivity|]. split.
  - exact (proj1 H).
  - exact (proj2 (proj2 (proj2 (proj2 (proj2 (proj2 H)))))).
Defined.

Lemma link_failure_reloads_the_page_witness :
  Watchdog.websocketActive onlyLinkDown = false
  ∧ Watchdog.clients waitingClient !! Runs.client = Some waitingSession
  ∧ fst (Watchdog.attemptRecovery ReconnectionManager.defaultSettings
           Runs.client onlyLinkDown false 201000 201000 (1 # 2) waitingClient)
    = Some true
  ∧ Watchdog.calls
      (snd (Watchdog.attemptRecovery ReconnectionManager.defaultSettings
              Runs.client onlyLinkDown false 201000 201000 (1 # 2) waitingClient))
    = Watchdog.calls waitingClient ++ [Watchdog.EReload Runs.client].
Proof.
  pose proof (link_failure_reloads_the_page ReconnectionManager.defaultSettings
                Runs.client onlyLinkDown false 201000 201000 (1 # 2)
                waitingClient waitingSession
                eq_refl eq_refl eq_refl eq_refl eq_refl) as H.
  cbv zeta in H. cbn [Watchdog.pupPage waitingSession] in H.
  split; [reflexivity|]. split; [reflexivity|]. split.
  - exact (proj1 H).
  - exact (proj1 (proj2 H)).
Defined.

Lemma processJob_outcomes_witness :
  MediaQueue.completed MediaQueue.empty !! MediaQueue.messageId firstJob = None
  ∧ ¬ MediaQueue.isQueued (MediaQueue.messageId firstJob) MediaQueue.empty
  ∧ MediaQueue.getStatus (MediaQueue.messageId firstJob)
      (MediaQueue.processJob firstJob 0 MediaQueue.NoMedia 50 MediaQueue.empty)
    = MediaQueue.SNotFound.
Proof.
  assert (Hq : ¬ MediaQueue.isQueued (MediaQueue.messageId firstJob)
                   MediaQueue.empty).
  { intros (j & Hin & _). by apply elem_of_nil in Hin. }
  pose proof (processJob_outcomes firstJob 0 MediaQueue.NoMedia 50
                MediaQueue.empty eq_refl Hq) as H.
  cbv zeta in H.
  split; [reflexivity|]. split; [exact Hq|].
  exact (proj1 (proj2 H)).
Defined.

Lemma enqueue_new_job_witness :
  ¬ MediaQueue.isCompleted "m1" MediaQueue.empty
  ∧ ¬ MediaQueue.isProcessing "m1" MediaQueue.empty
  ∧ ¬ MediaQueue.isQueued "m1" MediaQueue.empty
  ∧ fst (MediaQueue.enqueue "m1" (imageMessage "m1") Runs.client 1 10
           MediaQueue.empty)
    = MediaQueue.REnqueued
  ∧ MediaQueue.queue
      (snd (MediaQueue.enqueue "m1" (imageMessage "m1") Runs.client 1 10
              MediaQueue.empty))
    = [firstJob].
Proof.
  assert (Hc : ¬ MediaQueue.isCompleted "m1" MediaQueue.empty).
  { intros [c Hc]. vm_compute in Hc. discriminate. }
  assert (Hp : ¬ MediaQueue.isProcessing "m1" MediaQueue.empty).
  { unfold MediaQueue.isProcessing. cbn. apply not_elem_of_empty. }
  assert (Hq : ¬ MediaQueue.isQueued "m1" MediaQueue.empty).
  { intros (j & Hin & _). by apply elem_of_nil in Hin. }
  pose proof (enqueue_new_job "m1" (imageMessage "m1") Runs.client 1 10
                MediaQueue.empty Hc Hp Hq) as H.
  cbv zeta in H.
  split; [exact Hc|]. split; [exact Hp|]. split; [exact Hq|]. split.
  - exact (proj1 H).
  - exact (proj1 (proj2 H)).
Defined.

Lemma at_most_two_attempts_witness :
  MediaWorkers.working (MediaWorkers.exec polled MediaWorkers.start) !! 0%nat
    = Some firstJob
  ∧ (MediaQueue.attempts firstJob = 0 ∨ MediaQueue.attempts firstJob = 1).
Proof.
  assert (Hw : MediaWorkers.working (MediaWorkers.exec polled MediaWorkers.start)
               !! 0%nat = Some firstJob) by reflexivity.
  pose proof (at_most_two_attempts polled firstJob
                (or_intror (ex_intro _ 0%nat Hw))) as H.
  split; [exact Hw|]. exact (proj1 H).
Defined.

Lemma threeChats_distinct : NoDup (ChatCache.rawId <$> threeChats).
Proof.
  apply (bool_decide_unpack _). by vm_compute.
Qed.

Lemma initializeCache_builds_the_indexes_witness :
  ChatCacheReads.isCacheReady Runs.client ChatCache.empty = false
  ∧ ChatCacheReads.isCacheReady Runs.client loadedCache = true
  ∧ ChatCache.lookupChat Runs.client "status@broadcast" loadedCache = None.
Proof.
  pose proof (initializeCache_builds_the_indexes Runs.client threeChats 5000
                ChatCache.empty eq_refl threeChats_distinct) as H.
  cbv zeta in H.
  split; [reflexivity|]. split.
  - exact (proj1 H).
  - exact (proj1 (proj2 (proj2 (proj2 H)) "status@broadcast" (or_introl eq_refl))).
Defined.

Lemma cache_loads_once_until_cleared_witness :
  otherClient ≠ Runs.client
  ∧ ChatCacheReads.isCacheReady Runs.client
      (ChatCache.clearCache Runs.client loadedCache) = false
  ∧ ChatCache.initializeCache Runs.client [] 9000 loadedCache = loadedCache.
Proof.
  assert (Hne : otherClient ≠ Runs.client) by (vm_compute; discriminate).
  pose proof (cache_loads_once_until_cleared Runs.client otherClient [] 9000
                loadedCache Hne) as H.
  split; [exact Hne|]. split.
  - exact (proj1 (proj1 (proj2 H))).
  - exact (proj1 H eq_refl).
Defined.

Lemma message_updates_chat_and_unread_index_witness :
  is_Some (ChatCache.chatCache loadedCache !! Runs.client)
  ∧ ChatCacheReads.from inbound ≠ "status@broadcast"
  ∧ ChatCache.inUnreadIndex Runs.client "593111@c.us"
      (ChatCacheReads.updateCacheOnMessage Runs.client inbound 6000 loadedCache).
Proof.
  assert (Hb : ChatCacheReads.from inbound ≠ "status@broadcast")
    by (vm_compute; discriminate).
  destruct (ChatCache.chatCache loadedCache !! Runs.client) as [m|] eqn:Hm;
    [|vm_compute in Hm; discriminate].
  destruct (ChatCache.unreadChats loadedCache !! Runs.client) as [u|] eqn:Hu;
    [|vm_compute in Hu; discriminate].
  pose proof (message_updates_chat_and_unread_index Runs.client inbound 6000
                loadedCache m u Hm Hu Hb) as H.
  cbv zeta in H. destruct H as (c' & _ & _ & _ & _ & _ & _ & Hcount & _).
  split; [by eexists|]. split; [exact Hb|].
  exact (proj2 Hcount).
Defined.

Lemma createClient_refuses_once_at_limit_witness :
  0 < Orchestrator.MAX_RETRIES defaultConfig
  ∧ Z.of_nat (length threeFailures) = Orchestrator.MAX_RETRIES defaultConfig
  ∧ fst (Orchestrator.createClient defaultConfig Runs.client
           (Orchestrator.Initializes waitingSession 5000)
           (Orchestrator.exec defaultConfig
              (Orchestrator.OpCreateClient Runs.client <$> threeFailures)
              (Orchestrator.initial waitingClient)))
    = Orchestrator.MaxRetriesReached.
Proof.
  assert (Hall : Forall (λ a, Orchestrator.failing a = true) threeFailures)
    by (repeat constructor).
  pose proof (createClient_refuses_once_at_limit defaultConfig Runs.client
                threeFailures (Orchestrator.Initializes waitingSession 5000)
                waitingSession 6000 (Orchestrator.initial waitingClient)
                eq_refl eq_refl Hall eq_refl) as H.
  cbv zeta in H.
  split; [reflexivity|]. split; [reflexivity|].
  rewrite (proj1 (proj2 H)). reflexivity.
Defined.


End MoreInstances.
